(** * TwitCanva canvas hooks

    A shallow embedding of the hooks and components of the canvas front
    end,

    - [src/hooks/useImageNodeHandlers.ts]: the node derivation handlers
      (image to image, image to video, change-angle regeneration) and the
      prompt builder [buildAnglePrompt];
    - [src/hooks/useContextMenu.ts]: the context menu controller;
    - [useFaceDetection.ts]: the loader of the face detection models and
      the loading flag of [detectFaces];
    - [src/components/modals/TwitterPostModal.tsx]: the modal that posts
      to X;
    - [src/components/canvas/ChangeAnglePanel.tsx]: the sliders and the
      cube of the angle panel;

    followed by the properties of the canvas specification that concern
    them and by further properties of the code.

    Conventions of the embedding.

    - A JavaScript [number] holding a coordinate of a node or of the
      context menu is an IEEE 754 double: Rocq's primitive [float], whose
      operations are those of binary64, rounding included.  The angle
      settings are integers ([Z]): the sliders of [ChangeAnglePanel.tsx]
      deliver them through [parseInt(_, 10)]; the fill of a slider, which
      is computed from these integers, is an exact rational ([Q]).
    - A JavaScript string is a [string] of bytes; the degree sign of the
      prompt templates is its two UTF-8 bytes.  Where the code counts or
      trims a string, it is the list of its UTF-16 code units.
    - An optional property ([p?: T]) is an [option]; [None] is [undefined].
    - React state lives in a [World] record; the handlers are written in a
      small state monad over it, one monadic action per effect of the
      source ([setNodes], [setSelectedNodeIds], [crypto.randomUUID],
      [requestAnimationFrame], [console.log], the generation callback). *)

From Stdlib Require Import ZArith QArith List String Ascii Bool Lia DecimalString.
From Stdlib Require Import DecimalPos Lqa Floats Relations.
Import ListNotations.
#[local] Open Scope string_scope.

(* ================================================================== *)
(** ** JavaScript primitives used by the hooks *)
(* ================================================================== *)

Module JS.

  (** [Array.prototype.push], as the array it leaves behind. *)
Definition push {A : Type} (arr : list A) (v : A) : list A := arr ++ [v].

  (** [Array.prototype.join]. *)
Definition join (sep : string) (arr : list string) : string :=
  String.concat sep arr.

  (** [Array.prototype.find]. *)
Definition find {A : Type} (p : A -> bool) (arr : list A) : option A :=
  List.find p arr.

  (** [Array.prototype.map]. *)
Definition map {A B : Type} (f : A -> B) (arr : list A) : list B :=
  List.map f arr.

  (** [Math.abs] on an integral number. *)
Definition abs (n : Z) : Z := Z.abs n.

  (** Number-to-string conversion of a template literal, for an integral
      number: the decimal digits, with a leading minus sign below zero. *)
Definition toString (n : Z) : string :=
  match n with
  | Z0 => "0"
  | Zpos p => NilZero.string_of_uint (Pos.to_uint p)
  | Zneg p => "-" ++ NilZero.string_of_uint (Pos.to_uint p)
  end.

  (** [a || b] where [a] is an optional string: [undefined] and the empty
      string are falsy. *)
Definition orElse (a : option string) (b : string) : string :=
  match a with
  | Some s => if (s =? "")%string then b else s
  | None => b
  end.

  (** [String.prototype.includes]. *)
Definition includes (hay needle : string) : bool :=
  match String.index 0 needle hay with
  | Some _ => true
  | None => false
  end.

  (** [String.prototype.indexOf], [None] standing for [-1]. *)
Definition indexOf (hay needle : string) : option nat :=
  String.index 0 needle hay.

  (** [String.prototype.endsWith]. *)
Definition endsWith (hay suffix : string) : bool :=
  let lh := String.length hay in
  let ls := String.length suffix in
  (ls <=? lh)%nat && (String.substring (lh - ls) ls hay =? suffix)%string.

  (** [String.prototype.startsWith]. *)
Definition startsWith (hay pre : string) : bool := String.prefix pre hay.

End JS.

(* ================================================================== *)
(** ** The types of [src/types] *)
(* ================================================================== *)

(** Modelled from the spec: the declaration of [NodeType] in [src/types]
    is not among the sources.  The specification lists IMAGE and VIDEO and
    leaves the remaining variants open; [OTHER_TYPE] stands for them. *)
Inductive NodeType : Type :=
| IMAGE
| VIDEO
| OTHER_TYPE (tag : string).

(** Modelled from the spec: the declaration of [NodeStatus] in [src/types]
    is not among the sources.  The specification lists IDLE and LOADING and
    leaves the remaining variants open; [OTHER_STATUS] stands for them. *)
Inductive NodeStatus : Type :=
| IDLE
| LOADING
| OTHER_STATUS (tag : string).

(** The settings object read by [buildAnglePrompt]
    ([{ rotation; tilt; scale; wideAngle }]). *)
Record AngleSettings : Type := mkAngleSettings {
  rotation : Z;
  tilt : Z;
  scale : Z;
  wideAngle : bool
}.

Module Node.

  (** Modelled from the spec: the declaration of [NodeData] in [src/types]
      is not among the sources.  The record has the properties the handlers
      read or write and the specification's data model names; [rest] holds
      whatever further properties a node carries, which an object spread
      copies along. *)
Record NodeData : Type := mkNodeData {
  id : string;
  type : NodeType;
  x : float;
  y : float;
  prompt : string;
  status : NodeStatus;
  model : string;
  imageModel : option string;
  aspectRatio : option string;
  resolution : option string;
  parentIds : option (list string);
  angleSettings : option AngleSettings;
  angleMode : option bool;
  rest : list (string * string)
}.

  (** [{ ...n, angleMode: v }]. *)
Definition withAngleMode (n : NodeData) (v : bool) : NodeData :=
  {| id := id n; type := type n; x := x n; y := y n; prompt := prompt n;
     status := status n; model := model n; imageModel := imageModel n;
     aspectRatio := aspectRatio n; resolution := resolution n;
     parentIds := parentIds n; angleSettings := angleSettings n;
     angleMode := Some v; rest := rest n |}.

  (** [{ ...n, status: v }]. *)
Definition withStatus (n : NodeData) (v : NodeStatus) : NodeData :=
  {| id := id n; type := type n; x := x n; y := y n; prompt := prompt n;
     status := v; model := model n; imageModel := imageModel n;
     aspectRatio := aspectRatio n; resolution := resolution n;
     parentIds := parentIds n; angleSettings := angleSettings n;
     angleMode := angleMode n; rest := rest n |}.

End Node.

Import Node.

(* ================================================================== *)
(** ** [useImageNodeHandlers.ts]: the prompt builder *)
(* ================================================================== *)

(** The array [parts] of [buildAnglePrompt] as it stands before the final
    [join]: one rebinding per [push] of the source. *)
Definition anglePromptParts (settings : AngleSettings) : list string :=
  let parts : list string := [] in
  let parts := JS.push parts
    "Create a new photograph of this exact same person/subject from a different camera viewing angle. Keep the same scene, lighting, clothing, and background. Only change the camera position." in
  let parts :=
    if negb (rotation settings =? 0)%Z then
      if (rotation settings >? 0)%Z then
        JS.push parts
          ("Move the camera " ++ JS.toString (JS.abs (rotation settings))
           ++ "° to the right side of the subject, as if walking around them clockwise.")
      else
        JS.push parts
          ("Move the camera " ++ JS.toString (JS.abs (rotation settings))
           ++ "° to the left side of the subject, as if walking around them counter-clockwise.")
    else parts in
  let parts :=
    if negb (tilt settings =? 0)%Z then
      if (tilt settings >? 0)%Z then
        JS.push parts
          ("Raise the camera viewpoint " ++ JS.toString (JS.abs (tilt settings))
           ++ "° higher, looking slightly down at the subject.")
      else
        JS.push parts
          ("Lower the camera viewpoint " ++ JS.toString (JS.abs (tilt settings))
           ++ "° lower, looking slightly up at the subject.")
    else parts in
  let parts :=
    if (scale settings >? 50)%Z then
      JS.push parts "Position the camera closer to the subject for a tighter frame."
    else if (scale settings >? 0)%Z then
      JS.push parts "Move the camera slightly closer to the subject."
    else parts in
  let parts :=
    if wideAngle settings then
      JS.push parts "Use wide-angle lens perspective with slight barrel distortion at edges."
    else parts in
  let parts := JS.push parts
    "IMPORTANT: Do NOT rotate or flip the final image. The subject should remain upright and properly oriented." in
  parts.

(** [buildAnglePrompt]: the parts joined by single spaces. *)
Definition buildAnglePrompt (settings : AngleSettings) : string :=
  JS.join " " (anglePromptParts settings).

(* ================================================================== *)
(** ** The world the handlers act on *)
(* ================================================================== *)

(** The two arrow functions handed to [requestAnimationFrame] by
    [handleChangeAngleGenerate], each closing over [newNodeId] (and over the
    generation callback, which is present whenever they exist). *)
Inductive FrameCallback : Type :=
| OuterFrame (newNodeId : string)
| InnerFrame (newNodeId : string).

(** One observed invocation of the generation callback: the node id it
    received and the node store as it stood at that moment. *)
Record GenerateCall : Type := mkGenerateCall {
  calledWith : string;
  storeAtCall : list NodeData
}.

(** Everything the handlers read or write outside their arguments.

    - [nodesState], [selectedState]: the React state behind [setNodes] and
      [setSelectedNodeIds];
    - [uuids], [uuidsDrawn]: the identifiers [crypto.randomUUID] hands out,
      in order, and how many were drawn so far;
    - [frameQueue]: the callbacks waiting for the next animation frame;
    - [console]: the argument lists of the [console.log] calls;
    - [generateCalls]: the invocations of the generation callback, which
      belongs to the generation subsystem;
    - [commits]: every value the node store has been set to, oldest first. *)
Record World : Type := mkWorld {
  nodesState : list NodeData;
  selectedState : list string;
  uuids : nat -> string;
  uuidsDrawn : nat;
  frameQueue : list FrameCallback;
  console : list (list string);
  generateCalls : list GenerateCall;
  commits : list (list NodeData)
}.

(** The state monad of the handlers. *)
Definition M (A : Type) : Type := World -> A * World.

Definition ret {A : Type} (a : A) : M A := fun w => (a, w).

Definition bind {A B : Type} (m : M A) (k : A -> M B) : M B :=
  fun w => let (a, w') := m w in k a w'.

Notation "x <- m ;; k" := (bind m (fun x => k))
  (at level 61, m at next level, right associativity).
Notation "m ;; k" := (bind m (fun _ => k))
  (at level 61, right associativity).

(** The world a handler leaves behind. *)
Definition exec {A : Type} (m : M A) (w : World) : World := snd (m w).

(** [crypto.randomUUID()]. *)
Definition randomUUID : M string := fun w =>
  (uuids w (uuidsDrawn w),
   {| nodesState := nodesState w; selectedState := selectedState w;
      uuids := uuids w; uuidsDrawn := S (uuidsDrawn w);
      frameQueue := frameQueue w; console := console w;
      generateCalls := generateCalls w; commits := commits w |}).

(** [setNodes(updater)]: the updater is applied to the current store, and
    the store takes its result in one step. *)
Definition setNodes (updater : list NodeData -> list NodeData) : M unit := fun w =>
  let next := updater (nodesState w) in
  (tt,
   {| nodesState := next; selectedState := selectedState w;
      uuids := uuids w; uuidsDrawn := uuidsDrawn w;
      frameQueue := frameQueue w; console := console w;
      generateCalls := generateCalls w; commits := commits w ++ [next] |}).

(** [setSelectedNodeIds(value)]. *)
Definition setSelectedNodeIds (value : list string) : M unit := fun w =>
  (tt,
   {| nodesState := nodesState w; selectedState := value;
      uuids := uuids w; uuidsDrawn := uuidsDrawn w;
      frameQueue := frameQueue w; console := console w;
      generateCalls := generateCalls w; commits := commits w |}).

(** [requestAnimationFrame(callback)]: the callback runs at the next frame. *)
Definition requestAnimationFrame (callback : FrameCallback) : M unit := fun w =>
  (tt,
   {| nodesState := nodesState w; selectedState := selectedState w;
      uuids := uuids w; uuidsDrawn := uuidsDrawn w;
      frameQueue := frameQueue w ++ [callback]; console := console w;
      generateCalls := generateCalls w; commits := commits w |}).

(** [console.log(...args)]. *)
Definition console_log (args : list string) : M unit := fun w =>
  (tt,
   {| nodesState := nodesState w; selectedState := selectedState w;
      uuids := uuids w; uuidsDrawn := uuidsDrawn w;
      frameQueue := frameQueue w; console := console w ++ [args];
      generateCalls := generateCalls w; commits := commits w |}).

(** What the generation callback does to the store: the node it is called
    on goes into LOADING. *)
Definition setLoading (nodeId : string) (store : list NodeData) : list NodeData :=
  JS.map (fun n => if (id n =? nodeId)%string then withStatus n LOADING else n) store.

(** Modelled from the spec: the generation callback [onGenerateNode] is a
    function of the generation subsystem, which is not among the sources.
    Of what it does, the model keeps what the specification (the status of
    a node goes from IDLE to LOADING when generation is requested) and the
    comment at line 162 of the hook say: it puts the node it is called on
    into LOADING, by one update of the store.  The call is recorded
    together with the store it finds. *)
Definition invokeGenerateNode (nodeId : string) : M unit := fun w =>
  let next := setLoading nodeId (nodesState w) in
  (tt,
   {| nodesState := next; selectedState := selectedState w;
      uuids := uuids w; uuidsDrawn := uuidsDrawn w;
      frameQueue := frameQueue w; console := console w;
      generateCalls := generateCalls w ++ [mkGenerateCall nodeId (nodesState w)];
      commits := commits w ++ [next] |}).

(* ================================================================== *)
(** ** [useImageNodeHandlers.ts]: the hook *)
(* ================================================================== *)

(** The generation callback, a function of the generation subsystem. *)
Variant GenerateNodeCallback : Type := ExternalGenerateNode.

(** [UseImageNodeHandlersOptions].  [setNodes] and [setSelectedNodeIds] are
    the setters of the world above; [nodes] is the store as the rendering
    that created the handlers saw it. *)
Record UseImageNodeHandlersOptions : Type := mkOptions {
  nodes : list NodeData;
  onGenerateNode : option GenerateNodeCallback
}.

(** The options of a rendering on world [w]. *)
Definition render (w : World) (cb : option GenerateNodeCallback)
  : UseImageNodeHandlersOptions :=
  {| nodes := nodesState w; onGenerateNode := cb |}.

(** [handleImageToImage]. *)
Definition handleImageToImage (opts : UseImageNodeHandlersOptions)
  (nodeId : string) : M unit :=
  match JS.find (fun n => (id n =? nodeId)%string) (nodes opts) with
  | None => ret tt
  | Some imageNode =>
      newNodeId <- randomUUID ;;
      let GAP : float := 100%float in
      let NODE_WIDTH : float := 340%float in
      let newImageNode : NodeData :=
        {| id := newNodeId;
           type := IMAGE;
           x := (x imageNode + NODE_WIDTH + GAP)%float;
           y := y imageNode;
           prompt := "";
           status := IDLE;
           model := "Banana Pro";
           imageModel := None;
           aspectRatio := Some "Auto";
           resolution := Some "Auto";
           parentIds := Some [nodeId];
           angleSettings := None;
           angleMode := None;
           rest := [] |} in
      setNodes (fun prev => (prev ++ [newImageNode])%list) ;;
      setSelectedNodeIds [newNodeId]
  end.

(** [handleImageToVideo]. *)
Definition handleImageToVideo (opts : UseImageNodeHandlersOptions)
  (nodeId : string) : M unit :=
  match JS.find (fun n => (id n =? nodeId)%string) (nodes opts) with
  | None => ret tt
  | Some imageNode =>
      newNodeId <- randomUUID ;;
      let GAP : float := 100%float in
      let NODE_WIDTH : float := 340%float in
      let newVideoNode : NodeData :=
        {| id := newNodeId;
           type := VIDEO;
           x := (x imageNode + NODE_WIDTH + GAP)%float;
           y := y imageNode;
           prompt := "";
           status := IDLE;
           model := "Banana Pro";
           imageModel := None;
           aspectRatio := Some "Auto";
           resolution := Some "Auto";
           parentIds := Some [nodeId];
           angleSettings := None;
           angleMode := None;
           rest := [] |} in
      setNodes (fun prev => (prev ++ [newVideoNode])%list) ;;
      setSelectedNodeIds [newNodeId]
  end.

(** [handleChangeAngleGenerate]. *)
Definition handleChangeAngleGenerate (opts : UseImageNodeHandlersOptions)
  (nodeId : string) : M unit :=
  match JS.find (fun n => (id n =? nodeId)%string) (nodes opts) with
  | None => ret tt
  | Some imageNode =>
      match angleSettings imageNode with
      | None => ret tt
      | Some settings =>
          newNodeId <- randomUUID ;;
          let GAP : float := 100%float in
          let NODE_WIDTH : float := 340%float in
          let anglePrompt := buildAnglePrompt settings in
          let newImageNode : NodeData :=
            {| id := newNodeId;
               type := IMAGE;
               x := (x imageNode + NODE_WIDTH + GAP)%float;
               y := y imageNode;
               prompt := anglePrompt;
               status := IDLE;
               model := "Banana Pro";
               imageModel := Some "gemini-pro";
               aspectRatio := Some (JS.orElse (aspectRatio imageNode) "Auto");
               resolution := Some (JS.orElse (resolution imageNode) "Auto");
               parentIds := Some [nodeId];
               angleSettings := None;
               angleMode := None;
               rest := [] |} in
          setNodes (fun prev =>
            (JS.map (fun n => if (id n =? nodeId)%string
                              then withAngleMode n false else n) prev
             ++ [newImageNode])%list) ;;
          setSelectedNodeIds [newNodeId] ;;
          match onGenerateNode opts with
          | Some _ => requestAnimationFrame (OuterFrame newNodeId)
          | None => ret tt
          end
      end
  end.

(** The body of a frame callback. *)
Definition runFrameCallback (callback : FrameCallback) : M unit :=
  match callback with
  | OuterFrame newNodeId => requestAnimationFrame (InnerFrame newNodeId)
  | InnerFrame newNodeId =>
      console_log ["[ChangeAngle] Triggering generation for:"; newNodeId] ;;
      invokeGenerateNode newNodeId
  end.

(** The callbacks of one frame, in the order they were requested. *)
Fixpoint runFrameCallbacks (callbacks : list FrameCallback) : M unit :=
  match callbacks with
  | [] => ret tt
  | callback :: others => runFrameCallback callback ;; runFrameCallbacks others
  end.

(** One animation frame: the callbacks requested so far run; what they
    request in turn waits for the frame after. *)
Definition animationFrame : M unit := fun w =>
  runFrameCallbacks (frameQueue w)
   {| nodesState := nodesState w; selectedState := selectedState w;
      uuids := uuids w; uuidsDrawn := uuidsDrawn w;
      frameQueue := []; console := console w;
      generateCalls := generateCalls w; commits := commits w |}.


(* ================================================================== *)
(** ** [useContextMenu.ts]: the context menu controller *)
(* ================================================================== *)

Module Menu.

  (** The string literal types ['global' | 'node-connector' | 'node-options']
      and ['left' | 'right'] of the hook. *)
Inductive MenuType : Type := global | node_connector | node_options.

Inductive ConnectorSide : Type := left | right.

  (** Modelled from the spec: the declaration of [ContextMenuState] in
      [src/types] is not among the sources.  The record has the properties
      the hook writes, which are those of the specification's data model. *)
Record ContextMenuState : Type := mkContextMenuState {
  isOpen : bool;
  x : float;
  y : float;
  type : MenuType;
  sourceNodeId : option string;
  connectorSide : option ConnectorSide
}.

  (** Modelled from the spec: the declaration of [Viewport] in [src/types]
      is not among the sources.  The specification describes the viewport
      transform as pan offsets and a zoom factor; the hook only passes it on. *)
Record Viewport : Type := mkViewport {
  panX : float;
  panY : float;
  zoom : float
}.

  (** What the hook reads of [getBoundingClientRect()]. *)
Record DOMRect : Type := mkDOMRect {
  rectRight : float;
  rectTop : float
}.

  (** What the hook reads and writes of a [React.MouseEvent]: the id of the
      target element, the cursor position, the bounding box of the current
      target, and the flags raised by [preventDefault] and
      [stopPropagation]. *)
Record MouseEvent : Type := mkMouseEvent {
  targetId : string;
  clientX : float;
  clientY : float;
  currentTargetRect : DOMRect;
  defaultPrevented : bool;
  propagationStopped : bool
}.

  (** What the hook reads of [window]. *)
Record Window : Type := mkWindow {
  innerWidth : float;
  innerHeight : float
}.

  (** [e.preventDefault()] and [e.stopPropagation()]. *)
Definition preventDefault (e : MouseEvent) : MouseEvent :=
  {| targetId := targetId e; clientX := clientX e; clientY := clientY e;
     currentTargetRect := currentTargetRect e;
     defaultPrevented := true; propagationStopped := propagationStopped e |}.

Definition stopPropagation (e : MouseEvent) : MouseEvent :=
  {| targetId := targetId e; clientX := clientX e; clientY := clientY e;
     currentTargetRect := currentTargetRect e;
     defaultPrevented := defaultPrevented e; propagationStopped := true |}.

  (** The argument of [useState]: the state at the first rendering. *)
Definition initialContextMenu : ContextMenuState :=
  {| isOpen := false; x := 0; y := 0; type := global;
     sourceNodeId := None; connectorSide := None |}.

  (** Each handler below is the state its [setContextMenu] call leaves,
      as a function of the state before; the handlers that touch the event
      return it as well. *)

  (** [closeContextMenu]: [prev => ({ ...prev, isOpen: false })]. *)
Definition closeContextMenu (prev : ContextMenuState) : ContextMenuState :=
  {| isOpen := false; x := x prev; y := y prev; type := type prev;
     sourceNodeId := sourceNodeId prev; connectorSide := connectorSide prev |}.

  (** [handleDoubleClick]. *)
Definition handleDoubleClick (e : MouseEvent) (contextMenu : ContextMenuState)
  : ContextMenuState :=
  if (targetId e =? "canvas-background")%string then
    {| isOpen := true; x := clientX e; y := clientY e; type := global;
       sourceNodeId := None; connectorSide := None |}
  else contextMenu.

  (** [handleGlobalContextMenu]. *)
Definition handleGlobalContextMenu (e : MouseEvent) (contextMenu : ContextMenuState)
  : MouseEvent * ContextMenuState :=
  let e := preventDefault e in
  if (targetId e =? "canvas-background")%string then
    (e, {| isOpen := true; x := clientX e; y := clientY e; type := global;
           sourceNodeId := None; connectorSide := None |})
  else (e, contextMenu).

  (** [handleToolbarAdd]. *)
Definition handleToolbarAdd (e : MouseEvent) (contextMenu : ContextMenuState)
  : ContextMenuState :=
  let rect := currentTargetRect e in
  {| isOpen := true; x := (rectRight rect + 10)%float; y := rectTop rect; type := global;
     sourceNodeId := None; connectorSide := None |}.

  (** The choice handed to [handleContextMenuSelect]: [NodeType | 'DELETE']. *)
Inductive MenuChoice : Type :=
| Create (nodeType : NodeType)
| DELETE.

  (** [handleContextMenuSelect].  The dispatcher [handleSelectTypeFromMenu]
      is supplied by the caller; it receives the choice, the menu state, the
      viewport and [closeContextMenu].  Of what it does, the controller only
      feels whether the close function it was handed gets called, which is
      the boolean the dispatcher returns here. *)
Definition handleContextMenuSelect
  (handleSelectTypeFromMenu : MenuChoice -> ContextMenuState -> Viewport -> bool)
  (viewport : Viewport) (choice : MenuChoice) (contextMenu : ContextMenuState)
  : ContextMenuState :=
  if handleSelectTypeFromMenu choice contextMenu viewport
  then closeContextMenu contextMenu
  else contextMenu.

  (** [openConnectorMenu]. *)
Definition openConnectorMenu (window : Window) (nodeId : string)
  (direction : ConnectorSide) (contextMenu : ContextMenuState) : ContextMenuState :=
  {| isOpen := true;
     x := (innerWidth window / 2)%float;
     y := (innerHeight window / 2)%float;
     type := node_connector;
     sourceNodeId := Some nodeId;
     connectorSide := Some direction |}.

  (** [openNodeOptionsMenu]. *)
Definition openNodeOptionsMenu (e : MouseEvent) (nodeId : string)
  (contextMenu : ContextMenuState) : MouseEvent * ContextMenuState :=
  let e := preventDefault e in
  let e := stopPropagation e in
  (e, {| isOpen := true; x := clientX e; y := clientY e; type := node_options;
         sourceNodeId := Some nodeId; connectorSide := None |}).

  (** The calls a user of the hook can make on what it returns. *)
Inductive Call : Type :=
| CallClose
| CallDoubleClick (e : MouseEvent)
| CallGlobalContextMenu (e : MouseEvent)
| CallToolbarAdd (e : MouseEvent)
| CallSelect (dispatcher : MenuChoice -> ContextMenuState -> Viewport -> bool)
             (viewport : Viewport) (choice : MenuChoice)
| CallOpenConnectorMenu (window : Window) (nodeId : string) (direction : ConnectorSide)
| CallOpenNodeOptionsMenu (e : MouseEvent) (nodeId : string)
| CallSetContextMenu (value : ContextMenuState).

  (** The menu state after one call. *)
Definition step (contextMenu : ContextMenuState) (c : Call) : ContextMenuState :=
  match c with
  | CallClose => closeContextMenu contextMenu
  | CallDoubleClick e => handleDoubleClick e contextMenu
  | CallGlobalContextMenu e => snd (handleGlobalContextMenu e contextMenu)
  | CallToolbarAdd e => handleToolbarAdd e contextMenu
  | CallSelect dispatcher viewport choice =>
      handleContextMenuSelect dispatcher viewport choice contextMenu
  | CallOpenConnectorMenu window nodeId direction =>
      openConnectorMenu window nodeId direction contextMenu
  | CallOpenNodeOptionsMenu e nodeId => snd (openNodeOptionsMenu e nodeId contextMenu)
  | CallSetContextMenu value => value
  end.

  (** The menu state after a sequence of calls, from the first rendering. *)
Definition run (calls : list Call) : ContextMenuState :=
  fold_left step calls initialContextMenu.

  (** The menus the state has on screen: the one of the slot when it is
      open, none otherwise. *)
Definition openMenus (contextMenu : ContextMenuState) : list ContextMenuState :=
  if isOpen contextMenu then [contextMenu] else [].

End Menu.

(* ================================================================== *)
(** ** The vocabulary of prompt synthesis *)
(* ================================================================== *)

(** The directives a synthesized prompt is made of. *)
Definition preamble : string :=
  "Create a new photograph of this exact same person/subject from a different camera viewing angle. Keep the same scene, lighting, clothing, and background. Only change the camera position.".

Definition rotateRight (degrees : Z) : string :=
  "Move the camera " ++ JS.toString degrees
  ++ "° to the right side of the subject, as if walking around them clockwise.".

Definition rotateLeft (degrees : Z) : string :=
  "Move the camera " ++ JS.toString degrees
  ++ "° to the left side of the subject, as if walking around them counter-clockwise.".

Definition tiltUp (degrees : Z) : string :=
  "Raise the camera viewpoint " ++ JS.toString degrees
  ++ "° higher, looking slightly down at the subject.".

Definition tiltDown (degrees : Z) : string :=
  "Lower the camera viewpoint " ++ JS.toString degrees
  ++ "° lower, looking slightly up at the subject.".

Definition closerTight : string :=
  "Position the camera closer to the subject for a tighter frame.".

Definition closerSlight : string :=
  "Move the camera slightly closer to the subject.".

Definition wideAngleLens : string :=
  "Use wide-angle lens perspective with slight barrel distortion at edges.".

Definition keepUpright : string :=
  "IMPORTANT: Do NOT rotate or flip the final image. The subject should remain upright and properly oriented.".

(** The prompt synthesis algorithm in the words of the specification:
    the directives of steps 1 to 6, each under its condition, in that
    order (step 7 joins them). *)
Definition synthesisDirectives (s : AngleSettings) : list string :=
  ([preamble]
   ++ (if (rotation s =? 0)%Z then []
       else if (0 <? rotation s)%Z then [rotateRight (Z.abs (rotation s))]
       else [rotateLeft (Z.abs (rotation s))])
   ++ (if (tilt s =? 0)%Z then []
       else if (0 <? tilt s)%Z then [tiltUp (Z.abs (tilt s))]
       else [tiltDown (Z.abs (tilt s))])
   ++ (if (50 <? scale s)%Z then [closerTight]
       else if (0 <? scale s)%Z && (scale s <=? 50)%Z then [closerSlight]
       else [])
   ++ (if wideAngle s then [wideAngleLens] else [])
   ++ [keepUpright])%list.

Definition promptSynthesis (s : AngleSettings) : string :=
  JS.join " " (synthesisDirectives s).

(** The two settings of the specification's examples. *)
Definition settingsRight45 : AngleSettings :=
  {| rotation := 45; tilt := 0; scale := 0; wideAngle := false |}.

Definition settingsMixed : AngleSettings :=
  {| rotation := -30; tilt := 20; scale := 60; wideAngle := true |}.

(** [occurInOrder hay from needles]: the needles occur in [hay] one after
    the other, each starting at or after the end of the one before (the
    first at or after position [from]). *)
Fixpoint occurInOrder (hay : string) (from : nat) (needles : list string) : bool :=
  match needles with
  | [] => true
  | needle :: others =>
      match String.index from needle hay with
      | Some i => occurInOrder hay (i + String.length needle) others
      | None => false
      end
  end.

(** ** The vocabulary of the node derivations *)

(** The ids in use in a store. *)
Definition storeIds (store : list NodeData) : list string := List.map id store.

(** [names store sourceId src]: the id [sourceId] names the node [src] of
    the store, which is the node a lookup by that id yields. *)
Definition names (store : list NodeData) (sourceId : string) (src : NodeData) : Prop :=
  JS.find (fun n => (id n =? sourceId)%string) store = Some src.

(** The identifier the next call of [crypto.randomUUID] returns. *)
Definition nextUUID (w : World) : string := uuids w (uuidsDrawn w).

(** What the handlers rely on [crypto.randomUUID] for: the identifier it
    returns is not the id of a node of the store. *)
Definition freshUUID (w : World) : Prop :=
  ~ In (nextUUID w) (storeIds (nodesState w)).



(** ** The vocabulary of animation frames *)

(** What one animation frame does with the callbacks [queue] it runs: the
    callbacks they request for the frame after, the lines they log, and the
    invocations of the generation callback they make, the first of them on
    the store [store] and each later one on the store the one before left. *)
Definition frameRequests (queue : list FrameCallback) : list FrameCallback :=
  flat_map (fun callback =>
              match callback with
              | OuterFrame newNodeId => [InnerFrame newNodeId]
              | InnerFrame _ => []
              end) queue.

Definition frameLogs (queue : list FrameCallback) : list (list string) :=
  flat_map (fun callback =>
              match callback with
              | OuterFrame _ => []
              | InnerFrame newNodeId =>
                  [["[ChangeAngle] Triggering generation for:"; newNodeId]]
              end) queue.

(** The ids the generation callback is invoked on, in order. *)
Definition frameTriggers (queue : list FrameCallback) : list string :=
  flat_map (fun callback =>
              match callback with
              | OuterFrame _ => []
              | InnerFrame newNodeId => [newNodeId]
              end) queue.

(** The store after the generation callback was invoked on [ids], one
    after the other. *)
Definition loadingAll (ids : list string) (store : list NodeData) : list NodeData :=
  fold_left (fun st i => setLoading i st) ids store.

Fixpoint frameCalls (store : list NodeData) (queue : list FrameCallback)
  : list GenerateCall :=
  match queue with
  | [] => []
  | OuterFrame _ :: others => frameCalls store others
  | InnerFrame newNodeId :: others =>
      mkGenerateCall newNodeId store :: frameCalls (setLoading newNodeId store) others
  end.

(** The values the store takes during the frame, one per invocation. *)
Fixpoint frameCommits (store : list NodeData) (queue : list FrameCallback)
  : list (list NodeData) :=
  match queue with
  | [] => []
  | OuterFrame _ :: others => frameCommits store others
  | InnerFrame newNodeId :: others =>
      setLoading newNodeId store :: frameCommits (setLoading newNodeId store) others
  end.

(** ** Runs of the hook *)

(** What can happen to the world: a call of one of the three handlers the
    hook returns, or the passing of an animation frame. *)
Inductive HookCall : Type :=
| CallImageToImage (nodeId : string)
| CallImageToVideo (nodeId : string)
| CallChangeAngleGenerate (nodeId : string)
| AnimationFrame.

(** One such step; a handler sees the store of the latest rendering. *)
Definition perform (cb : option GenerateNodeCallback) (w : World) (c : HookCall)
  : World :=
  match c with
  | CallImageToImage nodeId => exec (handleImageToImage (render w cb) nodeId) w
  | CallImageToVideo nodeId => exec (handleImageToVideo (render w cb) nodeId) w
  | CallChangeAngleGenerate nodeId =>
      exec (handleChangeAngleGenerate (render w cb) nodeId) w
  | AnimationFrame => exec animationFrame w
  end.

(** The contract of [crypto.randomUUID] over a whole run: it never returns
    the same identifier twice, and none of the identifiers it has yet to
    return is the id of a node of the store. *)
Definition uuidContract (w : World) : Prop :=
  (forall i j : nat, uuids w i = uuids w j -> i = j)
  /\ (forall j : nat, (uuidsDrawn w <= j)%nat ->
        ~ In (uuids w j) (storeIds (nodesState w))).

(** ** The vocabulary of the context menu *)

(** The calls that write an open menu into the state: the gestures on the
    canvas background, the toolbar button, and the two node menus.  A
    double click or right click elsewhere opens nothing. *)
Definition isOpenCall (c : Menu.Call) : bool :=
  match c with
  | Menu.CallDoubleClick e => (Menu.targetId e =? "canvas-background")%string
  | Menu.CallGlobalContextMenu e => (Menu.targetId e =? "canvas-background")%string
  | Menu.CallToolbarAdd _ => true
  | Menu.CallOpenConnectorMenu _ _ _ => true
  | Menu.CallOpenNodeOptionsMenu _ _ => true
  | Menu.CallSetContextMenu value => Menu.isOpen value
  | Menu.CallClose => false
  | Menu.CallSelect _ _ _ => false
  end.

(** The calls that go through the handlers of the hook, leaving the raw
    state setter aside. *)
Definition isHandlerCall (c : Menu.Call) : bool :=
  match c with
  | Menu.CallSetContextMenu _ => false
  | _ => true
  end.

(** ** A small canvas to run the handlers on *)

(** An image node in angle mode, set to a quarter turn to the right. *)
Definition exampleNode : NodeData :=
  {| id := "node-1"; type := IMAGE; x := 120; y := 80;
     prompt := "a lighthouse at dusk"; status := IDLE; model := "Banana Pro";
     imageModel := None; aspectRatio := Some "16:9"; resolution := None;
     parentIds := None; angleSettings := Some settingsRight45;
     angleMode := Some true; rest := [] |}.

(** An image node that was never put in angle mode. *)
Definition plainNode : NodeData :=
  {| id := "node-2"; type := IMAGE; x := 120; y := 420;
     prompt := ""; status := IDLE; model := "Banana Pro";
     imageModel := None; aspectRatio := Some "Auto"; resolution := Some "Auto";
     parentIds := None; angleSettings := None;
     angleMode := None; rest := [] |}.

Definition exampleUUIDs (n : nat) : string :=
  "3f2b6c1e-0000-4000-8000-" ++ JS.toString (Z.of_nat n).

Definition exampleWorld : World :=
  {| nodesState := [exampleNode; plainNode]; selectedState := [];
     uuids := exampleUUIDs; uuidsDrawn := 0;
     frameQueue := []; console := []; generateCalls := []; commits := [] |}.

(** A canvas whose one node sits off the pixel grid, at 72.08 (the double
    nearest to it), and carries the very identifier [crypto.randomUUID] is
    about to return. *)
Definition offGridNode : NodeData :=
  {| id := "3b241101-e2bb-4255-8caf-4136c566a962"; type := IMAGE;
     x := 72.08; y := 80;
     prompt := "a lighthouse at dusk"; status := IDLE; model := "Banana Pro";
     imageModel := None; aspectRatio := Some "16:9"; resolution := None;
     parentIds := None; angleSettings := None;
     angleMode := None; rest := [] |}.

Definition offGridWorld : World :=
  {| nodesState := [offGridNode]; selectedState := [];
     uuids := fun _ => "3b241101-e2bb-4255-8caf-4136c566a962"; uuidsDrawn := 0;
     frameQueue := []; console := []; generateCalls := []; commits := [] |}.

(** A right click on the canvas background and one on a node. *)
Definition backgroundClick : Menu.MouseEvent :=
  {| Menu.targetId := "canvas-background"; Menu.clientX := 300; Menu.clientY := 200;
     Menu.currentTargetRect := {| Menu.rectRight := 0; Menu.rectTop := 0 |};
     Menu.defaultPrevented := false; Menu.propagationStopped := false |}.

Definition nodeClick : Menu.MouseEvent :=
  {| Menu.targetId := "node-1"; Menu.clientX := 512; Menu.clientY := 96;
     Menu.currentTargetRect := {| Menu.rectRight := 0; Menu.rectTop := 0 |};
     Menu.defaultPrevented := false; Menu.propagationStopped := false |}.

(* ================================================================== *)
(** ** Further vocabulary: runs, parent links, scale buckets *)
(* ================================================================== *)

(** The world after a sequence of hook calls and animation frames, each
    handler seeing the store of the latest rendering. *)
Definition runHook (cb : option GenerateNodeCallback) (calls : list HookCall)
  (w : World) : World :=
  fold_left (perform cb) calls w.

(** The parent ids of a node, none when the property is absent. *)
Definition parentList (n : NodeData) : list string :=
  match parentIds n with
  | Some ids => ids
  | None => []
  end.

(** [parentsEarlier seen store]: walking the store from its first node,
    every parent id of a node is the id of a node met before it ([seen]
    holding the ids met before the walk starts). *)
Fixpoint parentsEarlier (seen : list string) (store : list NodeData) : bool :=
  match store with
  | [] => true
  | n :: others =>
      forallb (fun p => existsb (String.eqb p) seen) (parentList n)
      && parentsEarlier (seen ++ [id n]) others
  end.

(** [parentAt store i k]: the node at position [i] of the store has among
    its parent ids the id of the node at position [k]. *)
Definition parentAt (store : list NodeData) (i k : nat) : Prop :=
  exists n m : NodeData,
    nth_error store i = Some n /\ nth_error store k = Some m
    /\ In (id m) (parentList n).

(** All that [buildAnglePrompt] reads of the scale: above 50, between 1 and
    50, or not above 0. *)
Inductive ScaleBucket : Type := ScaleTight | ScaleSlight | ScaleNone.

Definition scaleBucket (scale : Z) : ScaleBucket :=
  if (scale >? 50)%Z then ScaleTight
  else if (scale >? 0)%Z then ScaleSlight
  else ScaleNone.

(** [keptNode n n']: [n'] is the node [n] but for what a run may change of
    a node: its [angleMode], which may have become false, and its status,
    which may have become LOADING. *)
Definition keptNode (n n' : NodeData) : Prop :=
  id n' = id n /\ type n' = type n /\ x n' = x n /\ y n' = y n
  /\ prompt n' = prompt n /\ model n' = model n
  /\ imageModel n' = imageModel n /\ aspectRatio n' = aspectRatio n
  /\ resolution n' = resolution n /\ parentIds n' = parentIds n
  /\ angleSettings n' = angleSettings n /\ rest n' = rest n
  /\ (angleMode n' = angleMode n \/ angleMode n' = Some false)
  /\ (status n' = status n \/ status n' = LOADING).

(** The steps of a run that are animation frames. *)
Definition isFrame (c : HookCall) : bool :=
  match c with
  | AnimationFrame => true
  | _ => false
  end.

(** The calls of a run that are change-angle derivations or frames. *)
Definition isAngleOrFrame (c : HookCall) : bool :=
  match c with
  | CallChangeAngleGenerate _ => true
  | AnimationFrame => true
  | _ => false
  end.

(** The console line the inner frame callback writes before it invokes the
    generation callback on [nodeId]. *)
Definition triggerLogLine (nodeId : string) : list string :=
  ["[ChangeAngle] Triggering generation for:"; nodeId].

(** An identifier supply that never repeats, for the example canvas: the
    [n]-th identifier ends in [n] letters x. *)
Fixpoint xs (n : nat) : string :=
  match n with
  | O => ""
  | S k => String "x" (xs k)
  end.

Definition distinctUUIDs (n : nat) : string := "9c1d-" ++ xs n.

Definition distinctWorld : World :=
  {| nodesState := [exampleNode; plainNode]; selectedState := [];
     uuids := distinctUUIDs; uuidsDrawn := 0;
     frameQueue := []; console := []; generateCalls := []; commits := [] |}.

(** The text of a prompt, read from its end: what follows the scale
    directive, the tilt directive, the rotation directive and the preamble,
    the pieces separated by single spaces. *)
Definition wideSuffix (wide : bool) : string :=
  if wide then wideAngleLens ++ " " ++ keepUpright else keepUpright.

Definition scaleSuffix (bucket : ScaleBucket) (wide : bool) : string :=
  match bucket with
  | ScaleTight => closerTight ++ " " ++ wideSuffix wide
  | ScaleSlight => closerSlight ++ " " ++ wideSuffix wide
  | ScaleNone => wideSuffix wide
  end.

Definition tiltSuffix (t : Z) (bucket : ScaleBucket) (wide : bool) : string :=
  if (t =? 0)%Z then scaleSuffix bucket wide
  else if (0 <? t)%Z then tiltUp (Z.abs t) ++ " " ++ scaleSuffix bucket wide
  else tiltDown (Z.abs t) ++ " " ++ scaleSuffix bucket wide.

Definition rotationSuffix (r t : Z) (bucket : ScaleBucket) (wide : bool) : string :=
  if (r =? 0)%Z then tiltSuffix t bucket wide
  else if (0 <? r)%Z then rotateRight (Z.abs r) ++ " " ++ tiltSuffix t bucket wide
  else rotateLeft (Z.abs r) ++ " " ++ tiltSuffix t bucket wide.

Definition promptText (s : AngleSettings) : string :=
  preamble ++ " "
  ++ rotationSuffix (rotation s) (tilt s) (scaleBucket (scale s)) (wideAngle s).

(** The menu state fits its type: a global menu carries neither a source
    node nor a connector side, a node-connector menu carries both, a
    node-options menu carries a source node only. *)
Definition menuFitsType (contextMenu : Menu.ContextMenuState) : bool :=
  match Menu.type contextMenu, Menu.sourceNodeId contextMenu,
        Menu.connectorSide contextMenu with
  | Menu.global, None, None => true
  | Menu.node_connector, Some _, Some _ => true
  | Menu.node_options, Some _, None => true
  | _, _, _ => false
  end.

(* ================================================================== *)
(** ** [useFaceDetection.ts]: model loading and face detection *)
(* ================================================================== *)

Module Face.

  (** The state of one component using the hook: its two [useState] cells. *)
Record Instance : Type := mkInstance {
  isModelLoaded : bool;
  isLoading : bool
}.

  (** The module-level flags [modelsLoaded] and [modelsLoading], shared by
      every component that uses the hook; the components; the calls of
      [loadModels] suspended at their [await], each with the component it
      belongs to; the number of [loadFromUri] calls made so far; the
      console. *)
Record World : Type := mkWorld {
  modelsLoaded : bool;
  modelsLoading : bool;
  instances : list Instance;
  pendingLoads : list nat;
  loadsStarted : nat;
  console : list string
}.

Definition initialWorld : World :=
  {| modelsLoaded := false; modelsLoading := false; instances := [];
     pendingLoads := []; loadsStarted := 0; console := [] |}.

  (** [setIsModelLoaded(v)] of component [i]. *)
Definition setIsModelLoaded (i : nat) (v : bool) (l : list Instance) : list Instance :=
  match nth_error l i with
  | Some inst =>
      firstn i l ++ {| isModelLoaded := v; isLoading := isLoading inst |} :: skipn (S i) l
  | None => l
  end.

  (** The first rendering of a component: [useState(modelsLoaded)] and
      [useState(false)]. *)
Definition render (w : World) : World :=
  {| modelsLoaded := modelsLoaded w; modelsLoading := modelsLoading w;
     instances := instances w
                  ++ [{| isModelLoaded := modelsLoaded w; isLoading := false |}];
     pendingLoads := pendingLoads w; loadsStarted := loadsStarted w;
     console := console w |}.

  (** [loadModels] of component [i], from its start to its [await] (or to
      its early return). *)
Definition loadModels (i : nat) (w : World) : World :=
  if modelsLoaded w || modelsLoading w then
    if modelsLoaded w then
      {| modelsLoaded := modelsLoaded w; modelsLoading := modelsLoading w;
         instances := setIsModelLoaded i true (instances w);
         pendingLoads := pendingLoads w; loadsStarted := loadsStarted w;
         console := console w |}
    else w
  else
    {| modelsLoaded := modelsLoaded w; modelsLoading := true;
       instances := instances w;
       pendingLoads := pendingLoads w ++ [i];
       loadsStarted := S (loadsStarted w);
       console := console w ++ ["[Face Detection] Loading face-api.js models..."] |}.

  (** [loadModels] of component [i] from its [await] on, the load having
      succeeded. *)
Definition loadModelsResolved (i : nat) (w : World) : World :=
  {| modelsLoaded := true; modelsLoading := false;
     instances := setIsModelLoaded i true (instances w);
     pendingLoads := pendingLoads w; loadsStarted := loadsStarted w;
     console := console w ++ ["[Face Detection] Models loaded successfully"] |}.

  (** The same, the load having failed: the [catch] block. *)
Definition loadModelsRejected (i : nat) (w : World) : World :=
  {| modelsLoaded := modelsLoaded w; modelsLoading := false;
     instances := instances w;
     pendingLoads := pendingLoads w; loadsStarted := loadsStarted w;
     console := console w ++ ["[Face Detection] Failed to load models:"] |}.

  (** Removing the [k]-th suspended call from the list. *)
Definition withoutPending (k : nat) (w : World) : World :=
  {| modelsLoaded := modelsLoaded w; modelsLoading := modelsLoading w;
     instances := instances w;
     pendingLoads := firstn k (pendingLoads w) ++ skipn (S k) (pendingLoads w);
     loadsStarted := loadsStarted w; console := console w |}.

  (** What can happen: a component renders for the first time; the mount
      effect of component [i] runs; the [k]-th suspended load resumes,
      succeeded or failed. *)
Inductive Event : Type :=
| Render
| MountEffect (i : nat)
| LoadResolved (k : nat)
| LoadRejected (k : nat).

Definition step (w : World) (e : Event) : World :=
  match e with
  | Render => render w
  | MountEffect i =>
      if (i <? List.length (instances w))%nat then loadModels i w else w
  | LoadResolved k =>
      match nth_error (pendingLoads w) k with
      | Some i => loadModelsResolved i (withoutPending k w)
      | None => w
      end
  | LoadRejected k =>
      match nth_error (pendingLoads w) k with
      | Some i => loadModelsRejected i (withoutPending k w)
      | None => w
      end
  end.

Definition run (events : list Event) (w : World) : World :=
  fold_left step events w.

  (** What the loader keeps true: the loading flag is up exactly while one
      load is suspended, never more than one is, the flags are never both
      up, and a component says loaded only when the models are. *)
Definition consistent (w : World) : Prop :=
  (List.length (pendingLoads w) <= 1)%nat
  /\ (modelsLoading w = true <-> pendingLoads w <> [])
  /\ (modelsLoaded w = true -> modelsLoading w = false)
  /\ (forall inst, In inst (instances w) ->
        isModelLoaded inst = true -> modelsLoaded w = true).

End Face.

(** What component [i] reports as [isModelLoaded], if it exists. *)
Definition reportsLoaded (w : Face.World) (i : nat) : option bool :=
  option_map Face.isModelLoaded (nth_error (Face.instances w) i).

(** A world reached from the start by a sequence of events. *)
Definition faceReachable (w : Face.World) : Prop :=
  exists events, w = Face.run events Face.initialWorld.

(** Two components, the first with its load of the models in flight. *)
Definition loadingWorld : Face.World :=
  Face.run [Face.Render; Face.Render; Face.MountEffect 0] Face.initialWorld.

(** The [isLoading] cell of one component and the calls of [detectFaces]
    on it that are suspended at one of their awaits. *)
Record DetectState : Type := mkDetectState {
  loadingFlag : bool;
  inFlight : nat
}.

(** A call of [detectFaces] starts, [modelsLoaded] being [loaded] at that
    moment (lines 95 to 100 of the hook: the early return, or
    [setIsLoading(true)]); a suspended call runs to its end, by its [try]
    or its [catch] block, both of which end in [setIsLoading(false)]. *)
Inductive DetectEvent : Type :=
| DetectStart (loaded : bool)
| DetectEnd.

Definition detectStep (s : DetectState) (e : DetectEvent) : DetectState :=
  match e with
  | DetectStart loaded =>
      if negb loaded then s
      else {| loadingFlag := true; inFlight := S (inFlight s) |}
  | DetectEnd =>
      match inFlight s with
      | O => s
      | S n => {| loadingFlag := false; inFlight := n |}
      end
  end.

Definition detectRun (events : list DetectEvent) : DetectState :=
  fold_left detectStep events {| loadingFlag := false; inFlight := 0 |}.

(* ================================================================== *)
(** ** [TwitterPostModal.tsx]: the post-to-X modal *)
(* ================================================================== *)

(** The text of the tweet is counted and trimmed by UTF-16 code unit, as
    JavaScript does: a text is the list of its code units. *)
Module Text.

Definition CodeUnit : Type := N.

Definition text : Type := list CodeUnit.

  (** The code units [String.prototype.trim] strips: white space and line
      terminators of ECMAScript. *)
Definition isWhiteSpace (c : CodeUnit) : bool :=
  ((c =? 9) || (c =? 10) || (c =? 11) || (c =? 12) || (c =? 13) || (c =? 32)
   || (c =? 160) || (c =? 5760) || ((8192 <=? c) && (c <=? 8202))
   || (c =? 8232) || (c =? 8233) || (c =? 8239) || (c =? 8287)
   || (c =? 12288) || (c =? 65279))%N.

Fixpoint trimStart (t : text) : text :=
  match t with
  | [] => []
  | c :: rest => if isWhiteSpace c then trimStart rest else t
  end.

Definition trimEnd (t : text) : text := rev (trimStart (rev t)).

  (** [String.prototype.trim]. *)
Definition trim (t : text) : text := trimEnd (trimStart t).

  (** [String.prototype.length]. *)
Definition length (t : text) : Z := Z.of_nat (List.length t).

  (** Truthiness of a string: it is not empty. *)
Definition truthy (t : text) : bool :=
  match t with
  | [] => false
  | _ => true
  end.

End Text.

Module Storage.

  (** [localStorage], as the list of its entries. *)
Definition t : Type := list (string * string).

Definition getItem (key : string) (s : t) : option string :=
  option_map snd (List.find (fun entry => (fst entry =? key)%string) s).

Definition removeItem (key : string) (s : t) : t :=
  List.filter (fun entry => negb (fst entry =? key)%string) s.

Definition setItem (key value : string) (s : t) : t :=
  (key, value) :: removeItem key s.

End Storage.

Module Twitter.

Inductive PostStatus : Type := idle | authenticating | posting | success | error.

Inductive MediaType : Type := image | video.

Record TwitterUser : Type := mkTwitterUser {
  id : string;
  username : string;
  name : string
}.

  (** The [useState] cells of the component. *)
Record State : Type := mkState {
  tweetText : Text.text;
  status : PostStatus;
  errorText : option string;
  tweetUrl : option string;
  user : option TwitterUser;
  sessionId : option string
}.

  (** The props the handlers read. *)
Record Props : Type := mkProps {
  mediaUrl : option string;
  mediaType : MediaType
}.

  (** The body and session header of a request to [/api/twitter/post]. *)
Record PostRequest : Type := mkPostRequest {
  session : string;
  text : Text.text;
  media : option (string * MediaType)
}.

  (** The component in its surroundings: its state, [localStorage], the
      post requests it has sent and the sessions it has asked the status
      of, oldest first. *)
Record World : Type := mkWorld {
  state : State;
  localStorage : Storage.t;
  posts : list PostRequest;
  statusChecks : list string
}.

Definition TWITTER_SESSION_KEY : string := "twitter_session_id".

Definition MAX_CHARS : Z := 280.

Definition charsRemaining (s : State) : Z := MAX_CHARS - Text.length (tweetText s).

Definition isOverLimit (s : State) : bool := (charsRemaining s <? 0)%Z.

  (** Truthiness of an optional string: present and not empty. *)
Definition present (o : option string) : bool :=
  match o with
  | Some s => negb (s =? "")%string
  | None => false
  end.

  (** The state at the first rendering. *)
Definition initialState : State :=
  {| tweetText := []; status := idle; errorText := None; tweetUrl := None;
     user := None; sessionId := None |}.

  (** The component as it is mounted, over what [localStorage] holds. *)
Definition initialWorld (stored : Storage.t) : World :=
  {| state := initialState; localStorage := stored; posts := []; statusChecks := [] |}.

  (** The effect of lines 71 to 81, [isOpen] being true: the stored session,
      if there is one, becomes the session and its status is asked for.  The
      focus it gives to the text area is left out. *)
Definition openEffect (w : World) : World :=
  match Storage.getItem TWITTER_SESSION_KEY (localStorage w) with
  | Some storedSession =>
      if negb (storedSession =? "")%string then
        {| state := {| tweetText := tweetText (state w); status := status (state w);
                       errorText := errorText (state w); tweetUrl := tweetUrl (state w);
                       user := user (state w); sessionId := Some storedSession |};
           localStorage := localStorage w; posts := posts w;
           statusChecks := statusChecks w ++ [storedSession] |}
      else w
  | None => w
  end.

  (** The effect of lines 84 to 91, [isOpen] being false. *)
Definition closeEffect (w : World) : World :=
  {| state := {| tweetText := []; status := idle; errorText := None; tweetUrl := None;
                 user := user (state w); sessionId := sessionId (state w) |};
     localStorage := localStorage w; posts := posts w;
     statusChecks := statusChecks w |}.

  (** The [data] of a window message, as far as [handleMessage] reads it. *)
Inductive MessageData : Type :=
| AuthSuccess (newSessionId : string) (newUser : TwitterUser)
| AuthError (message : option string)
| OtherMessage.

  (** [handleMessage]. *)
Definition handleMessage (data : MessageData) (w : World) : World :=
  match data with
  | AuthSuccess newSessionId newUser =>
      {| state := {| tweetText := tweetText (state w); status := idle;
                     errorText := None; tweetUrl := tweetUrl (state w);
                     user := Some newUser; sessionId := Some newSessionId |};
         localStorage := Storage.setItem TWITTER_SESSION_KEY newSessionId (localStorage w);
         posts := posts w; statusChecks := statusChecks w |}
  | AuthError message =>
      {| state := {| tweetText := tweetText (state w); status := error;
                     errorText := Some (JS.orElse message "Authentication failed");
                     tweetUrl := tweetUrl (state w);
                     user := user (state w); sessionId := sessionId (state w) |};
         localStorage := localStorage w; posts := posts w;
         statusChecks := statusChecks w |}
  | OtherMessage => w
  end.

  (** How the request of [checkAuthStatus] can end: it throws, or it
      answers with [authenticated] and a user or without. *)
Inductive StatusAnswer : Type :=
| StatusThrew
| StatusAuthenticated (u : TwitterUser)
| StatusExpired.

  (** [checkAuthStatus] from its awaits on. *)
Definition checkAuthStatusAnswered (answer : StatusAnswer) (w : World) : World :=
  match answer with
  | StatusThrew => w
  | StatusAuthenticated u =>
      {| state := {| tweetText := tweetText (state w); status := status (state w);
                     errorText := errorText (state w); tweetUrl := tweetUrl (state w);
                     user := Some u; sessionId := sessionId (state w) |};
         localStorage := localStorage w; posts := posts w;
         statusChecks := statusChecks w |}
  | StatusExpired =>
      {| state := {| tweetText := tweetText (state w); status := status (state w);
                     errorText := errorText (state w); tweetUrl := tweetUrl (state w);
                     user := None; sessionId := None |};
         localStorage := Storage.removeItem TWITTER_SESSION_KEY (localStorage w);
         posts := posts w; statusChecks := statusChecks w |}
  end.

  (** [handleLogout] from its await on (the request to the server is made
      only with a session, and its failure is only logged). *)
Definition handleLogoutSettled (w : World) : World :=
  {| state := {| tweetText := tweetText (state w); status := status (state w);
                 errorText := errorText (state w); tweetUrl := tweetUrl (state w);
                 user := None; sessionId := None |};
     localStorage := Storage.removeItem TWITTER_SESSION_KEY (localStorage w);
     posts := posts w; statusChecks := statusChecks w |}.

  (** [handlePost(skipMedia)] up to its [fetch], as the handler of the latest
      rendering: the state and props it closes over are the current ones. *)
Definition handlePost (props : Props) (skipMedia : bool) (w : World) : World :=
  let s := state w in
  if negb (present (sessionId s)) || isOverLimit s then w
  else if negb skipMedia && negb (present (mediaUrl props)) then w
  else if negb (Text.truthy (Text.trim (tweetText s))) then
    {| state := {| tweetText := tweetText s; status := status s;
                   errorText := Some "Please enter some text for your post";
                   tweetUrl := tweetUrl s; user := user s; sessionId := sessionId s |};
       localStorage := localStorage w; posts := posts w;
       statusChecks := statusChecks w |}
  else
    let body : PostRequest :=
      {| session := match sessionId s with Some i => i | None => "" end;
         text := Text.trim (tweetText s);
         media := if negb skipMedia && present (mediaUrl props)
                  then match mediaUrl props with
                       | Some url => Some (url, mediaType props)
                       | None => None
                       end
                  else None |} in
    {| state := {| tweetText := tweetText s; status := posting; errorText := None;
                   tweetUrl := tweetUrl s; user := user s; sessionId := sessionId s |};
       localStorage := localStorage w; posts := posts w ++ [body];
       statusChecks := statusChecks w |}.

  (** How the request of [handlePost] can end: the fetch or the parsing of
      the answer throws an error with a message, or the server answers, with
      [response.ok] or not, and with the [error] and [tweetUrl] of the data. *)
Inductive PostAnswer : Type :=
| PostThrew (message : string)
| PostResponded (ok : bool) (error : option string) (url : option string).

  (** [handlePost] from its awaits on. *)
Definition handlePostAnswered (answer : PostAnswer) (w : World) : World :=
  let s := state w in
  let failed (message : string) : World :=
    {| state := {| tweetText := tweetText s; status := error;
                   errorText := Some (JS.orElse (Some message) "Failed to post tweet");
                   tweetUrl := tweetUrl s; user := user s; sessionId := sessionId s |};
       localStorage := localStorage w; posts := posts w;
       statusChecks := statusChecks w |} in
  match answer with
  | PostThrew message => failed message
  | PostResponded ok err url =>
      if negb ok then failed (JS.orElse err "Failed to post tweet")
      else
        {| state := {| tweetText := tweetText s; status := success;
                       errorText := errorText s; tweetUrl := url;
                       user := user s; sessionId := sessionId s |};
           localStorage := localStorage w; posts := posts w;
           statusChecks := statusChecks w |}
  end.

  (** The [onChange] of the textarea. *)
Definition setTweetText (t : Text.text) (w : World) : World :=
  {| state := {| tweetText := t; status := status (state w);
                 errorText := errorText (state w); tweetUrl := tweetUrl (state w);
                 user := user (state w); sessionId := sessionId (state w) |};
     localStorage := localStorage w; posts := posts w;
     statusChecks := statusChecks w |}.

  (** Whether a key press asks the parent to close the modal
      ([handleKeyDown]), and whether a click on the overlay does (line 246). *)
Definition keyDownCloses (key : string) : bool := (key =? "Escape")%string.

Definition overlayClickCloses (targetIsOverlay : bool) (s : State) : bool :=
  targetIsOverlay
  && match status s with posting => false | _ => true end.

  (** The [disabled] of the two post buttons (lines 420 and 428). *)
Definition textOnlyDisabled (s : State) : bool :=
  match status s with posting => true | _ => false end
  || isOverLimit s || negb (Text.truthy (Text.trim (tweetText s))).

Definition postDisabled (props : Props) (s : State) : bool :=
  match status s with posting => true | _ => false end
  || isOverLimit s || negb (present (mediaUrl props))
  || negb (Text.truthy (Text.trim (tweetText s))).

  (** [fullMediaUrl] (lines 239 to 241); a null [mediaUrl] is rendered as
      the text null by the template. *)
Definition fullMediaUrl (props : Props) : string :=
  match mediaUrl props with
  | Some url => if JS.startsWith url "http" then url else "http://localhost:3001" ++ url
  | None => "http://localhost:3001" ++ "null"
  end.

  (** How the request of [handleLogin] can end: it throws an error with a
      message, or the server answers, with [response.ok] or not and with the
      [error] of the data, and [window.open] gives a popup or none. *)
Inductive LoginAnswer : Type :=
| LoginThrew (message : string)
| LoginResponded (ok : bool) (error : option string) (popupOpened : bool).

  (** [handleLogin] up to its [fetch]. *)
Definition handleLogin (w : World) : World :=
  {| state := {| tweetText := tweetText (state w); status := authenticating;
                 errorText := None; tweetUrl := tweetUrl (state w);
                 user := user (state w); sessionId := sessionId (state w) |};
     localStorage := localStorage w; posts := posts w;
     statusChecks := statusChecks w |}.

  (** [handleLogin] from its awaits on. *)
Definition handleLoginAnswered (answer : LoginAnswer) (w : World) : World :=
  let s := state w in
  let failed (message : string) : World :=
    {| state := {| tweetText := tweetText s; status := error;
                   errorText := Some (JS.orElse (Some message) "Failed to start authentication");
                   tweetUrl := tweetUrl s; user := user s; sessionId := sessionId s |};
       localStorage := localStorage w; posts := posts w;
       statusChecks := statusChecks w |} in
  match answer with
  | LoginThrew message => failed message
  | LoginResponded ok err popupOpened =>
      if negb ok then failed (JS.orElse err "Failed to start authentication")
      else if negb popupOpened
      then failed "Popup blocked. Please allow popups for this site."
      else w
  end.

  (** The [onClick] of the button Try again (lines 361 to 364). *)
Definition tryAgain (w : World) : World :=
  {| state := {| tweetText := tweetText (state w); status := idle;
                 errorText := None; tweetUrl := tweetUrl (state w);
                 user := user (state w); sessionId := sessionId (state w) |};
     localStorage := localStorage w; posts := posts w;
     statusChecks := statusChecks w |}.

  (** What can happen to the mounted component, one rendering after the
      other: its two effects on [isOpen], a window message, the user's
      actions and the answers to its requests. *)
Inductive Event : Type :=
| Opened
| Closed
| Messaged (data : MessageData)
| StatusAnswered (answer : StatusAnswer)
| Typed (t : Text.text)
| LoginClicked
| LoginAnswered (answer : LoginAnswer)
| LogoutSettled
| PostClicked (skipMedia : bool)
| PostAnswered (answer : PostAnswer)
| TryAgainClicked.

Definition step (props : Props) (e : Event) (w : World) : World :=
  match e with
  | Opened => openEffect w
  | Closed => closeEffect w
  | Messaged data => handleMessage data w
  | StatusAnswered answer => checkAuthStatusAnswered answer w
  | Typed t => setTweetText t w
  | LoginClicked => handleLogin w
  | LoginAnswered answer => handleLoginAnswered answer w
  | LogoutSettled => handleLogoutSettled w
  | PostClicked skipMedia => handlePost props skipMedia w
  | PostAnswered answer => handlePostAnswered answer w
  | TryAgainClicked => tryAgain w
  end.

Definition run (props : Props) (events : list Event) (w : World) : World :=
  fold_left (fun acc e => step props e acc) events w.

End Twitter.

(** The session of the state, when there is one, is the stored one. *)
Definition sessionHeld (w : Twitter.World) : Prop :=
  Twitter.sessionId (Twitter.state w) = None
  \/ Twitter.sessionId (Twitter.state w)
     = Storage.getItem Twitter.TWITTER_SESSION_KEY (Twitter.localStorage w).

(** Signed out: no session in the state and none stored. *)
Definition signedOut (w : Twitter.World) : Prop :=
  Twitter.sessionId (Twitter.state w) = None
  /\ Storage.getItem Twitter.TWITTER_SESSION_KEY (Twitter.localStorage w) = None.

(** The events other than the message of a successful login. *)
Definition isNoLogin (e : Twitter.Event) : bool :=
  match e with
  | Twitter.Messaged (Twitter.AuthSuccess _ _) => false
  | _ => true
  end.

(** A world of the modal for the examples: a user of the stored session
    [abc] has typed a greeting with a space on either side. *)
Definition helloText : Text.text := [32; 104; 105; 32]%N.

Definition exampleUser : Twitter.TwitterUser :=
  {| Twitter.id := "1"; Twitter.username := "ann"; Twitter.name := "Ann" |}.

Definition exampleModal : Twitter.World :=
  {| Twitter.state :=
       {| Twitter.tweetText := helloText; Twitter.status := Twitter.idle;
          Twitter.errorText := None; Twitter.tweetUrl := None;
          Twitter.user := Some exampleUser; Twitter.sessionId := Some "abc" |};
     Twitter.localStorage := [(Twitter.TWITTER_SESSION_KEY, "abc")];
     Twitter.posts := []; Twitter.statusChecks := ["abc"] |}.

Definition exampleProps : Twitter.Props :=
  {| Twitter.mediaUrl := Some "/library/cat.png"; Twitter.mediaType := Twitter.image |}.

(* ================================================================== *)
(** ** [ChangeAnglePanel.tsx]: the sliders and the cube *)
(* ================================================================== *)

Module Panel.

Definition DEFAULT_SETTINGS : AngleSettings :=
  {| rotation := 0; tilt := 0; scale := 0; wideAngle := false |}.




  (** [Cube3DPreview]: the perspective in pixels and the factor of the
      cube's [scale(...)]. *)
Definition perspective (wideAngle : bool) : Z := if wideAngle then 200 else 400.


End Panel.


(* ================================================================== *)
(** ** Properties of the prompt builder *)
(* ================================================================== *)

(** A rendered number never starts with the letter of "slightly". *)
Lemma toString_head (n : Z) :
  exists c t, JS.toString n = String c t /\ c <> "s"%char.
Proof.
  destruct n as [|p|p]; simpl.
  - eexists; eexists; split; [reflexivity | discriminate].
  - destruct (Pos.to_uint p); simpl;
      (eexists; eexists; split; [reflexivity | discriminate]).
  - eexists; eexists; split; [reflexivity | discriminate].
Qed.

Lemma rotateRight_not_closerSlight (d : Z) : rotateRight d <> closerSlight.
Proof.
  unfold rotateRight, closerSlight.
  destruct (toString_head d) as (c & t & E & Hc). rewrite E. simpl.
  intro H. injection H as H _. apply Hc. exact H.
Qed.

Lemma rotateLeft_not_closerSlight (d : Z) : rotateLeft d <> closerSlight.
Proof.
  unfold rotateLeft, closerSlight.
  destruct (toString_head d) as (c & t & E & Hc). rewrite E. simpl.
  intro H. injection H as H _. apply Hc. exact H.
Qed.

Lemma append_inj_l (p a b : string) : p ++ a = p ++ b -> a = b.
Proof.
  induction p as [|c p IH]; simpl; intro H.
  - exact H.
  - injection H as H. auto.
Qed.

(** The array built by the code holds the directives of the
    specification, in the same order. *)
Lemma anglePromptParts_synthesis (s : AngleSettings) :
  anglePromptParts s = synthesisDirectives s.
Proof.
  unfold anglePromptParts, synthesisDirectives, JS.push, JS.abs.
  fold preamble keepUpright closerTight closerSlight wideAngleLens.
  destruct s as [r t sc wa]; cbn [rotation tilt scale wideAngle].
  rewrite !Z.gtb_ltb.
  destruct (r =? 0)%Z, (0 <? r)%Z, (t =? 0)%Z, (0 <? t)%Z;
    cbn [negb];
    destruct (50 <? sc)%Z eqn:E50, (0 <? sc)%Z eqn:E0, wa;
    try (apply Z.ltb_ge in E50; apply Z.leb_le in E50; rewrite E50);
    try (apply Z.ltb_lt in E50; apply Z.ltb_lt in E0);
    cbn [andb app]; reflexivity.
Qed.

Lemma digits_avoid (c : ascii) (u : Decimal.uint) :
  (nat_of_ascii c < 48 \/ 57 < nat_of_ascii c)%nat ->
  Forall (fun a => a <> c) (list_ascii_of_string (NilEmpty.string_of_uint u)).
Proof.
  intro Hc.
  induction u as [|u IH|u IH|u IH|u IH|u IH|u IH|u IH|u IH|u IH|u IH]; simpl.
  all: constructor; try exact IH.
  all: intro E; subst c; vm_compute in Hc; lia.
Qed.

Lemma toString_avoids (c : ascii) (n : Z) :
  (nat_of_ascii c < 45 \/ 57 < nat_of_ascii c)%nat ->
  Forall (fun a => a <> c) (list_ascii_of_string (JS.toString n)).
Proof.
  intro Hc.
  assert (Hd : forall u, Forall (fun a => a <> c)
                 (list_ascii_of_string (NilZero.string_of_uint u))).
  { intro u. destruct u; try (apply digits_avoid; lia).
    simpl. constructor; auto. intro E; subst c; vm_compute in Hc; lia. }
  destruct n as [|p|p]; simpl.
  - constructor; auto. intro E; subst c; vm_compute in Hc; lia.
  - apply Hd.
  - constructor; [intro E; subst c; vm_compute in Hc; lia | apply Hd].
Qed.

Lemma append_delimited (c : ascii) (a b u v : string) :
  Forall (fun k => k <> c) (list_ascii_of_string a) ->
  Forall (fun k => k <> c) (list_ascii_of_string b) ->
  a ++ String c u = b ++ String c v -> a = b /\ u = v.
Proof.
  revert b. induction a as [|k a IH]; intros [|l b] Ha Hb H; simpl in *.
  - injection H as H. auto.
  - injection H as H1 H2. inversion Hb; subst. congruence.
  - injection H as H1 H2. inversion Ha; subst. congruence.
  - injection H as H1 H2. inversion Ha; inversion Hb; subst.
    destruct (IH b) as [E1 E2]; auto. subst. auto.
Qed.

Lemma rotateRight_not_rotateLeft (d e : Z) : rotateRight d <> rotateLeft e.
Proof.
  unfold rotateRight, rotateLeft. intro H.
  apply append_inj_l in H. simpl in H.
  apply append_delimited in H; try (apply toString_avoids; vm_compute; lia).
  destruct H as [_ H]. discriminate H.
Qed.

Lemma in_synthesisDirectives (d : string) (s : AngleSettings) :
  In d (synthesisDirectives s) <->
  d = preamble
  \/ ((0 < rotation s)%Z /\ d = rotateRight (Z.abs (rotation s)))
  \/ ((rotation s < 0)%Z /\ d = rotateLeft (Z.abs (rotation s)))
  \/ ((0 < tilt s)%Z /\ d = tiltUp (Z.abs (tilt s)))
  \/ ((tilt s < 0)%Z /\ d = tiltDown (Z.abs (tilt s)))
  \/ ((50 < scale s)%Z /\ d = closerTight)
  \/ ((0 < scale s <= 50)%Z /\ d = closerSlight)
  \/ (wideAngle s = true /\ d = wideAngleLens)
  \/ d = keepUpright.
Proof.
  unfold synthesisDirectives. rewrite !in_app_iff.
  assert (R : In d (if (rotation s =? 0)%Z then []
                    else if (0 <? rotation s)%Z then [rotateRight (Z.abs (rotation s))]
                    else [rotateLeft (Z.abs (rotation s))]) <->
              ((0 < rotation s)%Z /\ d = rotateRight (Z.abs (rotation s)))
              \/ ((rotation s < 0)%Z /\ d = rotateLeft (Z.abs (rotation s)))).
  { destruct (Z.eqb_spec (rotation s) 0); [|destruct (Z.ltb_spec 0 (rotation s))];
      simpl; intuition (try lia; auto). }
  assert (T : In d (if (tilt s =? 0)%Z then []
                    else if (0 <? tilt s)%Z then [tiltUp (Z.abs (tilt s))]
                    else [tiltDown (Z.abs (tilt s))]) <->
              ((0 < tilt s)%Z /\ d = tiltUp (Z.abs (tilt s)))
              \/ ((tilt s < 0)%Z /\ d = tiltDown (Z.abs (tilt s)))).
  { destruct (Z.eqb_spec (tilt s) 0); [|destruct (Z.ltb_spec 0 (tilt s))];
      simpl; intuition (try lia; auto). }
  assert (C : In d (if (50 <? scale s)%Z then [closerTight]
                    else if (0 <? scale s)%Z && (scale s <=? 50)%Z then [closerSlight]
                    else []) <->
              ((50 < scale s)%Z /\ d = closerTight)
              \/ ((0 < scale s <= 50)%Z /\ d = closerSlight)).
  { destruct (Z.ltb_spec 50 (scale s)); [|destruct (Z.ltb_spec 0 (scale s));
      destruct (Z.leb_spec (scale s) 50)]; simpl; intuition (try lia; auto). }
  assert (W : In d (if wideAngle s then [wideAngleLens] else []) <->
              (wideAngle s = true /\ d = wideAngleLens)).
  { destruct (wideAngle s); simpl; intuition (try discriminate; auto). }
  rewrite R, T, C, W. simpl. intuition auto.
Qed.

Ltac head_differs :=
  let H := fresh in
  intro H;
  unfold preamble, rotateRight, rotateLeft, tiltUp, tiltDown, closerTight,
    closerSlight, wideAngleLens, keepUpright in H;
  cbn [append] in H; discriminate H.

Ltac directive_clash :=
  match goal with
  | H : rotateRight _ = rotateLeft _ |- _ => exfalso; exact (rotateRight_not_rotateLeft _ _ H)
  | H : rotateLeft _ = rotateRight _ |- _ =>
      exfalso; exact (rotateRight_not_rotateLeft _ _ (eq_sym H))
  | H : rotateRight _ = closerSlight |- _ => exfalso; exact (rotateRight_not_closerSlight _ H)
  | H : rotateLeft _ = closerSlight |- _ => exfalso; exact (rotateLeft_not_closerSlight _ H)
  | H : closerSlight = rotateRight _ |- _ =>
      exfalso; exact (rotateRight_not_closerSlight _ (eq_sym H))
  | H : closerSlight = rotateLeft _ |- _ =>
      exfalso; exact (rotateLeft_not_closerSlight _ (eq_sym H))
  | H : ?a = ?b |- _ => revert H; head_differs
  end.

(** The text of the prompt, written out. *)
Lemma append_assoc (a b c : string) : (a ++ b) ++ c = a ++ (b ++ c).
Proof. induction a as [|k a IH]; cbn; [reflexivity | rewrite IH; reflexivity]. Qed.

Lemma buildAnglePrompt_text (s : AngleSettings) : buildAnglePrompt s = promptText s.
Proof.
  unfold buildAnglePrompt. rewrite anglePromptParts_synthesis.
  unfold synthesisDirectives, promptText, rotationSuffix, tiltSuffix, scaleSuffix,
    wideSuffix, scaleBucket, JS.join.
  destruct s as [r t sc wa]; cbn [rotation tilt scale wideAngle].
  rewrite !Z.gtb_ltb.
  destruct (r =? 0)%Z, (0 <? r)%Z, (t =? 0)%Z, (0 <? t)%Z;
    destruct (50 <? sc)%Z eqn:E50, (0 <? sc)%Z eqn:E0, wa;
    try (apply Z.ltb_ge in E50; apply Z.leb_le in E50; rewrite E50);
    cbn [andb app String.concat]; reflexivity.
Qed.

(** C2. [buildAnglePrompt] is a function of the angle settings, defined on
    all of them.  The string it returns is the text written out below: the
    directives of the synthesis algorithm in the order of emission, each
    but the first after exactly one space and nothing else between, before
    or after them: the preamble first,
    always; a rotation directive exactly when the rotation is not 0, to
    the right (clockwise) for a positive and to the left
    (counter-clockwise) for a negative rotation, by its absolute value; a
    tilt directive exactly when the tilt is not 0, raising (looking down)
    for a positive and lowering (looking up) for a negative tilt, by its
    absolute value; the tighter-frame directive exactly when the scale is
    above 50, the slightly-closer directive exactly when it is above 0 and
    at most 50, neither at 0; the wide-angle directive exactly when
    [wideAngle] is set; the orientation sentence last, always. *)
Theorem buildAnglePrompt_synthesis (s : AngleSettings) :
  buildAnglePrompt s
  = preamble
    ++ (if (rotation s =? 0)%Z then ""
        else " " ++ (if (0 <? rotation s)%Z then rotateRight (Z.abs (rotation s))
                     else rotateLeft (Z.abs (rotation s))))
    ++ (if (tilt s =? 0)%Z then ""
        else " " ++ (if (0 <? tilt s)%Z then tiltUp (Z.abs (tilt s))
                     else tiltDown (Z.abs (tilt s))))
    ++ (if (50 <? scale s)%Z then " " ++ closerTight
        else if (0 <? scale s)%Z then " " ++ closerSlight
        else "")
    ++ (if wideAngle s then " " ++ wideAngleLens else "")
    ++ " " ++ keepUpright
  /\ buildAnglePrompt s = promptSynthesis s
  /\ anglePromptParts s = synthesisDirectives s
  /\ hd_error (anglePromptParts s) = Some preamble
  /\ last (anglePromptParts s) "" = keepUpright
  /\ ((exists d, In (rotateRight d) (anglePromptParts s)
                 \/ In (rotateLeft d) (anglePromptParts s))
      <-> rotation s <> 0%Z)
  /\ (forall d, In (rotateRight d) (anglePromptParts s) <->
        (0 < rotation s)%Z /\ rotateRight d = rotateRight (Z.abs (rotation s)))
  /\ (forall d, In (rotateLeft d) (anglePromptParts s) <->
        (rotation s < 0)%Z /\ rotateLeft d = rotateLeft (Z.abs (rotation s)))
  /\ ((exists d, In (tiltUp d) (anglePromptParts s)
                 \/ In (tiltDown d) (anglePromptParts s))
      <-> tilt s <> 0%Z)
  /\ (forall d, In (tiltUp d) (anglePromptParts s) <->
        (0 < tilt s)%Z /\ tiltUp d = tiltUp (Z.abs (tilt s)))
  /\ (forall d, In (tiltDown d) (anglePromptParts s) <->
        (tilt s < 0)%Z /\ tiltDown d = tiltDown (Z.abs (tilt s)))
  /\ (In closerTight (anglePromptParts s) <-> (50 < scale s)%Z)
  /\ (In closerSlight (anglePromptParts s) <-> (0 < scale s <= 50)%Z)
  /\ (scale s = 0%Z ->
      ~ In closerTight (anglePromptParts s) /\ ~ In closerSlight (anglePromptParts s))
  /\ (In wideAngleLens (anglePromptParts s) <-> wideAngle s = true).
Proof.
  split.
  { unfold buildAnglePrompt. rewrite anglePromptParts_synthesis.
    unfold synthesisDirectives, JS.join.
    destruct s as [r t sc wa]; cbn [rotation tilt scale wideAngle].
    destruct (r =? 0)%Z, (0 <? r)%Z, (t =? 0)%Z, (0 <? t)%Z;
      destruct (50 <? sc)%Z eqn:E50, (0 <? sc)%Z eqn:E0, wa;
      try (apply Z.ltb_ge in E50; apply Z.leb_le in E50; rewrite E50);
      cbn [andb app String.concat append]; reflexivity. }
  unfold buildAnglePrompt, promptSynthesis.
  rewrite anglePromptParts_synthesis.
  assert (RR : forall d, In (rotateRight d) (synthesisDirectives s) <->
             (0 < rotation s)%Z /\ rotateRight d = rotateRight (Z.abs (rotation s))).
  { intro d. rewrite in_synthesisDirectives.
    intuition (try lia; try congruence; try directive_clash). }
  assert (RL : forall d, In (rotateLeft d) (synthesisDirectives s) <->
             (rotation s < 0)%Z /\ rotateLeft d = rotateLeft (Z.abs (rotation s))).
  { intro d. rewrite in_synthesisDirectives.
    intuition (try lia; try congruence; try directive_clash). }
  assert (TU : forall d, In (tiltUp d) (synthesisDirectives s) <->
             (0 < tilt s)%Z /\ tiltUp d = tiltUp (Z.abs (tilt s))).
  { intro d. rewrite in_synthesisDirectives.
    intuition (try lia; try congruence; try directive_clash). }
  assert (TD : forall d, In (tiltDown d) (synthesisDirectives s) <->
             (tilt s < 0)%Z /\ tiltDown d = tiltDown (Z.abs (tilt s))).
  { intro d. rewrite in_synthesisDirectives.
    intuition (try lia; try congruence; try directive_clash). }
  assert (CT : In closerTight (synthesisDirectives s) <-> (50 < scale s)%Z).
  { rewrite in_synthesisDirectives.
    intuition (try lia; try congruence; try directive_clash). }
  assert (CS : In closerSlight (synthesisDirectives s) <-> (0 < scale s <= 50)%Z).
  { rewrite in_synthesisDirectives.
    intuition (try lia; try congruence; try directive_clash). }
  assert (WA : In wideAngleLens (synthesisDirectives s) <-> wideAngle s = true).
  { rewrite in_synthesisDirectives.
    intuition (try lia; try congruence; try directive_clash). }
  split; [reflexivity|]. split; [reflexivity|]. split; [reflexivity|].
  split.
  { unfold synthesisDirectives. rewrite !app_assoc. apply last_last. }
  split.
  { split.
    - intros [d [H|H]]; [apply RR in H | apply RL in H]; lia.
    - intro H. exists (Z.abs (rotation s)).
      destruct (Z.lt_total (rotation s) 0) as [L|[E|G]]; [right | contradiction | left].
      + apply RL. auto.
      + apply RR. auto. }
  split; [exact RR|]. split; [exact RL|].
  split.
  { split.
    - intros [d [H|H]]; [apply TU in H | apply TD in H]; lia.
    - intro H. exists (Z.abs (tilt s)).
      destruct (Z.lt_total (tilt s) 0) as [L|[E|G]]; [right | contradiction | left].
      + apply TD. auto.
      + apply TU. auto. }
  split; [exact TU|]. split; [exact TD|].
  split; [exact CT|]. split; [exact CS|].
  split; [|exact WA].
  intro E. rewrite CT, CS. lia.
Qed.

Lemma buildAnglePrompt_synthesis_witness :
  In (rotateLeft 30) (anglePromptParts settingsMixed)
  /\ In closerTight (anglePromptParts settingsMixed)
  /\ ~ In closerSlight (anglePromptParts settingsMixed).
Proof.
  destruct (buildAnglePrompt_synthesis settingsMixed)
    as (_ & _ & _ & _ & _ & _ & _ & HL & _ & _ & _ & HT & HS & _).
  split; [apply (HL 30%Z); split; reflexivity|].
  split; [apply HT; reflexivity|].
  intro H. apply HS in H. destruct H as [_ H]. apply H. reflexivity.
Defined.

(** C5. For [{rotation: 45, tilt: 0, scale: 0, wideAngle: false}] the prompt
    is the preamble, the directive to move 45 degrees to the right side
    (clockwise) and the orientation sentence, which ends it; it holds no
    tilt, scale or wide-angle directive.  For
    [{rotation: -30, tilt: 20, scale: 60, wideAngle: true}] the prompt holds,
    in this order, the preamble, the directive to move 30 degrees to the
    left (counter-clockwise), the directive to raise the camera by 20
    degrees looking down, the tighter-frame directive, the wide-angle
    directive and the orientation sentence. *)
Theorem buildAnglePrompt_examples :
  let p := buildAnglePrompt settingsRight45 in
  let q := buildAnglePrompt settingsMixed in
  p = preamble ++ " " ++ rotateRight 45 ++ " " ++ keepUpright
  /\ JS.includes p "Move the camera 45° to the right side of the subject, as if walking around them clockwise." = true
  /\ JS.includes p "Raise the camera viewpoint" = false
  /\ JS.includes p "Lower the camera viewpoint" = false
  /\ JS.includes p "looking slightly" = false
  /\ JS.includes p "closer" = false
  /\ JS.includes p "tighter frame" = false
  /\ JS.includes p "wide-angle" = false
  /\ JS.includes p "to the left side" = false
  /\ JS.endsWith p keepUpright = true
  /\ q = preamble ++ " " ++ rotateLeft 30 ++ " " ++ tiltUp 20 ++ " " ++ closerTight
         ++ " " ++ wideAngleLens ++ " " ++ keepUpright
  /\ occurInOrder q 0
       [ preamble;
         "Move the camera 30° to the left side of the subject, as if walking around them counter-clockwise.";
         "Raise the camera viewpoint 20° higher, looking slightly down at the subject.";
         "Position the camera closer to the subject for a tighter frame.";
         "Use wide-angle lens perspective with slight barrel distortion at edges.";
         keepUpright ] = true
  /\ JS.startsWith q preamble = true
  /\ JS.endsWith q keepUpright = true.
Proof.
  cbv zeta. repeat split; vm_compute; reflexivity.
Qed.

(* ================================================================== *)
(** ** Properties of the node derivations *)
(* ================================================================== *)

Section Lookup.

Variable store : list NodeData.
Variable nodeId : string.

Lemma names_id (src : NodeData) :
  names store nodeId src -> id src = nodeId.
Proof.
  unfold names, JS.find. intro H.
  apply find_some in H. destruct H as [_ H].
  apply String.eqb_eq. exact H.
Qed.

Lemma names_In (src : NodeData) :
  names store nodeId src -> In src store.
Proof.
  unfold names, JS.find. intro H. apply find_some in H. tauto.
Qed.

Lemma unnamed_find :
  ~ In nodeId (storeIds store) ->
  JS.find (fun n => (id n =? nodeId)%string) store = None.
Proof.
  unfold storeIds, JS.find. induction store as [|n rest IH]; simpl; intro H.
  - reflexivity.
  - destruct (String.eqb_spec (id n) nodeId) as [E|E].
    + exfalso. apply H. left. exact E.
    + apply IH. intro K. apply H. right. exact K.
Qed.

Lemma names_used (src : NodeData) :
  names store nodeId src -> In nodeId (storeIds store).
Proof.
  intro H. rewrite <- (names_id _ H).
  unfold storeIds. apply in_map. exact (names_In _ H).
Qed.

End Lookup.

(** The example canvas has a node under the id looked up, and the next
    identifier is not in use there. *)
Lemma exampleWorld_names : names (nodesState exampleWorld) "node-1" exampleNode.
Proof. reflexivity. Qed.

Lemma exampleWorld_fresh : freshUUID exampleWorld.
Proof. vm_compute. intros [H|[H|[]]]; discriminate H. Qed.

(* ================================================================== *)
(** ** The three derivations *)
(* ================================================================== *)

(** C1. For every world and every source id that names a node [src] of its
    store, [handleImageToImage] appends exactly one node [N] to the store,
    in one store update: an IMAGE node whose only parent is [src], at the
    height of [src] and at the abscissa the code computes, which is that
    of [src] plus 340 and then plus 100, each sum rounded as a double; with
    empty prompt, IDLE status and the default generation configuration
    (whatever that of [src] is); its id is whatever [crypto.randomUUID]
    returned, which the code does not compare with the store, so that it
    differs from every id of the store exactly when that identifier is not
    in use; and the selection becomes exactly [[N.id]]. *)
Theorem handleImageToImage_derives (w : World) (cb : option GenerateNodeCallback)
  (nodeId : string) (src : NodeData) :
  names (nodesState w) nodeId src ->
  let w' := exec (handleImageToImage (render w cb) nodeId) w in
  exists N : NodeData,
    nodesState w' = (nodesState w ++ [N])%list
    /\ commits w' = (commits w ++ [nodesState w'])%list
    /\ type N = IMAGE
    /\ parentIds N = Some [id src]
    /\ x N = (x src + 340 + 100)%float
    /\ y N = y src
    /\ prompt N = ""
    /\ status N = IDLE
    /\ model N = "Banana Pro"
    /\ imageModel N = None
    /\ aspectRatio N = Some "Auto"
    /\ resolution N = Some "Auto"
    /\ angleSettings N = None
    /\ angleMode N = None
    /\ id N = nextUUID w
    /\ (~ In (id N) (storeIds (nodesState w))
        <-> ~ In (nextUUID w) (storeIds (nodesState w)))
    /\ selectedState w' = [id N].
Proof.
  intros Hsrc w'.
  pose proof (names_id _ _ _ Hsrc) as Hid.
  unfold w', exec, handleImageToImage, render. cbn [nodes].
  unfold names in Hsrc. rewrite Hsrc.
  eexists. cbn.
  repeat split; try reflexivity; try (rewrite Hid; reflexivity); auto.
Qed.

Lemma handleImageToImage_derives_witness :
  names (nodesState exampleWorld) "node-1" exampleNode
  /\ exists N : NodeData,
       nodesState (exec (handleImageToImage (render exampleWorld None) "node-1")
                     exampleWorld)
       = [exampleNode; plainNode; N]
       /\ type N = IMAGE /\ parentIds N = Some ["node-1"] /\ x N = 560%float.
Proof.
  split; [exact exampleWorld_names|].
  destruct (handleImageToImage_derives exampleWorld None "node-1" exampleNode
              exampleWorld_names)
    as (N & Hst & _ & Hty & Hpar & Hx & _).
  exists N. split; [exact Hst|]. split; [exact Hty|]. split; [exact Hpar|].
  rewrite Hx. reflexivity.
Defined.

(** At [offGridWorld] the image derivation does not do what a sum of 440
    and a fresh identifier would: the node it adds sits at
    512.0799999999999, while the abscissa of the source plus 440 is 512.08,
    and it carries the id of the source, the one [crypto.randomUUID]
    returned. *)
Lemma handleImageToImage_counterexample :
  let w' := exec (handleImageToImage (render offGridWorld None) (id offGridNode))
              offGridWorld in
  names (nodesState offGridWorld) (id offGridNode) offGridNode
  /\ ~ (exists N : NodeData,
          nodesState w' = (nodesState offGridWorld ++ [N])%list
          /\ x N = (x offGridNode + 440)%float)
  /\ ~ (exists N : NodeData,
          nodesState w' = (nodesState offGridWorld ++ [N])%list
          /\ ~ In (id N) (storeIds (nodesState offGridWorld))).
Proof.
  cbv zeta. split; [reflexivity|]. split.
  - intros (N & E & Hx). cbn in E. injection E as <-. cbn in Hx.
    apply (f_equal (fun v => PrimFloat.eqb v 512.08%float)) in Hx.
    vm_compute in Hx. discriminate Hx.
  - intros (N & E & Hid). cbn in E. injection E as <-.
    apply Hid. left. reflexivity.
Qed.

(** C4. For every world and every source id that names a node [src] of its
    store, [handleImageToVideo] appends exactly one node [N] to the store,
    a VIDEO node, with the postconditions of the image derivation: its only
    parent is [src], it sits at the height of [src] and at the abscissa of
    [src] plus 340 and then plus 100, each sum rounded as a double; prompt
    empty, status IDLE, default configuration; its id is whatever
    [crypto.randomUUID] returned, different from every id of the store
    exactly when that identifier is not in use. *)
Theorem handleImageToVideo_derives (w : World) (cb : option GenerateNodeCallback)
  (nodeId : string) (src : NodeData) :
  names (nodesState w) nodeId src ->
  let w' := exec (handleImageToVideo (render w cb) nodeId) w in
  exists N : NodeData,
    nodesState w' = (nodesState w ++ [N])%list
    /\ commits w' = (commits w ++ [nodesState w'])%list
    /\ type N = VIDEO
    /\ parentIds N = Some [id src]
    /\ x N = (x src + 340 + 100)%float
    /\ y N = y src
    /\ prompt N = ""
    /\ status N = IDLE
    /\ model N = "Banana Pro"
    /\ imageModel N = None
    /\ aspectRatio N = Some "Auto"
    /\ resolution N = Some "Auto"
    /\ angleSettings N = None
    /\ angleMode N = None
    /\ id N = nextUUID w
    /\ (~ In (id N) (storeIds (nodesState w))
        <-> ~ In (nextUUID w) (storeIds (nodesState w)))
    /\ selectedState w' = [id N].
Proof.
  intros Hsrc w'.
  pose proof (names_id _ _ _ Hsrc) as Hid.
  unfold w', exec, handleImageToVideo, render. cbn [nodes].
  unfold names in Hsrc. rewrite Hsrc.
  eexists. cbn.
  repeat split; try reflexivity; try (rewrite Hid; reflexivity); auto.
Qed.

Lemma handleImageToVideo_derives_witness :
  names (nodesState exampleWorld) "node-1" exampleNode
  /\ exists N : NodeData,
       nodesState (exec (handleImageToVideo (render exampleWorld None) "node-1")
                     exampleWorld)
       = [exampleNode; plainNode; N]
       /\ type N = VIDEO /\ parentIds N = Some ["node-1"] /\ x N = 560%float.
Proof.
  split; [exact exampleWorld_names|].
  destruct (handleImageToVideo_derives exampleWorld None "node-1" exampleNode
              exampleWorld_names)
    as (N & Hst & _ & Hty & Hpar & Hx & _).
  exists N. split; [exact Hst|]. split; [exact Hty|]. split; [exact Hpar|].
  rewrite Hx. reflexivity.
Defined.

(** At [offGridWorld] the video derivation misses the sum of 440 and the
    fresh identifier in the same way: the VIDEO node it adds sits at
    512.0799999999999, not at 512.08, and carries the id of the source. *)
Lemma handleImageToVideo_counterexample :
  let w' := exec (handleImageToVideo (render offGridWorld None) (id offGridNode))
              offGridWorld in
  names (nodesState offGridWorld) (id offGridNode) offGridNode
  /\ ~ (exists N : NodeData,
          nodesState w' = (nodesState offGridWorld ++ [N])%list
          /\ type N = VIDEO
          /\ x N = (x offGridNode + 440)%float)
  /\ ~ (exists N : NodeData,
          nodesState w' = (nodesState offGridWorld ++ [N])%list
          /\ type N = VIDEO
          /\ ~ In (id N) (storeIds (nodesState offGridWorld))).
Proof.
  cbv zeta. split; [reflexivity|]. split.
  - intros (N & E & _ & Hx). cbn in E. injection E as <-. cbn in Hx.
    apply (f_equal (fun v => PrimFloat.eqb v 512.08%float)) in Hx.
    vm_compute in Hx. discriminate Hx.
  - intros (N & E & _ & Hid). cbn in E. injection E as <-.
    apply Hid. left. reflexivity.
Qed.

(** C6. A derivation called with a source id that names no node of the
    store changes nothing: the world after the call, node store and
    selection included, is the world before.  The same holds for the
    change-angle derivation when the node named has no angle settings. *)
Theorem derivation_without_source_is_noop (w : World)
  (cb : option GenerateNodeCallback) (nodeId : string) :
  (~ In nodeId (storeIds (nodesState w)) ->
     exec (handleImageToImage (render w cb) nodeId) w = w
     /\ exec (handleImageToVideo (render w cb) nodeId) w = w
     /\ exec (handleChangeAngleGenerate (render w cb) nodeId) w = w)
  /\ (forall src : NodeData,
        names (nodesState w) nodeId src ->
        angleSettings src = None ->
        exec (handleChangeAngleGenerate (render w cb) nodeId) w = w).
Proof.
  split.
  - intro H. apply unnamed_find in H.
    unfold handleImageToImage, handleImageToVideo, handleChangeAngleGenerate, render.
    cbn [nodes]. rewrite H. auto.
  - intros src Hsrc Hnone.
    unfold handleChangeAngleGenerate, render. cbn [nodes].
    unfold names in Hsrc. rewrite Hsrc, Hnone. reflexivity.
Qed.

Lemma derivation_without_source_is_noop_witness :
  ~ In "node-9" (storeIds (nodesState exampleWorld))
  /\ exec (handleImageToImage (render exampleWorld None) "node-9") exampleWorld
     = exampleWorld
  /\ names (nodesState exampleWorld) "node-2" plainNode
  /\ angleSettings plainNode = None
  /\ exec (handleChangeAngleGenerate (render exampleWorld None) "node-2") exampleWorld
     = exampleWorld.
Proof.
  assert (H : ~ In "node-9" (storeIds (nodesState exampleWorld)))
    by (cbn; intros [H|[H|[]]]; discriminate H).
  destruct (derivation_without_source_is_noop exampleWorld None "node-9") as [H1 _].
  destruct (derivation_without_source_is_noop exampleWorld None "node-2") as [_ H2].
  split; [exact H|]. split; [exact (proj1 (H1 H))|].
  split; [reflexivity|]. split; [reflexivity|].
  exact (H2 plainNode eq_refl eq_refl).
Defined.

(** C9. [handleImageToImage] and [handleImageToVideo] leave the nodes of the
    store as they are and in their order, the new node coming last.
    [handleChangeAngleGenerate] keeps every node at its position with all
    its properties but [angleMode], and leaves a node untouched unless the
    source id names it. *)
Theorem derivations_frame (w : World) (cb : option GenerateNodeCallback)
  (nodeId : string) (src : NodeData) :
  names (nodesState w) nodeId src ->
  (exists N, nodesState (exec (handleImageToImage (render w cb) nodeId) w)
             = (nodesState w ++ [N])%list)
  /\ (exists N, nodesState (exec (handleImageToVideo (render w cb) nodeId) w)
                = (nodesState w ++ [N])%list)
  /\ (forall (i : nat) (n : NodeData),
        nth_error (nodesState w) i = Some n ->
        exists n' : NodeData,
          nth_error
            (nodesState (exec (handleChangeAngleGenerate (render w cb) nodeId) w)) i
          = Some n'
          /\ id n' = id n /\ type n' = type n /\ x n' = x n /\ y n' = y n
          /\ prompt n' = prompt n /\ status n' = status n /\ model n' = model n
          /\ imageModel n' = imageModel n /\ aspectRatio n' = aspectRatio n
          /\ resolution n' = resolution n /\ parentIds n' = parentIds n
          /\ angleSettings n' = angleSettings n /\ rest n' = rest n
          /\ (id n <> nodeId -> n' = n)
          /\ (angleMode n' <> angleMode n -> id n = nodeId /\ angleMode n' = Some false)).
Proof.
  intro Hsrc. unfold names in Hsrc.
  split; [|split].
  - unfold exec, handleImageToImage, render. cbn [nodes]. rewrite Hsrc.
    eexists. reflexivity.
  - unfold exec, handleImageToVideo, render. cbn [nodes]. rewrite Hsrc.
    eexists. reflexivity.
  - intros i n Hn.
    unfold exec, handleChangeAngleGenerate, render. cbn [nodes]. rewrite Hsrc.
    destruct (angleSettings src) as [settings|].
    + assert (Hlt : (i < List.length (nodesState w))%nat)
        by (apply nth_error_Some; congruence).
      assert (Hnth : forall N0 tail,
                 nth_error
                   (JS.map (fun m => if (id m =? nodeId)%string
                                     then withAngleMode m false else m)
                      (nodesState w) ++ N0 :: tail) i
                 = Some (if (id n =? nodeId)%string then withAngleMode n false else n)).
      { intros N0 tail. unfold JS.map.
        rewrite nth_error_app1 by (rewrite length_map; exact Hlt).
        rewrite nth_error_map, Hn. reflexivity. }
      destruct cb; cbn -[buildAnglePrompt JS.orElse]; rewrite Hnth;
        (eexists; split; [reflexivity|]);
        destruct (String.eqb_spec (id n) nodeId) as [E|E]; cbn;
        repeat split; try reflexivity; try congruence; try tauto.
    + cbn. exists n. repeat split; try assumption; try reflexivity; try tauto.
Qed.

Lemma derivations_frame_witness :
  names (nodesState exampleWorld) "node-1" exampleNode
  /\ (exists N, nodesState (exec (handleImageToImage (render exampleWorld None) "node-1")
                             exampleWorld)
                = [exampleNode; plainNode; N])
  /\ exists n', nth_error
                  (nodesState (exec (handleChangeAngleGenerate (render exampleWorld None)
                                       "node-1") exampleWorld)) 1
                = Some n' /\ n' = plainNode.
Proof.
  destruct (derivations_frame exampleWorld None "node-1" exampleNode exampleWorld_names)
    as (H1 & _ & H3).
  split; [exact exampleWorld_names|]. split; [exact H1|].
  destruct (H3 1%nat plainNode eq_refl)
    as (n' & Hn & _ & _ & _ & _ & _ & _ & _ & _ & _ & _ & _ & _ & _ & H & _).
  exists n'. split; [exact Hn|].
  apply H. discriminate.
Defined.

(** Whether a generation callback was supplied makes no difference to the
    store, to its history or to the selection. *)
Lemma handleChangeAngleGenerate_store (w : World)
  (cb : option GenerateNodeCallback) (nodeId : string) :
  nodesState (exec (handleChangeAngleGenerate (render w cb) nodeId) w)
  = nodesState (exec (handleChangeAngleGenerate (render w None) nodeId) w)
  /\ commits (exec (handleChangeAngleGenerate (render w cb) nodeId) w)
     = commits (exec (handleChangeAngleGenerate (render w None) nodeId) w)
  /\ selectedState (exec (handleChangeAngleGenerate (render w cb) nodeId) w)
     = selectedState (exec (handleChangeAngleGenerate (render w None) nodeId) w).
Proof.
  unfold exec, handleChangeAngleGenerate, render. cbn [nodes onGenerateNode].
  destruct (JS.find _ (nodesState w)) as [src|]; [|auto].
  destruct (angleSettings src) as [settings|]; [|auto].
  destruct cb; auto.
Qed.

(** C3. For every world and every source id naming a node [src] that has
    angle settings, [handleChangeAngleGenerate] performs one store update,
    and the store it sets holds both changes at once: the nodes of the
    store with [angleMode] false on every node the source id names, and
    after them the new IMAGE node [N], with [src] as its only parent, the
    prompt synthesized from the settings of [src] (the text written out
    in [promptText], which is never empty), aspect ratio and resolution
    taken from [src] ('Auto' where [src] has none), image model
    'gemini-pro'.  The store takes no other value during the call, so
    none shows the child without its parent link or beside a source still
    in angle mode. *)
Theorem handleChangeAngleGenerate_atomic (w : World)
  (cb : option GenerateNodeCallback) (nodeId : string) (src : NodeData)
  (settings : AngleSettings) :
  names (nodesState w) nodeId src ->
  angleSettings src = Some settings ->
  let w' := exec (handleChangeAngleGenerate (render w cb) nodeId) w in
  exists (N : NodeData) (updated : list NodeData),
    commits w' = (commits w ++ [nodesState w'])%list
    /\ nodesState w' = (updated ++ [N])%list
    /\ updated = JS.map (fun n => if (id n =? nodeId)%string
                                  then withAngleMode n false else n) (nodesState w)
    /\ List.length updated = List.length (nodesState w)
    /\ In (withAngleMode src false) updated
    /\ (forall n, In n updated -> id n = id src -> angleMode n = Some false)
    /\ id N = nextUUID w
    /\ type N = IMAGE
    /\ parentIds N = Some [id src]
    /\ prompt N = buildAnglePrompt settings
    /\ prompt N = promptText settings
    /\ prompt N <> ""
    /\ x N = (x src + 340 + 100)%float
    /\ y N = y src
    /\ status N = IDLE
    /\ model N = "Banana Pro"
    /\ imageModel N = Some "gemini-pro"
    /\ (forall a, aspectRatio src = Some a -> a <> "" -> aspectRatio N = Some a)
    /\ (aspectRatio src = None \/ aspectRatio src = Some "" ->
        aspectRatio N = Some "Auto")
    /\ (forall r, resolution src = Some r -> r <> "" -> resolution N = Some r)
    /\ (resolution src = None \/ resolution src = Some "" ->
        resolution N = Some "Auto")
    /\ selectedState w' = [id N].
Proof.
  intros Hsrc Hset w'.
  pose proof (names_id _ _ _ Hsrc) as Hid.
  pose proof (names_In _ _ _ Hsrc) as Hin.
  destruct (handleChangeAngleGenerate_store w cb nodeId) as (En & Ec & Es).
  unfold w'. rewrite En, Ec, Es. clear En Ec Es.
  unfold exec, handleChangeAngleGenerate, render. cbn [nodes onGenerateNode].
  unfold names in Hsrc. rewrite Hsrc, Hset.
  cbn -[buildAnglePrompt JS.orElse JS.map].
  eexists. eexists.
  split; [reflexivity|]. split; [reflexivity|]. split; [reflexivity|].
  split. { unfold JS.map. apply length_map. }
  split.
  { unfold JS.map. apply in_map_iff. exists src. split; [|exact Hin].
    rewrite Hid, String.eqb_refl. reflexivity. }
  split.
  { intros n Hn En.
    unfold JS.map in Hn. apply in_map_iff in Hn. destruct Hn as (m & Em & _).
    destruct (String.eqb_spec (id m) nodeId) as [E|E]; subst n;
      [reflexivity | congruence]. }
  split; [reflexivity|]. split; [reflexivity|].
  split. { rewrite Hid. reflexivity. }
  split; [reflexivity|].
  split; [apply buildAnglePrompt_text|].
  split.
  { cbn [prompt]. rewrite buildAnglePrompt_text. unfold promptText, preamble.
    cbn [append]. discriminate. }
  split; [reflexivity|].
  split; [reflexivity|]. split; [reflexivity|]. split; [reflexivity|].
  split; [reflexivity|].
  cbn [aspectRatio resolution]. unfold JS.orElse.
  split.
  { intros a -> Ha. destruct (String.eqb_spec a ""); [contradiction | reflexivity]. }
  split. { intros [-> | ->]; reflexivity. }
  split.
  { intros r -> Hr. destruct (String.eqb_spec r ""); [contradiction | reflexivity]. }
  split. { intros [-> | ->]; reflexivity. }
  reflexivity.
Qed.

Lemma handleChangeAngleGenerate_atomic_witness :
  names (nodesState exampleWorld) "node-1" exampleNode
  /\ angleSettings exampleNode = Some settingsRight45
  /\ exists N : NodeData,
       In N (nodesState (exec (handleChangeAngleGenerate (render exampleWorld None)
                                 "node-1") exampleWorld))
       /\ prompt N = promptText settingsRight45
       /\ parentIds N = Some ["node-1"]
       /\ aspectRatio N = Some "16:9" /\ resolution N = Some "Auto".
Proof.
  split; [exact exampleWorld_names|]. split; [reflexivity|].
  destruct (handleChangeAngleGenerate_atomic exampleWorld None "node-1" exampleNode
              settingsRight45 exampleWorld_names eq_refl)
    as (N & updated & _ & Hst & _ & _ & _ & _ & _ & _ & Hpar & _ & Hp & _ & _ & _ & _
        & _ & _ & Ha & _ & _ & Hr & _).
  exists N. split; [|split; [exact Hp|split; [exact Hpar|split]]].
  - rewrite Hst. apply in_or_app. right. left. reflexivity.
  - apply (Ha "16:9"); [reflexivity | discriminate].
  - apply Hr. left. reflexivity.
Defined.

(* ================================================================== *)
(** ** Animation frames *)
(* ================================================================== *)

Lemma exec_bind {A B : Type} (m : M A) (k : A -> M B) (v : World) :
  exec (bind m k) v = exec (k (fst (m v))) (exec m v).
Proof. unfold exec, bind. destruct (m v). reflexivity. Qed.

Lemma runFrameCallbacks_spec (queue : list FrameCallback) (v : World) :
  exec (runFrameCallbacks queue) v =
  {| nodesState := loadingAll (frameTriggers queue) (nodesState v);
     selectedState := selectedState v;
     uuids := uuids v; uuidsDrawn := uuidsDrawn v;
     frameQueue := (frameQueue v ++ frameRequests queue)%list;
     console := (console v ++ frameLogs queue)%list;
     generateCalls :=
       (generateCalls v ++ frameCalls (nodesState v) queue)%list;
     commits := (commits v ++ frameCommits (nodesState v) queue)%list |}.
Proof.
  revert v. induction queue as [|callback queue IH]; intro v.
  - destruct v; cbn. rewrite !app_nil_r. reflexivity.
  - cbn [runFrameCallbacks]. rewrite exec_bind, IH.
    destruct callback; cbn; rewrite <- !app_assoc; reflexivity.
Qed.

Lemma animationFrame_spec (v : World) :
  exec animationFrame v =
  {| nodesState := loadingAll (frameTriggers (frameQueue v)) (nodesState v);
     selectedState := selectedState v;
     uuids := uuids v; uuidsDrawn := uuidsDrawn v;
     frameQueue := frameRequests (frameQueue v);
     console := (console v ++ frameLogs (frameQueue v))%list;
     generateCalls :=
       (generateCalls v ++ frameCalls (nodesState v) (frameQueue v))%list;
     commits := (commits v ++ frameCommits (nodesState v) (frameQueue v))%list |}.
Proof.
  unfold animationFrame, exec at 1.
  match goal with
  | |- snd (runFrameCallbacks ?q ?v0) = _ =>
      change (snd (runFrameCallbacks q v0)) with (exec (runFrameCallbacks q) v0)
  end.
  rewrite runFrameCallbacks_spec. reflexivity.
Qed.

(** The generation callback changes the status of nodes and nothing else
    of the store: every node stays at its position. *)
Lemma setLoading_nth (i : string) (store : list NodeData) (k : nat) :
  nth_error (setLoading i store) k
  = option_map (fun n => if (id n =? i)%string then withStatus n LOADING else n)
      (nth_error store k).
Proof. unfold setLoading, JS.map. apply nth_error_map. Qed.

Lemma storeIds_setLoading (i : string) (store : list NodeData) :
  storeIds (setLoading i store) = storeIds store.
Proof.
  unfold storeIds, setLoading, JS.map. rewrite map_map. apply map_ext.
  intro n. destruct (id n =? i)%string; reflexivity.
Qed.

Lemma storeIds_loadingAll (ids : list string) (store : list NodeData) :
  storeIds (loadingAll ids store) = storeIds store.
Proof.
  revert store. induction ids as [|i ids IH]; intro store; [reflexivity|].
  cbn. rewrite IH. apply storeIds_setLoading.
Qed.



Lemma frameRequests_app (q1 q2 : list FrameCallback) :
  frameRequests (q1 ++ q2) = (frameRequests q1 ++ frameRequests q2)%list.
Proof. apply flat_map_app. Qed.

Lemma frameTriggers_app (q1 q2 : list FrameCallback) :
  frameTriggers (q1 ++ q2) = (frameTriggers q1 ++ frameTriggers q2)%list.
Proof. apply flat_map_app. Qed.


Lemma frameCalls_called (store : list NodeData) (queue : list FrameCallback) :
  List.map calledWith (frameCalls store queue) = frameTriggers queue.
Proof.
  revert store. induction queue as [|callback queue IH]; intro store; [reflexivity|].
  destruct callback; cbn; rewrite IH; reflexivity.
Qed.

Lemma frameRequests_twice (queue : list FrameCallback) :
  frameRequests (frameRequests queue) = [].
Proof.
  induction queue as [|callback queue IH]; [reflexivity|].
  destruct callback; cbn; exact IH.
Qed.

Lemma frameTriggers_requests (queue : list FrameCallback) :
  frameTriggers (frameRequests (frameRequests queue)) = [].
Proof. rewrite frameRequests_twice. reflexivity. Qed.






(* ================================================================== *)
(** ** Identifiers along a run *)
(* ================================================================== *)

Section Runs.

Variable cb : option GenerateNodeCallback.

Lemma uuidContract_fresh (w : World) : uuidContract w -> freshUUID w.
Proof. intros [_ H]. apply H. apply Nat.le_refl. Qed.

Lemma storeIds_clear_angleMode (nodeId : string) (store : list NodeData) :
  storeIds (JS.map (fun n => if (id n =? nodeId)%string
                             then withAngleMode n false else n) store)
  = storeIds store.
Proof.
  unfold storeIds, JS.map. rewrite map_map. apply map_ext.
  intro n. destruct (id n =? nodeId)%string; reflexivity.
Qed.

  (** A step either leaves the ids of the store and the identifier supply
      alone, or adds the next identifier to the ids and draws it. *)
Lemma perform_ids (w : World) (c : HookCall) :
  uuids (perform cb w c) = uuids w
  /\ ((storeIds (nodesState (perform cb w c)) = storeIds (nodesState w)
       /\ uuidsDrawn (perform cb w c) = uuidsDrawn w)
      \/ (storeIds (nodesState (perform cb w c))
          = (storeIds (nodesState w) ++ [nextUUID w])%list
          /\ uuidsDrawn (perform cb w c) = S (uuidsDrawn w))).
Proof.
  destruct c as [nodeId|nodeId|nodeId|]; cbn [perform].
  - unfold exec, handleImageToImage, render; cbn [nodes].
    destruct (JS.find _ (nodesState w)) as [src|]; cbn.
    + split; [reflexivity|]. right. unfold storeIds.
      rewrite map_app. split; reflexivity.
    + split; [reflexivity|]. left. split; reflexivity.
  - unfold exec, handleImageToVideo, render; cbn [nodes].
    destruct (JS.find _ (nodesState w)) as [src|]; cbn.
    + split; [reflexivity|]. right. unfold storeIds.
      rewrite map_app. split; reflexivity.
    + split; [reflexivity|]. left. split; reflexivity.
  - unfold exec, handleChangeAngleGenerate, render; cbn [nodes].
    destruct (JS.find _ (nodesState w)) as [src|];
      [destruct (angleSettings src) as [settings|]|].
    + destruct cb; cbn -[buildAnglePrompt JS.orElse JS.map];
        (split; [reflexivity|]); right;
        (split; [|reflexivity]);
        unfold storeIds at 1; rewrite map_app;
        fold (storeIds (JS.map (fun n => if (id n =? nodeId)%string
                                         then withAngleMode n false else n)
                          (nodesState w)));
        rewrite storeIds_clear_angleMode; reflexivity.
    + cbn. split; [reflexivity|]. left. split; reflexivity.
    + cbn. split; [reflexivity|]. left. split; reflexivity.
  - rewrite animationFrame_spec. cbn [uuids nodesState uuidsDrawn].
    split; [reflexivity|]. left.
    split; [apply storeIds_loadingAll | reflexivity].
Qed.

Lemma perform_keeps_ids_distinct (w : World) (c : HookCall) :
  uuidContract w -> NoDup (storeIds (nodesState w)) ->
  uuidContract (perform cb w c) /\ NoDup (storeIds (nodesState (perform cb w c))).
Proof.
  intros [Hinj Hfut] Hnd.
  destruct (perform_ids w c) as [Eu [[Ei Ed]|[Ei Ed]]];
    unfold uuidContract; rewrite Eu, Ei, Ed.
  - auto.
  - split; [split; [exact Hinj|]|].
    + intros j Hj Hin. apply in_app_or in Hin. destruct Hin as [Hin|[Hin|[]]].
      * apply (Hfut j); [lia | exact Hin].
      * unfold nextUUID in Hin. apply Hinj in Hin. lia.
    + apply NoDup_app; [exact Hnd | repeat constructor; auto |].
      intros a Ha [Hb|[]]. subst a. exact (Hfut _ (Nat.le_refl _) Ha).
Qed.

  (** As long as [crypto.randomUUID] keeps its contract, the ids of the
      store stay pairwise distinct whatever the handlers are called on, and
      the contract holds again after every step. *)
Lemma run_keeps_ids_distinct (calls : list HookCall) (w : World) :
  uuidContract w -> NoDup (storeIds (nodesState w)) ->
  uuidContract (fold_left (perform cb) calls w)
  /\ NoDup (storeIds (nodesState (fold_left (perform cb) calls w))).
Proof.
  revert w. induction calls as [|c calls IH]; intros w Hc Hnd.
  - auto.
  - cbn [fold_left]. destruct (perform_keeps_ids_distinct w c Hc Hnd). auto.
Qed.

End Runs.



(* ================================================================== *)
(** ** Properties of the context menu controller *)
(* ================================================================== *)

Section ContextMenu.

Import Menu.

Lemma run_snoc (calls : list Call) (c : Call) :
  run (calls ++ [c]) = step (run calls) c.
Proof. unfold run. rewrite fold_left_app. reflexivity. Qed.

Lemma openMenus_at_most_one (contextMenu : ContextMenuState) :
  (List.length (openMenus contextMenu) <= 1)%nat.
Proof. unfold openMenus. destruct (isOpen contextMenu); cbn; lia. Qed.

Lemma step_closed_stays (contextMenu : ContextMenuState) (c : Call) :
  isOpenCall c = false -> isHandlerCall c = true ->
  contextMenu = initialContextMenu ->
  step contextMenu c = initialContextMenu.
Proof.
  intros Hc Hh ->.
  destruct c as [|e|e|e|dispatcher viewport choice|window nodeId direction|e nodeId|value];
    cbn in Hc, Hh; try discriminate; cbn.
  - reflexivity.
  - unfold handleDoubleClick. rewrite Hc. reflexivity.
  - unfold handleGlobalContextMenu. cbn. rewrite Hc. reflexivity.
  - unfold handleContextMenuSelect.
    destruct (dispatcher choice initialContextMenu viewport); reflexivity.
Qed.

End ContextMenu.

(** C10. The controller starts closed: the state of the first rendering is
    [{isOpen: false, x: 0, y: 0, type: 'global'}] with no source node and
    no connector side, no menu is on screen then, and the state stays so
    under the handlers until a call opens a menu.  Closing sets [isOpen] to
    false and leaves [x], [y], [type], [sourceNodeId] and [connectorSide]
    as they were. *)
Theorem contextMenu_starts_closed_and_close_keeps_fields :
  Menu.run [] =
    {| Menu.isOpen := false; Menu.x := 0; Menu.y := 0; Menu.type := Menu.global;
       Menu.sourceNodeId := None; Menu.connectorSide := None |}
  /\ Menu.openMenus (Menu.run []) = []
  /\ (forall calls : list Menu.Call,
        forallb (fun c => negb (isOpenCall c) && isHandlerCall c) calls = true ->
        Menu.run calls = Menu.initialContextMenu)
  /\ (forall prev : Menu.ContextMenuState,
        Menu.isOpen (Menu.closeContextMenu prev) = false
        /\ Menu.x (Menu.closeContextMenu prev) = Menu.x prev
        /\ Menu.y (Menu.closeContextMenu prev) = Menu.y prev
        /\ Menu.type (Menu.closeContextMenu prev) = Menu.type prev
        /\ Menu.sourceNodeId (Menu.closeContextMenu prev) = Menu.sourceNodeId prev
        /\ Menu.connectorSide (Menu.closeContextMenu prev) = Menu.connectorSide prev
        /\ Menu.step prev Menu.CallClose = Menu.closeContextMenu prev).
Proof.
  split; [reflexivity|]. split; [reflexivity|]. split.
  - intro calls. induction calls as [|c calls IH] using rev_ind; intro H.
    + reflexivity.
    + rewrite forallb_app in H. apply andb_true_iff in H. destruct H as [H1 H2].
      cbn in H2. rewrite andb_true_r in H2. apply andb_true_iff in H2.
      destruct H2 as [H2 H3]. apply negb_true_iff in H2.
      rewrite run_snoc. apply step_closed_stays; auto.
  - intro prev. repeat split.
Qed.

Lemma contextMenu_starts_closed_witness :
  forallb (fun c => negb (isOpenCall c) && isHandlerCall c)
    [Menu.CallDoubleClick nodeClick; Menu.CallClose] = true
  /\ Menu.run [Menu.CallDoubleClick nodeClick; Menu.CallClose]
     = Menu.initialContextMenu.
Proof.
  split; [reflexivity|].
  destruct contextMenu_starts_closed_and_close_keeps_fields as (_ & _ & H & _).
  apply H. reflexivity.
Defined.

(** C8. The controller keeps one menu state, so at every state reachable
    by calls on the hook at most one menu is open.  After any sequence of
    calls, an open call leaves exactly the menu it asks for: position, type,
    source node and connector side are those of that call, whatever was
    open before.  Opening a global menu and then a node-options menu leaves
    one open menu, of the node-options kind. *)
Theorem contextMenu_last_open_wins (calls : list Menu.Call) :
  (List.length (Menu.openMenus (Menu.run calls)) <= 1)%nat
  /\ (forall e : Menu.MouseEvent,
        Menu.targetId e = "canvas-background" ->
        Menu.run (calls ++ [Menu.CallDoubleClick e]) =
          {| Menu.isOpen := true; Menu.x := Menu.clientX e; Menu.y := Menu.clientY e;
             Menu.type := Menu.global;
             Menu.sourceNodeId := None; Menu.connectorSide := None |}
        /\ Menu.run (calls ++ [Menu.CallGlobalContextMenu e]) =
          {| Menu.isOpen := true; Menu.x := Menu.clientX e; Menu.y := Menu.clientY e;
             Menu.type := Menu.global;
             Menu.sourceNodeId := None; Menu.connectorSide := None |})
  /\ (forall e : Menu.MouseEvent,
        Menu.run (calls ++ [Menu.CallToolbarAdd e]) =
          {| Menu.isOpen := true;
             Menu.x := Menu.rectRight (Menu.currentTargetRect e) + 10;
             Menu.y := Menu.rectTop (Menu.currentTargetRect e);
             Menu.type := Menu.global;
             Menu.sourceNodeId := None; Menu.connectorSide := None |})
  /\ (forall (window : Menu.Window) (nodeId : string) (side : Menu.ConnectorSide),
        Menu.run (calls ++ [Menu.CallOpenConnectorMenu window nodeId side]) =
          {| Menu.isOpen := true;
             Menu.x := Menu.innerWidth window / 2;
             Menu.y := Menu.innerHeight window / 2;
             Menu.type := Menu.node_connector;
             Menu.sourceNodeId := Some nodeId; Menu.connectorSide := Some side |})
  /\ (forall (e : Menu.MouseEvent) (nodeId : string),
        Menu.run (calls ++ [Menu.CallOpenNodeOptionsMenu e nodeId]) =
          {| Menu.isOpen := true; Menu.x := Menu.clientX e; Menu.y := Menu.clientY e;
             Menu.type := Menu.node_options;
             Menu.sourceNodeId := Some nodeId; Menu.connectorSide := None |})
  /\ (forall (e1 e2 : Menu.MouseEvent) (nodeId : string),
        Menu.targetId e1 = "canvas-background" ->
        Menu.openMenus
          (Menu.run (calls ++ [Menu.CallGlobalContextMenu e1;
                               Menu.CallOpenNodeOptionsMenu e2 nodeId])) =
          [ {| Menu.isOpen := true; Menu.x := Menu.clientX e2; Menu.y := Menu.clientY e2;
               Menu.type := Menu.node_options;
               Menu.sourceNodeId := Some nodeId; Menu.connectorSide := None |} ]).
Proof.
  split; [apply openMenus_at_most_one|].
  split.
  { intros e He. rewrite !run_snoc. cbn [Menu.step].
    unfold Menu.handleDoubleClick, Menu.handleGlobalContextMenu. cbn.
    rewrite He. cbn. auto. }
  split; [intro e; rewrite run_snoc; reflexivity|].
  split; [intros window nodeId side; rewrite run_snoc; reflexivity|].
  split; [intros e nodeId; rewrite run_snoc; reflexivity|].
  intros e1 e2 nodeId _.
  change (calls ++ [Menu.CallGlobalContextMenu e1; Menu.CallOpenNodeOptionsMenu e2 nodeId])%list
    with (calls ++ [Menu.CallGlobalContextMenu e1] ++ [Menu.CallOpenNodeOptionsMenu e2 nodeId])%list.
  rewrite app_assoc, run_snoc. reflexivity.
Qed.

Lemma contextMenu_last_open_wins_witness :
  Menu.targetId backgroundClick = "canvas-background"
  /\ Menu.openMenus
       (Menu.run [Menu.CallGlobalContextMenu backgroundClick;
                  Menu.CallOpenNodeOptionsMenu nodeClick "node-1"])
     = [ {| Menu.isOpen := true; Menu.x := 512; Menu.y := 96;
            Menu.type := Menu.node_options;
            Menu.sourceNodeId := Some "node-1"; Menu.connectorSide := None |} ].
Proof.
  split; [reflexivity|].
  destruct (contextMenu_last_open_wins []) as (_ & _ & _ & _ & _ & H).
  exact (H backgroundClick nodeClick "node-1" eq_refl).
Defined.

(* ================================================================== *)
(** ** Stale renderings *)
(* ================================================================== *)

(** X1. The handlers look the source up in the store of the rendering that
    created them and write through the store's updater.  So, whatever the
    store has become since that rendering: a source id the rendering does
    not hold changes nothing, even if the store holds it by now; a source
    id the rendering holds makes the handler append one child to the store
    as it is now, no node of it dropped or moved, the child placed from the
    position the source had in the rendering (its abscissa plus 340 and
    then plus 100, as doubles, at its height). *)
Theorem derivations_use_the_rendered_store (opts : UseImageNodeHandlersOptions)
  (w : World) (nodeId : string) :
  (~ In nodeId (storeIds (nodes opts)) ->
     exec (handleImageToImage opts nodeId) w = w
     /\ exec (handleImageToVideo opts nodeId) w = w
     /\ exec (handleChangeAngleGenerate opts nodeId) w = w)
  /\ (forall src : NodeData,
        names (nodes opts) nodeId src ->
        (exists N,
            nodesState (exec (handleImageToImage opts nodeId) w)
            = (nodesState w ++ [N])%list
            /\ parentIds N = Some [nodeId]
            /\ x N = (x src + 340 + 100)%float /\ y N = y src)
        /\ (exists N,
              nodesState (exec (handleImageToVideo opts nodeId) w)
              = (nodesState w ++ [N])%list
              /\ parentIds N = Some [nodeId]
            /\ x N = (x src + 340 + 100)%float /\ y N = y src)
        /\ (angleSettings src <> None ->
            exists N,
              nodesState (exec (handleChangeAngleGenerate opts nodeId) w)
              = (JS.map (fun n => if (id n =? nodeId)%string
                                  then withAngleMode n false else n) (nodesState w)
                 ++ [N])%list
              /\ parentIds N = Some [nodeId]
            /\ x N = (x src + 340 + 100)%float /\ y N = y src)).
Proof.
  split.
  - intro H. apply unnamed_find in H.
    unfold handleImageToImage, handleImageToVideo, handleChangeAngleGenerate.
    rewrite H. auto.
  - intros src Hsrc. unfold names in Hsrc.
    split; [|split].
    + unfold exec, handleImageToImage. rewrite Hsrc. eexists.
      cbn. repeat split; reflexivity.
    + unfold exec, handleImageToVideo. rewrite Hsrc. eexists.
      cbn. repeat split; reflexivity.
    + intro Hset. unfold exec, handleChangeAngleGenerate. rewrite Hsrc.
      destruct (angleSettings src) as [settings|]; [|contradiction].
      destruct (onGenerateNode opts);
        (eexists; cbn -[buildAnglePrompt JS.orElse JS.map];
         repeat split; reflexivity).
Qed.

(** A rendering that still shows a node the store has lost: the child is
    created all the same, with a parent id no node of the store has. *)
Lemma derivations_use_the_rendered_store_witness :
  names [exampleNode] "node-1" exampleNode
  /\ exists N,
       nodesState (exec (handleImageToImage
                           {| nodes := [exampleNode]; onGenerateNode := None |}
                           "node-1")
                     {| nodesState := []; selectedState := [];
                        uuids := exampleUUIDs; uuidsDrawn := 0;
                        frameQueue := []; console := []; generateCalls := [];
                        commits := [] |})
       = [N]
       /\ parentIds N = Some ["node-1"] /\ x N = 560%float.
Proof.
  split; [reflexivity|].
  destruct (derivations_use_the_rendered_store
              {| nodes := [exampleNode]; onGenerateNode := None |}
              {| nodesState := []; selectedState := [];
                 uuids := exampleUUIDs; uuidsDrawn := 0;
                 frameQueue := []; console := []; generateCalls := [];
                 commits := [] |} "node-1") as [_ H].
  destruct (H exampleNode eq_refl) as [(N & E & P & Hx & _) _].
  exists N. split; [exact E|]. split; [exact P|]. rewrite Hx. reflexivity.
Defined.

(* ================================================================== *)
(** ** Invariants of a run *)
(* ================================================================== *)

Section RunInvariants.

Variable cb : option GenerateNodeCallback.

(** What one step can do to the store and the selection: a frame leaves
    the store as it is but for nodes the generation callback puts into
    LOADING, and the selection alone; a handler does nothing, or appends
    one node, with the next identifier as id and a node of the store as
    its only parent, and selects it, the nodes before it keeping
    everything except, for nodes of one id, the angle mode flag. *)
Lemma perform_shape (w : World) (c : HookCall) :
  ((exists ids, nodesState (perform cb w c) = loadingAll ids (nodesState w)
                /\ (c <> AnimationFrame -> ids = []))
   /\ selectedState (perform cb w c) = selectedState w)
  \/ exists (nodeId : string) (N : NodeData),
       (nodesState (perform cb w c) = (nodesState w ++ [N])%list
        \/ nodesState (perform cb w c)
           = (JS.map (fun n => if (id n =? nodeId)%string
                               then withAngleMode n false else n) (nodesState w)
              ++ [N])%list)
       /\ c <> AnimationFrame
       /\ In nodeId (storeIds (nodesState w))
       /\ id N = nextUUID w
       /\ parentIds N = Some [nodeId]
       /\ selectedState (perform cb w c) = [id N].
Proof.
  assert (Same : forall v : World,
             (exists ids, nodesState v = loadingAll ids (nodesState v)
                          /\ (c <> AnimationFrame -> ids = []))
             /\ selectedState v = selectedState v)
    by (intro v; split; [exists []; split; reflexivity | reflexivity]).
  destruct c as [nodeId|nodeId|nodeId|]; cbn [perform].
  - destruct (JS.find (fun n => (id n =? nodeId)%string) (nodesState w))
      as [src|] eqn:Hsrc.
    + right. exists nodeId. pose proof (names_used _ _ _ Hsrc) as Hin.
      unfold exec, handleImageToImage, render. cbn [nodes]. rewrite Hsrc.
      eexists. cbn -[In storeIds].
      split; [left; reflexivity|]. split; [discriminate|].
      split; [exact Hin|]. repeat split.
    + left. unfold exec, handleImageToImage, render. cbn [nodes]. rewrite Hsrc.
      apply Same.
  - destruct (JS.find (fun n => (id n =? nodeId)%string) (nodesState w))
      as [src|] eqn:Hsrc.
    + right. exists nodeId. pose proof (names_used _ _ _ Hsrc) as Hin.
      unfold exec, handleImageToVideo, render. cbn [nodes]. rewrite Hsrc.
      eexists. cbn -[In storeIds].
      split; [left; reflexivity|]. split; [discriminate|].
      split; [exact Hin|]. repeat split.
    + left. unfold exec, handleImageToVideo, render. cbn [nodes]. rewrite Hsrc.
      apply Same.
  - destruct (JS.find (fun n => (id n =? nodeId)%string) (nodesState w))
      as [src|] eqn:Hsrc.
    + pose proof (names_used _ _ _ Hsrc) as Hin.
      unfold exec, handleChangeAngleGenerate, render. cbn [nodes onGenerateNode].
      rewrite Hsrc. destruct (angleSettings src) as [settings|].
      * right. exists nodeId.
        destruct cb;
          (eexists; cbn -[buildAnglePrompt JS.orElse JS.map In storeIds];
           split; [right; reflexivity|]; split; [discriminate|];
           split; [exact Hin|]; repeat split).
      * left. apply Same.
    + left. unfold exec, handleChangeAngleGenerate, render. cbn [nodes].
      rewrite Hsrc. apply Same.
  - left. rewrite animationFrame_spec. cbn [nodesState selectedState].
    split; [|reflexivity]. eexists. split; [reflexivity | congruence].
Qed.

Lemma parentsEarlier_app (seen : list string) (l1 l2 : list NodeData) :
  parentsEarlier seen (l1 ++ l2)
  = parentsEarlier seen l1 && parentsEarlier (seen ++ storeIds l1) l2.
Proof.
  revert seen. induction l1 as [|n l1 IH]; intro seen; cbn.
  - rewrite app_nil_r. reflexivity.
  - rewrite IH, <- app_assoc, andb_assoc. reflexivity.
Qed.

Lemma parentsEarlier_map (f : NodeData -> NodeData) (seen : list string)
  (l : list NodeData) :
  (forall n, id (f n) = id n /\ parentIds (f n) = parentIds n) ->
  parentsEarlier seen (List.map f l) = parentsEarlier seen l.
Proof.
  intro Hf. revert seen. induction l as [|n l IH]; intro seen; cbn.
  - reflexivity.
  - destruct (Hf n) as [E1 E2]. unfold parentList. rewrite E1, E2, IH. reflexivity.
Qed.

Lemma parentsEarlier_loadingAll (ids seen : list string) (store : list NodeData) :
  parentsEarlier seen (loadingAll ids store) = parentsEarlier seen store.
Proof.
  revert store. induction ids as [|i ids IH]; intro store; [reflexivity|].
  cbn. rewrite IH. unfold setLoading, JS.map. apply parentsEarlier_map.
  intro n. destruct (id n =? i)%string; split; reflexivity.
Qed.

Lemma parentsEarlier_closed (seen : list string) (l : list NodeData) :
  parentsEarlier seen l = true ->
  forall n p, In n l -> In p (parentList n) -> In p (seen ++ storeIds l).
Proof.
  revert seen. induction l as [|m l IH]; intros seen H n p Hn Hp; cbn in *.
  - contradiction.
  - apply andb_true_iff in H. destruct H as [H1 H2]. destruct Hn as [->|Hn].
    + rewrite forallb_forall in H1. specialize (H1 p Hp).
      apply existsb_exists in H1. destruct H1 as (q & Hq & E).
      apply String.eqb_eq in E. subst q. apply in_or_app. left. exact Hq.
    + specialize (IH _ H2 n p Hn Hp). rewrite <- app_assoc in IH. exact IH.
Qed.

Lemma parentsEarlier_before (seen : list string) (l : list NodeData) :
  parentsEarlier seen l = true ->
  forall i n p, nth_error l i = Some n -> In p (parentList n) ->
                In p (seen ++ storeIds (firstn i l)).
Proof.
  revert seen. induction l as [|m l IH]; intros seen H i n p Hn Hp.
  - destruct i; discriminate Hn.
  - cbn in H. apply andb_true_iff in H. destruct H as [H1 H2].
    destruct i as [|i]; cbn in Hn.
    + injection Hn as ->. rewrite forallb_forall in H1. specialize (H1 p Hp).
      apply existsb_exists in H1. destruct H1 as (q & Hq & E).
      apply String.eqb_eq in E. subst q. cbn. rewrite app_nil_r. exact Hq.
    + specialize (IH _ H2 i n p Hn Hp). cbn [firstn storeIds List.map].
      rewrite <- app_assoc in IH. exact IH.
Qed.

Lemma clear_keeps_links (nodeId : string) (n : NodeData) :
  id (if (id n =? nodeId)%string then withAngleMode n false else n) = id n
  /\ parentIds (if (id n =? nodeId)%string then withAngleMode n false else n)
     = parentIds n.
Proof. destruct (id n =? nodeId)%string; split; reflexivity. Qed.

Lemma parentsEarlier_single (seen : list string) (N : NodeData) (nodeId : string) :
  parentIds N = Some [nodeId] -> In nodeId seen -> parentsEarlier seen [N] = true.
Proof.
  intros Hp Hin. cbn [parentsEarlier]. apply andb_true_iff. split; [|reflexivity].
  unfold parentList. rewrite Hp. apply forallb_forall. intros p [<-|[]].
  apply existsb_exists. exists nodeId. split; [exact Hin | apply String.eqb_refl].
Qed.

Lemma perform_keeps_parents_earlier (w : World) (c : HookCall) :
  parentsEarlier [] (nodesState w) = true ->
  parentsEarlier [] (nodesState (perform cb w c)) = true.
Proof.
  intro H.
  destruct (perform_shape w c)
    as [[(ids & E & _) _]|(nodeId & N & [E|E] & _ & Hin & _ & Hp & _)];
    rewrite E; [rewrite parentsEarlier_loadingAll; exact H| |].
  - rewrite parentsEarlier_app, H. cbn [andb app].
    apply (parentsEarlier_single _ _ nodeId); assumption.
  - rewrite parentsEarlier_app. unfold JS.map at 1.
    rewrite parentsEarlier_map by apply clear_keeps_links. rewrite H.
    cbn [andb app]. apply (parentsEarlier_single _ _ nodeId); [exact Hp|].
    rewrite storeIds_clear_angleMode. exact Hin.
Qed.

Lemma perform_keeps_selection_in_store (w : World) (c : HookCall) :
  incl (selectedState w) (storeIds (nodesState w)) ->
  incl (selectedState (perform cb w c)) (storeIds (nodesState (perform cb w c))).
Proof.
  intro H.
  destruct (perform_shape w c)
    as [[(ids & E1 & _) E2]|(nodeId & N & [E|E] & _ & _ & _ & _ & Es)].
  - rewrite E1, E2, storeIds_loadingAll. exact H.
  - rewrite Es, E. intros a [<-|[]]. unfold storeIds. rewrite map_app.
    apply in_or_app. right. left. reflexivity.
  - rewrite Es, E. intros a [<-|[]]. unfold storeIds. rewrite map_app.
    apply in_or_app. right. left. reflexivity.
Qed.

Lemma keptNode_refl (n : NodeData) : keptNode n n.
Proof. unfold keptNode. repeat split; auto. Qed.

Lemma keptNode_trans (a b c : NodeData) : keptNode a b -> keptNode b c -> keptNode a c.
Proof.
  unfold keptNode.
  intros (A1 & A2 & A3 & A4 & A5 & A6 & A7 & A8 & A9 & A10 & A11 & A12 & A13 & A14)
         (B1 & B2 & B3 & B4 & B5 & B6 & B7 & B8 & B9 & B10 & B11 & B12 & B13 & B14).
  repeat split; try congruence.
  - destruct B13 as [B13|B13]; [rewrite B13; exact A13 | right; exact B13].
  - destruct B14 as [B14|B14]; [rewrite B14; exact A14 | right; exact B14].
Qed.

Lemma loadingAll_nth (ids : list string) (store : list NodeData) (i : nat)
  (n : NodeData) :
  nth_error store i = Some n ->
  exists n', nth_error (loadingAll ids store) i = Some n'
             /\ keptNode n n' /\ angleMode n' = angleMode n.
Proof.
  revert store n. induction ids as [|j ids IH]; intros store n Hn.
  - exists n. split; [exact Hn|]. split; [apply keptNode_refl | reflexivity].
  - cbn.
    destruct (IH (setLoading j store)
                (if (id n =? j)%string then withStatus n LOADING else n))
      as (n' & H1 & H2 & H3).
    + rewrite setLoading_nth, Hn. reflexivity.
    + exists n'. split; [exact H1|]. split.
      * apply (keptNode_trans n (if (id n =? j)%string
                                 then withStatus n LOADING else n) n');
          [|exact H2].
        destruct (id n =? j)%string; [|apply keptNode_refl].
        unfold keptNode. cbn. repeat split; auto.
      * rewrite H3. destruct (id n =? j)%string; reflexivity.
Qed.

Lemma perform_keeps_nodes (w : World) (c : HookCall) (i : nat) (n : NodeData) :
  nth_error (nodesState w) i = Some n ->
  exists n', nth_error (nodesState (perform cb w c)) i = Some n'
             /\ keptNode n n'
             /\ (c <> AnimationFrame -> status n' = status n)
             /\ (c = AnimationFrame -> angleMode n' = angleMode n).
Proof.
  intro Hn.
  assert (Hlt : (i < List.length (nodesState w))%nat)
    by (apply nth_error_Some; congruence).
  destruct (perform_shape w c)
    as [[(ids & E & Hids) _]|(nodeId & N & [E|E] & Hc & _)]; rewrite E.
  - destruct (loadingAll_nth ids _ i n Hn) as (n' & H1 & H2 & H3).
    exists n'. split; [exact H1|]. split; [exact H2|]. split; [|auto].
    intro K. rewrite (Hids K) in H1. cbn in H1. congruence.
  - exists n. rewrite nth_error_app1 by exact Hlt.
    split; [exact Hn|]. split; [apply keptNode_refl|]. split; [auto | contradiction].
  - exists (if (id n =? nodeId)%string then withAngleMode n false else n).
    unfold JS.map. rewrite nth_error_app1 by (rewrite length_map; exact Hlt).
    rewrite nth_error_map, Hn. split; [reflexivity|].
    split; [|split; [|contradiction]].
    + destruct (id n =? nodeId)%string; [|apply keptNode_refl].
      unfold keptNode. cbn. repeat split; auto.
    + intros _. destruct (id n =? nodeId)%string; reflexivity.
Qed.

End RunInvariants.

Lemma xs_inj (i j : nat) : xs i = xs j -> i = j.
Proof.
  revert j. induction i as [|i IH]; intros [|j] H; cbn in H;
    try discriminate; [reflexivity|].
  injection H as H. f_equal. exact (IH _ H).
Qed.

Lemma distinctWorld_contract : uuidContract distinctWorld.
Proof.
  split.
  - intros i j H. cbn in H. injection H as H. exact (xs_inj _ _ H).
  - intros j _ H. cbn in H. destruct H as [H|[H|[]]]; discriminate H.
Qed.

Lemma distinctWorld_nodup : NoDup (storeIds (nodesState distinctWorld)).
Proof.
  cbn. repeat constructor; cbn; intuition discriminate.
Qed.

(** X2. As long as [crypto.randomUUID] never returns an identifier twice
    nor one that is in use, the ids of the store stay pairwise distinct
    through any sequence of derivations and animation frames, and the same
    holds of the identifiers still to come. *)
Theorem ids_stay_distinct_along_runs (cb : option GenerateNodeCallback)
  (calls : list HookCall) (w : World) :
  uuidContract w ->
  NoDup (storeIds (nodesState w)) ->
  NoDup (storeIds (nodesState (runHook cb calls w)))
  /\ uuidContract (runHook cb calls w).
Proof.
  intros Hc Hn. unfold runHook.
  destruct (run_keeps_ids_distinct cb calls w Hc Hn). auto.
Qed.

Lemma ids_stay_distinct_along_runs_witness :
  uuidContract distinctWorld
  /\ NoDup (storeIds (nodesState distinctWorld))
  /\ NoDup (storeIds (nodesState
              (runHook None
                 [CallImageToImage "node-1"; CallChangeAngleGenerate "node-1";
                  AnimationFrame; CallImageToVideo "9c1d-"]
                 distinctWorld))).
Proof.
  split; [exact distinctWorld_contract|]. split; [exact distinctWorld_nodup|].
  exact (proj1 (ids_stay_distinct_along_runs None _ distinctWorld
                  distinctWorld_contract distinctWorld_nodup)).
Defined.

(** X3. No sequence of derivations and animation frames removes or moves
    a node of the store, and it rewrites a node in two ways only: the node
    at a position stays at that position with all its properties, except
    that its [angleMode] may have been set to false (by a change-angle
    derivation) and its status to LOADING (by the generation callback).
    The handlers themselves never touch a status, and a frame never
    touches an [angleMode].  The ids of the store keep their order, new
    ones coming after. *)
Theorem nodes_persist_along_runs (cb : option GenerateNodeCallback)
  (calls : list HookCall) (w : World) :
  (forall (i : nat) (n : NodeData),
      nth_error (nodesState w) i = Some n ->
      exists n' : NodeData,
        nth_error (nodesState (runHook cb calls w)) i = Some n'
        /\ id n' = id n /\ type n' = type n /\ x n' = x n /\ y n' = y n
        /\ prompt n' = prompt n /\ model n' = model n
        /\ imageModel n' = imageModel n /\ aspectRatio n' = aspectRatio n
        /\ resolution n' = resolution n /\ parentIds n' = parentIds n
        /\ angleSettings n' = angleSettings n /\ rest n' = rest n
        /\ (angleMode n' = angleMode n \/ angleMode n' = Some false)
        /\ (status n' = status n \/ status n' = LOADING)
        /\ (forallb (fun c => negb (isFrame c)) calls = true -> status n' = status n)
        /\ (forallb isFrame calls = true -> angleMode n' = angleMode n))
  /\ exists added : list string,
       storeIds (nodesState (runHook cb calls w))
       = (storeIds (nodesState w) ++ added)%list.
Proof.
  unfold runHook. revert w. induction calls as [|c calls IH]; intro w.
  - split.
    + intros i n Hn. exists n. split; [exact Hn|].
      repeat split; auto.
    + exists []. cbn. rewrite app_nil_r. reflexivity.
  - cbn [fold_left]. destruct (IH (perform cb w c)) as [IH1 [added IH2]]. split.
    + intros i n Hn.
      destruct (perform_keeps_nodes cb w c i n Hn) as (m & H1 & H2 & H3 & H4).
      destruct (IH1 _ _ H1)
        as (n' & K0 & K1 & K2 & K3 & K4 & K5 & K6 & K7 & K8 & K9 & K10 & K11 & K12
            & K13 & K14 & K15 & K16).
      assert (KK : keptNode m n') by (unfold keptNode; repeat split; assumption).
      pose proof (keptNode_trans _ _ _ H2 KK) as T. unfold keptNode in T.
      destruct T as (T1 & T2 & T3 & T4 & T5 & T6 & T7 & T8 & T9 & T10 & T11 & T12
                     & T13 & T14).
      exists n'. split; [exact K0|].
      repeat (split; [assumption|]).
      split.
      * intro F. cbn [forallb] in F. apply andb_true_iff in F. destruct F as [F1 F2].
        rewrite (K15 F2). apply H3. intro E. subst c. discriminate F1.
      * intro F. cbn [forallb] in F. apply andb_true_iff in F. destruct F as [F1 F2].
        rewrite (K16 F2). apply H4. destruct c; try discriminate F1. reflexivity.
    + rewrite IH2.
      destruct (perform_ids cb w c) as [_ [[E _]|[E _]]]; rewrite E.
      * exists added. reflexivity.
      * exists (nextUUID w :: added). rewrite <- app_assoc. reflexivity.
Qed.

(** The change-angle derivation of [node-1] with a callback, and the two
    frames that follow: the source is out of angle mode and otherwise as
    it was. *)
Lemma nodes_persist_along_runs_witness :
  nth_error (nodesState exampleWorld) 0 = Some exampleNode
  /\ forallb (fun c => negb (isFrame c))
       [CallChangeAngleGenerate "node-1"; CallImageToImage "node-2"] = true
  /\ exists n',
       nth_error
         (nodesState (runHook (Some ExternalGenerateNode)
                        [CallChangeAngleGenerate "node-1"; CallImageToImage "node-2"]
                        exampleWorld)) 0 = Some n'
       /\ id n' = "node-1" /\ status n' = IDLE.
Proof.
  split; [reflexivity|]. split; [reflexivity|].
  destruct (proj1 (nodes_persist_along_runs (Some ExternalGenerateNode)
                     [CallChangeAngleGenerate "node-1"; CallImageToImage "node-2"]
                     exampleWorld) 0%nat exampleNode eq_refl)
    as (n' & H0 & H1 & _ & _ & _ & _ & _ & _ & _ & _ & _ & _ & _ & _ & _ & H15 & _).
  exists n'. split; [exact H0|]. split; [exact H1|].
  rewrite (H15 eq_refl). reflexivity.
Defined.

(** X4. Parent links point backwards and never dangle: if in the store
    every parent id of a node is the id of a node before it, this is still
    so after any sequence of derivations and animation frames; so every
    parent id of the node at a position is the id of a node at an earlier
    position.  If moreover the ids of the store are pairwise distinct and
    [crypto.randomUUID] keeps its contract, a parent id names no other
    node, so that every node a parent id names lies strictly before the
    child, and the parent links form no cycle: no chain of them leads from
    a position back to itself. *)
Theorem parent_links_stay_backward (cb : option GenerateNodeCallback)
  (calls : list HookCall) (w : World) :
  parentsEarlier [] (nodesState w) = true ->
  let store := nodesState (runHook cb calls w) in
  parentsEarlier [] store = true
  /\ (forall (n : NodeData) (p : string),
        In n store -> In p (parentList n) -> In p (storeIds store))
  /\ (forall (i : nat) (n : NodeData) (p : string),
        nth_error store i = Some n -> In p (parentList n) ->
        exists (j : nat) (m : NodeData),
          (j < i)%nat /\ nth_error store j = Some m /\ id m = p)
  /\ (uuidContract w -> NoDup (storeIds (nodesState w)) ->
      forall (i : nat) (n : NodeData) (p : string),
        nth_error store i = Some n -> In p (parentList n) ->
        forall (k : nat) (m : NodeData),
          nth_error store k = Some m -> id m = p -> (k < i)%nat)
  /\ (uuidContract w -> NoDup (storeIds (nodesState w)) ->
      forall i : nat, ~ clos_trans nat (parentAt store) i i).
Proof.
  intros H store.
  assert (K : parentsEarlier [] store = true).
  { unfold store, runHook. clear store. revert w H.
    induction calls as [|c calls IH]; intros w H.
    - exact H.
    - cbn [fold_left]. apply IH. apply perform_keeps_parents_earlier. exact H. }
  assert (B : forall i n p,
             nth_error store i = Some n -> In p (parentList n) ->
             exists j m, (j < i)%nat /\ nth_error store j = Some m /\ id m = p).
  { intros i n p Hn Hp.
    pose proof (parentsEarlier_before [] store K i n p Hn Hp) as Hin.
    cbn [app] in Hin. unfold storeIds in Hin. apply in_map_iff in Hin.
    destruct Hin as (m & Em & Hm). apply In_nth_error in Hm. destruct Hm as (j & Hj).
    assert (Hlt : (j < i)%nat).
    { assert (L : (j < List.length (firstn i store))%nat)
        by (apply nth_error_Some; congruence).
      rewrite length_firstn in L. lia. }
    exists j, m. split; [exact Hlt|]. split; [|exact Em].
    rewrite nth_error_firstn in Hj.
    destruct (Nat.ltb_spec j i); [exact Hj | lia]. }
  split; [exact K|]. split.
  { intros n p Hn Hp. exact (parentsEarlier_closed [] _ K n p Hn Hp). }
  split; [exact B|].
  assert (Strict : uuidContract w -> NoDup (storeIds (nodesState w)) ->
                   forall i n p, nth_error store i = Some n -> In p (parentList n) ->
                   forall k m, nth_error store k = Some m -> id m = p -> (k < i)%nat).
  { intros Hc Hnd i n p Hn Hp k m Hk Em.
    destruct (B i n p Hn Hp) as (j & m' & Hlt & Hj & Em').
    assert (ND : NoDup (storeIds store))
      by (exact (proj2 (run_keeps_ids_distinct cb calls w Hc Hnd))).
    assert (E : k = j).
    { apply (proj1 (NoDup_nth_error (storeIds store)) ND).
      - unfold storeIds. rewrite length_map. apply nth_error_Some. congruence.
      - unfold storeIds. rewrite !nth_error_map, Hk, Hj. cbn. congruence. }
    subst k. exact Hlt. }
  split; [exact Strict|].
  intros Hc Hnd i Hcycle.
  assert (Down : forall a b, clos_trans nat (parentAt store) a b -> (b < a)%nat).
  { intros a b Hab. induction Hab as [a b (n & m & Hn & Hm & Hp) | a b c _ IH1 _ IH2].
    - exact (Strict Hc Hnd a n (id m) Hn Hp b m Hm eq_refl).
    - lia. }
  specialize (Down i i Hcycle). lia.
Qed.

Lemma parent_links_stay_backward_witness :
  parentsEarlier [] (nodesState distinctWorld) = true
  /\ uuidContract distinctWorld
  /\ NoDup (storeIds (nodesState distinctWorld))
  /\ parentsEarlier []
       (nodesState (runHook None
                      [CallImageToImage "node-1"; CallChangeAngleGenerate "node-2";
                       CallImageToVideo "9c1d-"] distinctWorld)) = true
  /\ forall (k : nat) (m : NodeData),
       nth_error
         (nodesState (runHook None
                        [CallImageToImage "node-1"; CallChangeAngleGenerate "node-2";
                         CallImageToVideo "9c1d-"] distinctWorld)) k = Some m ->
       id m = "9c1d-" -> (k < 3)%nat.
Proof.
  split; [reflexivity|]. split; [exact distinctWorld_contract|].
  split; [exact distinctWorld_nodup|].
  destruct (parent_links_stay_backward None
              [CallImageToImage "node-1"; CallChangeAngleGenerate "node-2";
               CallImageToVideo "9c1d-"] distinctWorld eq_refl)
    as (K & _ & _ & Strict & _).
  split; [exact K|].
  intros k m Hk Em.
  eapply (Strict distinctWorld_contract distinctWorld_nodup 3%nat);
    [reflexivity | left; reflexivity | exact Hk | exact Em].
Defined.

(** X5. The selection never names a node the store does not hold: if every
    selected id is the id of a node of the store, this is still so after
    any sequence of derivations and animation frames. *)
Theorem selection_stays_in_store (cb : option GenerateNodeCallback)
  (calls : list HookCall) (w : World) :
  incl (selectedState w) (storeIds (nodesState w)) ->
  incl (selectedState (runHook cb calls w))
       (storeIds (nodesState (runHook cb calls w))).
Proof.
  unfold runHook. revert w. induction calls as [|c calls IH]; intros w H.
  - exact H.
  - cbn [fold_left]. apply IH. apply perform_keeps_selection_in_store. exact H.
Qed.

Lemma selection_stays_in_store_witness :
  incl (selectedState exampleWorld) (storeIds (nodesState exampleWorld))
  /\ incl (selectedState (runHook None [CallImageToImage "node-1"; AnimationFrame]
                            exampleWorld))
          (storeIds (nodesState (runHook None [CallImageToImage "node-1"; AnimationFrame]
                                   exampleWorld))).
Proof.
  assert (H : incl (selectedState exampleWorld) (storeIds (nodesState exampleWorld)))
    by (intros a []).
  split; [exact H|].
  exact (selection_stays_in_store None _ exampleWorld H).
Defined.

(* ================================================================== *)
(** ** Triggers along a run *)
(* ================================================================== *)

Section Triggers.

Variable cb : option GenerateNodeCallback.

(** The handlers write nothing to the console and invoke nothing
    themselves. *)
Lemma perform_handler_logs (w : World) (c : HookCall) :
  c <> AnimationFrame ->
  console (perform cb w c) = console w
  /\ generateCalls (perform cb w c) = generateCalls w.
Proof.
  intro Hc. destruct c as [nodeId|nodeId|nodeId|]; [| | |contradiction];
    cbn [perform].
  - unfold exec, handleImageToImage, render. cbn [nodes].
    destruct (JS.find _ (nodesState w)); split; reflexivity.
  - unfold exec, handleImageToVideo, render. cbn [nodes].
    destruct (JS.find _ (nodesState w)); split; reflexivity.
  - unfold exec, handleChangeAngleGenerate, render. cbn [nodes onGenerateNode].
    destruct (JS.find _ (nodesState w)) as [src|]; [|split; reflexivity].
    destruct (angleSettings src); [|split; reflexivity].
    destruct cb; split; reflexivity.
Qed.

Lemma frameLogs_calls (store : list NodeData) (queue : list FrameCallback) :
  frameLogs queue
  = List.map triggerLogLine (List.map calledWith (frameCalls store queue)).
Proof.
  rewrite frameCalls_called. unfold frameLogs, frameTriggers.
  induction queue as [|callback queue IH]; [reflexivity|].
  cbn [flat_map]. rewrite map_app, <- IH. destruct callback; reflexivity.
Qed.

Lemma perform_keeps_console_in_step (w : World) (c : HookCall) :
  console w = List.map triggerLogLine (List.map calledWith (generateCalls w)) ->
  console (perform cb w c)
  = List.map triggerLogLine (List.map calledWith (generateCalls (perform cb w c))).
Proof.
  intro H. destruct c as [nodeId|nodeId|nodeId|].
  1-3: match goal with
       | |- context [perform _ ?v ?c] =>
           destruct (perform_handler_logs v c) as [E1 E2]; [discriminate|]
       end; rewrite E1, E2; exact H.
  cbn [perform]. rewrite animationFrame_spec. cbn [console generateCalls].
  rewrite !map_app, H, (frameLogs_calls (nodesState w)). reflexivity.
Qed.

End Triggers.

(** X6. Every invocation of the generation callback is announced on the
    console, and nothing else is: through any sequence of derivations and
    animation frames the console holds, in order, one line
    ['[ChangeAngle] Triggering generation for:', id] per invocation of the
    callback on [id], provided it did so at the start. *)
Theorem console_mirrors_triggers (cb : option GenerateNodeCallback)
  (calls : list HookCall) (w : World) :
  console w = List.map triggerLogLine (List.map calledWith (generateCalls w)) ->
  console (runHook cb calls w)
  = List.map triggerLogLine
      (List.map calledWith (generateCalls (runHook cb calls w))).
Proof.
  unfold runHook. revert w. induction calls as [|c calls IH]; intros w H.
  - exact H.
  - cbn [fold_left]. apply IH. apply perform_keeps_console_in_step. exact H.
Qed.

Lemma console_mirrors_triggers_witness :
  console exampleWorld
  = List.map triggerLogLine (List.map calledWith (generateCalls exampleWorld))
  /\ console (runHook (Some ExternalGenerateNode)
               [CallChangeAngleGenerate "node-1"; AnimationFrame; AnimationFrame]
               exampleWorld)
     = [triggerLogLine (nextUUID exampleWorld)].
Proof.
  split; [reflexivity|].
  rewrite (console_mirrors_triggers (Some ExternalGenerateNode) _ exampleWorld eq_refl).
  reflexivity.
Defined.

Section TriggerOrder.

Variable trigger : GenerateNodeCallback.

Lemma frameRequests_split (inner outer : list string) :
  frameRequests (List.map InnerFrame inner ++ List.map OuterFrame outer)
  = List.map InnerFrame outer.
Proof.
  rewrite frameRequests_app.
  assert (E1 : frameRequests (List.map InnerFrame inner) = [])
    by (induction inner as [|a l IH]; [reflexivity | exact IH]).
  assert (E2 : frameRequests (List.map OuterFrame outer) = List.map InnerFrame outer)
    by (induction outer as [|a l IH]; [reflexivity | cbn; f_equal; exact IH]).
  rewrite E1, E2. reflexivity.
Qed.

Lemma frameTriggers_inner (inner : list string) :
  frameTriggers (List.map InnerFrame inner) = inner.
Proof.
  induction inner as [|a l IH]; [reflexivity | cbn; f_equal; exact IH].
Qed.

Lemma frameCalls_inner (store : list NodeData) (inner : list string) :
  List.map calledWith (frameCalls store (List.map InnerFrame inner)) = inner.
Proof. rewrite frameCalls_called. apply frameTriggers_inner. Qed.

Lemma frameCalls_split (store : list NodeData) (inner outer : list string) :
  List.map calledWith
    (frameCalls store (List.map InnerFrame inner ++ List.map OuterFrame outer))
  = inner.
Proof.
  rewrite frameCalls_called, frameTriggers_app, frameTriggers_inner.
  assert (E2 : frameTriggers (List.map OuterFrame outer) = [])
    by (induction outer as [|a l IH]; [reflexivity | exact IH]).
  rewrite E2. apply app_nil_r.
Qed.

(** The change-angle derivation, with a callback: nothing happens, or the
    next identifier joins the ids of the store and an outer callback for
    it joins the frame queue. *)
Lemma angle_step (w : World) (nodeId : string) :
  generateCalls (perform (Some trigger) w (CallChangeAngleGenerate nodeId))
  = generateCalls w
  /\ ((storeIds (nodesState (perform (Some trigger) w (CallChangeAngleGenerate nodeId)))
       = storeIds (nodesState w)
       /\ frameQueue (perform (Some trigger) w (CallChangeAngleGenerate nodeId))
          = frameQueue w)
      \/ (storeIds (nodesState (perform (Some trigger) w (CallChangeAngleGenerate nodeId)))
          = (storeIds (nodesState w) ++ [nextUUID w])%list
          /\ frameQueue (perform (Some trigger) w (CallChangeAngleGenerate nodeId))
             = (frameQueue w ++ [OuterFrame (nextUUID w)])%list)).
Proof.
  cbn [perform]. unfold exec, handleChangeAngleGenerate, render.
  cbn [nodes onGenerateNode].
  destruct (JS.find _ (nodesState w)) as [src|]; [|split; [|left; split]; reflexivity].
  destruct (angleSettings src); [|split; [|left; split]; reflexivity].
  cbn -[buildAnglePrompt JS.orElse JS.map]. split; [reflexivity|]. right.
  split; [|reflexivity]. unfold storeIds at 1. rewrite map_app.
  fold (storeIds (JS.map (fun n => if (id n =? nodeId)%string
                                   then withAngleMode n false else n)
                    (nodesState w))).
  rewrite storeIds_clear_angleMode. reflexivity.
Qed.

(** What holds between the store, the queue and the invocations along a
    run of change-angle derivations and frames from [w0]: the ids added to
    the store are those already invoked, then those of the waiting inner
    callbacks, then those of the waiting outer callbacks. *)
Lemma trigger_invariant (calls : list HookCall) (w0 w : World)
  (new inner outer : list string) (newCalls : list GenerateCall) :
  forallb isAngleOrFrame calls = true ->
  generateCalls w = (generateCalls w0 ++ newCalls)%list ->
  List.map calledWith newCalls = new ->
  frameQueue w = (List.map InnerFrame inner ++ List.map OuterFrame outer)%list ->
  storeIds (nodesState w) = (storeIds (nodesState w0) ++ new ++ inner ++ outer)%list ->
  exists (newCalls' : list GenerateCall) (inner' outer' : list string),
    generateCalls (runHook (Some trigger) calls w)
    = (generateCalls w0 ++ newCalls')%list
    /\ frameQueue (runHook (Some trigger) calls w)
       = (List.map InnerFrame inner' ++ List.map OuterFrame outer')%list
    /\ storeIds (nodesState (runHook (Some trigger) calls w))
       = (storeIds (nodesState w0) ++ List.map calledWith newCalls'
          ++ inner' ++ outer')%list.
Proof.
  unfold runHook.
  revert w new inner outer newCalls.
  induction calls as [|c calls IH]; intros w new inner outer newCalls Hall Hg Hnew Hq Hs.
  - exists newCalls, inner, outer. cbn. rewrite Hnew. auto.
  - cbn [forallb] in Hall. apply andb_true_iff in Hall. destruct Hall as [Hc Hall].
    cbn [fold_left].
    destruct c as [nodeId|nodeId|nodeId|]; try discriminate Hc.
    + destruct (angle_step w nodeId) as [Eg [[Es Eq]|[Es Eq]]].
      * apply (IH _ new inner outer newCalls Hall); congruence.
      * apply (IH _ new inner (outer ++ [nextUUID w])%list newCalls Hall).
        -- congruence.
        -- exact Hnew.
        -- rewrite Eq, Hq, map_app, <- app_assoc. reflexivity.
        -- rewrite Es, Hs, <- !app_assoc. reflexivity.
    + apply (IH _ (new ++ inner)%list outer []
                (newCalls ++ frameCalls (nodesState w) (frameQueue w))%list Hall).
      * cbn [perform]. rewrite animationFrame_spec. cbn [generateCalls].
        rewrite Hg, <- app_assoc. reflexivity.
      * rewrite map_app, Hnew, Hq, frameCalls_split. reflexivity.
      * cbn [perform]. rewrite animationFrame_spec. cbn [frameQueue].
        rewrite Hq, frameRequests_split. cbn. rewrite app_nil_r. reflexivity.
      * cbn [perform]. rewrite animationFrame_spec. cbn [nodesState].
        rewrite storeIds_loadingAll, Hs, app_nil_r, <- !app_assoc. reflexivity.
Qed.

End TriggerOrder.

(** X7. With a generation callback supplied, take any sequence of
    change-angle derivations and animation frames from a world whose frame
    queue is empty, and let two more frames pass.  Then the queue is empty
    again, and the callback has been invoked, since the start, exactly on
    the ids of the nodes added to the store, once each and in the order of
    their creation. *)
Theorem triggers_follow_creation (trigger : GenerateNodeCallback)
  (calls : list HookCall) (w : World) :
  forallb isAngleOrFrame calls = true ->
  frameQueue w = [] ->
  let w' := runHook (Some trigger) (calls ++ [AnimationFrame; AnimationFrame]) w in
  frameQueue w' = []
  /\ exists newCalls : list GenerateCall,
       generateCalls w' = (generateCalls w ++ newCalls)%list
       /\ storeIds (nodesState w')
          = (storeIds (nodesState w) ++ List.map calledWith newCalls)%list.
Proof.
  intros Hall Hq w'.
  destruct (trigger_invariant trigger calls w w [] [] [] [] Hall)
    as (newCalls & inner & outer & Eg & Eq & Es).
  { rewrite app_nil_r. reflexivity. }
  { reflexivity. }
  { exact Hq. }
  { cbn. rewrite app_nil_r. reflexivity. }
  set (v := runHook (Some trigger) calls w) in *.
  assert (Ew : w' = exec animationFrame (exec animationFrame v)).
  { unfold w', runHook. rewrite fold_left_app. reflexivity. }
  rewrite Ew, !animationFrame_spec. cbn [frameQueue generateCalls nodesState].
  split; [apply frameRequests_twice|].
  rewrite Eq, frameRequests_split.
  eexists. split.
  - rewrite Eg, <- !app_assoc. reflexivity.
  - rewrite !storeIds_loadingAll, Es, !map_app, frameCalls_split, frameCalls_inner.
    reflexivity.
Qed.

Lemma triggers_follow_creation_witness :
  forallb isAngleOrFrame
    [CallChangeAngleGenerate "node-1"; AnimationFrame;
     CallChangeAngleGenerate "node-1"] = true
  /\ frameQueue exampleWorld = []
  /\ (let w' := runHook (Some ExternalGenerateNode)
                  ([CallChangeAngleGenerate "node-1"; AnimationFrame;
                    CallChangeAngleGenerate "node-1"]
                   ++ [AnimationFrame; AnimationFrame]) exampleWorld in
      storeIds (nodesState w')
      = (storeIds (nodesState exampleWorld)
         ++ List.map calledWith (generateCalls w'))%list).
Proof.
  split; [reflexivity|]. split; [reflexivity|]. cbv zeta.
  destruct (triggers_follow_creation ExternalGenerateNode
              [CallChangeAngleGenerate "node-1"; AnimationFrame;
               CallChangeAngleGenerate "node-1"] exampleWorld eq_refl eq_refl)
    as (_ & newCalls & Eg & Es).
  rewrite Es, Eg. reflexivity.
Defined.

(* ================================================================== *)
(** ** Derivations in a row *)
(* ================================================================== *)

Section Rows.

Variable nodeId : string.

Lemma find_in_front (store : list NodeData) (src : NodeData) (tail : list NodeData) :
  names store nodeId src -> names (store ++ tail) nodeId src.
Proof.
  unfold names, JS.find. induction store as [|n store IH]; cbn; [discriminate|].
  destruct (id n =? nodeId)%string; [auto | exact IH].
Qed.

Lemma find_behind (store : list NodeData) (N : NodeData) :
  ~ In nodeId (storeIds store) -> id N = nodeId -> names (store ++ [N]) nodeId N.
Proof.
  unfold names, JS.find, storeIds.
  induction store as [|n store IH]; cbn; intros H E.
  - rewrite E, String.eqb_refl. reflexivity.
  - destruct (String.eqb_spec (id n) nodeId) as [K|K]; [tauto|].
    apply IH; tauto.
Qed.

Lemma find_map (f : NodeData -> NodeData) (store : list NodeData) :
  (forall n, id (f n) = id n) ->
  List.find (fun n => (id n =? nodeId)%string) (List.map f store)
  = option_map f (List.find (fun n => (id n =? nodeId)%string) store).
Proof.
  intro Hf. induction store as [|n store IH]; [reflexivity|].
  cbn [List.map List.find]. rewrite Hf.
  destruct (id n =? nodeId)%string; [reflexivity | exact IH].
Qed.

Lemma find_cleared (store : list NodeData) (src : NodeData) :
  names store nodeId src ->
  names (JS.map (fun n => if (id n =? nodeId)%string
                          then withAngleMode n false else n) store)
        nodeId (withAngleMode src false).
Proof.
  unfold names, JS.find, JS.map. intro H.
  rewrite find_map by (intro n; destruct (id n =? nodeId)%string; reflexivity).
  rewrite H. cbn [option_map].
  apply find_some in H. destruct H as [_ H]. rewrite H. reflexivity.
Qed.

End Rows.

(** What a derivation appends, read off the handler. *)
Lemma handleImageToImage_children (w : World) (cb : option GenerateNodeCallback)
  (nodeId : string) (src : NodeData) :
  names (nodesState w) nodeId src ->
  exists N : NodeData,
    nodesState (exec (handleImageToImage (render w cb) nodeId) w)
    = (nodesState w ++ [N])%list
    /\ type N = IMAGE /\ parentIds N = Some [id src] /\ id N = nextUUID w
    /\ x N = (x src + 340 + 100)%float /\ y N = y src
    /\ selectedState (exec (handleImageToImage (render w cb) nodeId) w) = [id N].
Proof.
  intro Hsrc. pose proof (names_id _ _ _ Hsrc) as Hid.
  unfold exec, handleImageToImage, render. cbn [nodes].
  unfold names in Hsrc. rewrite Hsrc. eexists. cbn.
  split; [reflexivity|]. split; [reflexivity|].
  split; [rewrite Hid; reflexivity|]. split; [reflexivity|].
  split; [reflexivity|]. split; reflexivity.
Qed.

Lemma handleImageToVideo_children (w : World) (cb : option GenerateNodeCallback)
  (nodeId : string) (src : NodeData) :
  names (nodesState w) nodeId src ->
  exists N : NodeData,
    nodesState (exec (handleImageToVideo (render w cb) nodeId) w)
    = (nodesState w ++ [N])%list
    /\ type N = VIDEO /\ parentIds N = Some [id src] /\ id N = nextUUID w
    /\ x N = (x src + 340 + 100)%float /\ y N = y src
    /\ selectedState (exec (handleImageToVideo (render w cb) nodeId) w) = [id N].
Proof.
  intro Hsrc. pose proof (names_id _ _ _ Hsrc) as Hid.
  unfold exec, handleImageToVideo, render. cbn [nodes].
  unfold names in Hsrc. rewrite Hsrc. eexists. cbn.
  split; [reflexivity|]. split; [reflexivity|].
  split; [rewrite Hid; reflexivity|]. split; [reflexivity|].
  split; [reflexivity|]. split; reflexivity.
Qed.

(** X8. Deriving an image from a node and then a video from that image
    (the hook rendered again in between) leaves both at the end of the
    store, the video a child of the image and the image a child of the
    source, the video at the height of the source and at its abscissa
    plus 340, 100, 340 and 100, added one after the other as doubles, and
    selected; this as long as the identifier of the image was not in
    use. *)
Theorem derivations_chain (w : World) (cb : option GenerateNodeCallback)
  (nodeId : string) (src : NodeData) :
  names (nodesState w) nodeId src ->
  freshUUID w ->
  let w1 := exec (handleImageToImage (render w cb) nodeId) w in
  let w2 := exec (handleImageToVideo (render w1 cb) (nextUUID w)) w1 in
  exists N1 N2 : NodeData,
    nodesState w2 = (nodesState w ++ [N1; N2])%list
    /\ type N1 = IMAGE /\ parentIds N1 = Some [id src]
    /\ type N2 = VIDEO /\ parentIds N2 = Some [id N1]
    /\ x N2 = (x src + 340 + 100 + 340 + 100)%float /\ y N2 = y src
    /\ selectedState w2 = [id N2].
Proof.
  intros Hsrc Hfresh w1 w2.
  destruct (handleImageToImage_children w cb nodeId src Hsrc)
    as (N1 & E1 & T1 & P1 & I1 & X1 & Y1 & _).
  assert (H1 : names (nodesState w1) (nextUUID w) N1).
  { unfold w1. rewrite E1. apply find_behind; [exact Hfresh | exact I1]. }
  destruct (handleImageToVideo_children w1 cb (nextUUID w) N1 H1)
    as (N2 & E2 & T2 & P2 & I2 & X2 & Y2 & S2).
  fold w1 in E1.
  exists N1, N2. unfold w2. rewrite E2. fold w1. rewrite E1, <- app_assoc.
  split; [reflexivity|]. split; [exact T1|]. split; [exact P1|].
  split; [exact T2|]. split; [rewrite P2, I1; reflexivity|].
  split; [rewrite X2, X1; reflexivity|]. split; [congruence | exact S2].
Qed.

Lemma derivations_chain_witness :
  names (nodesState exampleWorld) "node-1" exampleNode
  /\ freshUUID exampleWorld
  /\ exists N1 N2 : NodeData,
       nodesState
         (exec (handleImageToVideo
                  (render (exec (handleImageToImage (render exampleWorld None) "node-1")
                             exampleWorld) None)
                  (nextUUID exampleWorld))
               (exec (handleImageToImage (render exampleWorld None) "node-1")
                  exampleWorld))
       = [exampleNode; plainNode; N1; N2]
       /\ parentIds N2 = Some [id N1] /\ x N2 = 1000%float.
Proof.
  split; [exact exampleWorld_names|]. split; [exact exampleWorld_fresh|].
  destruct (derivations_chain exampleWorld None "node-1" exampleNode
              exampleWorld_names exampleWorld_fresh)
    as (N1 & N2 & E & _ & _ & _ & P & Hx & _).
  exists N1, N2. split; [exact E|]. split; [exact P|]. rewrite Hx. reflexivity.
Defined.

(** X9. Two derivations from the same source (the hook rendered again in
    between) give two children of that source at one and the same
    position: the second child lies exactly over the first, be it an image
    or a video. *)
Theorem siblings_overlap (w : World) (cb : option GenerateNodeCallback)
  (nodeId : string) (src : NodeData) :
  names (nodesState w) nodeId src ->
  let w1 := exec (handleImageToImage (render w cb) nodeId) w in
  (exists N1 N2 : NodeData,
      nodesState (exec (handleImageToImage (render w1 cb) nodeId) w1)
      = (nodesState w ++ [N1; N2])%list
      /\ parentIds N1 = Some [id src] /\ parentIds N2 = Some [id src]
      /\ x N2 = x N1 /\ y N2 = y N1)
  /\ (exists N1 N2 : NodeData,
        nodesState (exec (handleImageToVideo (render w1 cb) nodeId) w1)
        = (nodesState w ++ [N1; N2])%list
        /\ parentIds N1 = Some [id src] /\ parentIds N2 = Some [id src]
        /\ x N2 = x N1 /\ y N2 = y N1).
Proof.
  intros Hsrc w1.
  destruct (handleImageToImage_children w cb nodeId src Hsrc)
    as (N1 & E1 & _ & P1 & _ & X1 & Y1 & _).
  fold w1 in E1.
  assert (H1 : names (nodesState w1) nodeId src)
    by (rewrite E1; apply find_in_front; exact Hsrc).
  split.
  - destruct (handleImageToImage_children w1 cb nodeId src H1)
      as (N2 & E2 & _ & P2 & _ & X2 & Y2 & _).
    exists N1, N2. rewrite E2, E1, <- app_assoc.
    split; [reflexivity|]. split; [exact P1|]. split; [exact P2|].
    split; [rewrite X1, X2; reflexivity | congruence].
  - destruct (handleImageToVideo_children w1 cb nodeId src H1)
      as (N2 & E2 & _ & P2 & _ & X2 & Y2 & _).
    exists N1, N2. rewrite E2, E1, <- app_assoc.
    split; [reflexivity|]. split; [exact P1|]. split; [exact P2|].
    split; [rewrite X1, X2; reflexivity | congruence].
Qed.

Lemma siblings_overlap_witness :
  names (nodesState exampleWorld) "node-1" exampleNode
  /\ exists N1 N2 : NodeData,
       nodesState
         (exec (handleImageToVideo
                  (render (exec (handleImageToImage (render exampleWorld None) "node-1")
                             exampleWorld) None) "node-1")
               (exec (handleImageToImage (render exampleWorld None) "node-1")
                  exampleWorld))
       = [exampleNode; plainNode; N1; N2]
       /\ x N2 = x N1 /\ y N2 = y N1.
Proof.
  split; [exact exampleWorld_names|].
  destruct (siblings_overlap exampleWorld None "node-1" exampleNode exampleWorld_names)
    as [_ (N1 & N2 & E & _ & _ & Hx & Hy)].
  exists N1, N2. auto.
Defined.

Lemma handleChangeAngleGenerate_children (w : World)
  (cb : option GenerateNodeCallback) (nodeId : string) (src : NodeData)
  (settings : AngleSettings) :
  names (nodesState w) nodeId src ->
  angleSettings src = Some settings ->
  exists N : NodeData,
    nodesState (exec (handleChangeAngleGenerate (render w cb) nodeId) w)
    = (JS.map (fun n => if (id n =? nodeId)%string
                        then withAngleMode n false else n) (nodesState w)
       ++ [N])%list
    /\ id N = nextUUID w /\ parentIds N = Some [id src]
    /\ prompt N = buildAnglePrompt settings
    /\ aspectRatio N = Some (JS.orElse (aspectRatio src) "Auto")
    /\ resolution N = Some (JS.orElse (resolution src) "Auto")
    /\ x N = (x src + 340 + 100)%float /\ y N = y src.
Proof.
  intros Hsrc Hset. pose proof (names_id _ _ _ Hsrc) as Hid.
  destruct (handleChangeAngleGenerate_store w cb nodeId) as (En & _ & _).
  rewrite En. unfold exec, handleChangeAngleGenerate, render.
  cbn [nodes onGenerateNode]. unfold names in Hsrc. rewrite Hsrc, Hset.
  eexists. cbn -[buildAnglePrompt JS.orElse JS.map].
  split; [reflexivity|]. split; [reflexivity|].
  split; [rewrite Hid; reflexivity|]. split; [reflexivity|].
  split; [reflexivity|]. split; [reflexivity|].
  split; reflexivity.
Qed.

Lemma clear_twice (nodeId : string) (store : list NodeData) :
  JS.map (fun n => if (id n =? nodeId)%string then withAngleMode n false else n)
    (JS.map (fun n => if (id n =? nodeId)%string then withAngleMode n false else n)
       store)
  = JS.map (fun n => if (id n =? nodeId)%string then withAngleMode n false else n)
      store.
Proof.
  unfold JS.map. rewrite map_map. apply map_ext. intro n.
  destruct (id n =? nodeId)%string eqn:E; cbn [id withAngleMode]; rewrite E; reflexivity.
Qed.

(** X10. The change-angle derivation switches angle mode off but leaves the
    angle settings on the source.  Called again on the same source (the
    hook rendered again in between) it derives a second child with the
    same prompt, aspect ratio and resolution, at the same position as the
    first; the store then ends with both, the first untouched as long as
    its identifier was not in use. *)
Theorem angle_regeneration_repeats (w : World) (cb : option GenerateNodeCallback)
  (nodeId : string) (src : NodeData) (settings : AngleSettings) :
  names (nodesState w) nodeId src ->
  angleSettings src = Some settings ->
  freshUUID w ->
  let w1 := exec (handleChangeAngleGenerate (render w cb) nodeId) w in
  let w2 := exec (handleChangeAngleGenerate (render w1 cb) nodeId) w1 in
  exists N1 N2 : NodeData,
    nodesState w2
    = (JS.map (fun n => if (id n =? nodeId)%string
                        then withAngleMode n false else n) (nodesState w)
       ++ [N1; N2])%list
    /\ names (nodesState w2) nodeId (withAngleMode src false)
    /\ angleSettings (withAngleMode src false) = Some settings
    /\ prompt N1 = buildAnglePrompt settings /\ prompt N2 = prompt N1
    /\ aspectRatio N2 = aspectRatio N1 /\ resolution N2 = resolution N1
    /\ parentIds N2 = parentIds N1
    /\ x N2 = x N1 /\ y N2 = y N1.
Proof.
  intros Hsrc Hset Hfresh w1 w2.
  pose proof (names_used _ _ _ Hsrc) as Hused.
  destruct (handleChangeAngleGenerate_children w cb nodeId src settings Hsrc Hset)
    as (N1 & E1 & I1 & P1 & Q1 & A1 & R1 & X1 & Y1).
  fold w1 in E1.
  assert (Hne : id N1 <> nodeId) by (rewrite I1; intro E; apply Hfresh; rewrite E; exact Hused).
  assert (H1 : names (nodesState w1) nodeId (withAngleMode src false))
    by (rewrite E1; apply find_in_front, find_cleared; exact Hsrc).
  destruct (handleChangeAngleGenerate_children w1 cb nodeId (withAngleMode src false)
              settings H1 Hset)
    as (N2 & E2 & I2 & P2 & Q2 & A2 & R2 & X2 & Y2).
  fold w2 in E2.
  assert (E : nodesState w2
              = (JS.map (fun n => if (id n =? nodeId)%string
                                  then withAngleMode n false else n) (nodesState w)
                 ++ [N1; N2])%list).
  { rewrite E2, E1. unfold JS.map at 1. rewrite map_app.
    fold (JS.map (fun n => if (id n =? nodeId)%string
                           then withAngleMode n false else n)
            (JS.map (fun n => if (id n =? nodeId)%string
                              then withAngleMode n false else n) (nodesState w))).
    rewrite clear_twice, <- app_assoc. cbn [List.map app].
    destruct (String.eqb_spec (id N1) nodeId); [contradiction | reflexivity]. }
  exists N1, N2. split; [exact E|].
  split; [rewrite E; apply find_in_front, find_cleared; exact Hsrc|].
  split; [exact Hset|]. split; [exact Q1|]. split; [congruence|].
  split; [rewrite A2, A1; reflexivity|]. split; [rewrite R2, R1; reflexivity|].
  split; [rewrite P2, P1; reflexivity|].
  split; [rewrite X2, X1; reflexivity | rewrite Y2, Y1; reflexivity].
Qed.

Lemma angle_regeneration_repeats_witness :
  names (nodesState exampleWorld) "node-1" exampleNode
  /\ angleSettings exampleNode = Some settingsRight45
  /\ freshUUID exampleWorld
  /\ exists N1 N2 : NodeData,
       nodesState
         (exec (handleChangeAngleGenerate
                  (render (exec (handleChangeAngleGenerate (render exampleWorld None)
                                   "node-1") exampleWorld) None) "node-1")
               (exec (handleChangeAngleGenerate (render exampleWorld None) "node-1")
                  exampleWorld))
       = [withAngleMode exampleNode false; plainNode; N1; N2]
       /\ prompt N2 = prompt N1.
Proof.
  split; [exact exampleWorld_names|]. split; [reflexivity|].
  split; [exact exampleWorld_fresh|].
  destruct (angle_regeneration_repeats exampleWorld None "node-1" exampleNode
              settingsRight45 exampleWorld_names eq_refl exampleWorld_fresh)
    as (N1 & N2 & E & _ & _ & _ & P & _).
  exists N1, N2. split; [exact E | exact P].
Defined.

(* ================================================================== *)
(** ** What a prompt tells about the settings *)
(* ================================================================== *)

Section PromptText.

(** The decimal rendering tells the number. *)
Lemma toString_inj (a b : Z) : JS.toString a = JS.toString b -> a = b.
Proof.
  assert (Hne : forall p, Pos.to_uint p <> Decimal.Nil).
  { intros p E. pose proof (DecimalPos.Unsigned.of_to p) as H.
    rewrite E in H. discriminate H. }
  assert (Hnz : forall p, Pos.to_uint p <> Decimal.D0 Decimal.Nil).
  { intros p E. pose proof (DecimalPos.Unsigned.of_to p) as H.
    rewrite E in H. discriminate H. }
  assert (Hs : forall d, d <> Decimal.Nil ->
                NilZero.string_of_uint d = NilEmpty.string_of_uint d).
  { intros [| | | | | | | | | |] H; try reflexivity. contradiction. }
  assert (Hinj : forall p q,
             NilZero.string_of_uint (Pos.to_uint p)
             = NilZero.string_of_uint (Pos.to_uint q) -> p = q).
  { intros p q E. rewrite !Hs in E by apply Hne.
    apply DecimalPos.Unsigned.to_uint_inj.
    pose proof (NilEmpty.usu (Pos.to_uint p)) as H1.
    pose proof (NilEmpty.usu (Pos.to_uint q)) as H2.
    rewrite E in H1. congruence. }
  assert (Hdig : forall p, exists c t,
             NilZero.string_of_uint (Pos.to_uint p) = String c t
             /\ c <> "-"%char
             /\ (c = "0"%char -> t <> "")).
  { intro p. rewrite Hs by apply Hne.
    pose proof (Hne p) as H1. pose proof (Hnz p) as H2.
    destruct (Pos.to_uint p) as [|u|u|u|u|u|u|u|u|u|u]; [contradiction|..];
      cbn; (eexists; eexists; split; [reflexivity|]; split; [discriminate|]);
      try (intro K; discriminate K).
    intros _ K. destruct u; try discriminate K. contradiction. }
  destruct a as [|p|p], b as [|q|q]; cbn; intro E; try reflexivity.
  - destruct (Hdig q) as (c & t & Es & _ & Hz). rewrite Es in E.
    injection E as <- <-. exfalso. apply Hz; reflexivity.
  - discriminate E.
  - destruct (Hdig p) as (c & t & Es & _ & Hz). rewrite Es in E.
    injection E as -> ->. exfalso. apply Hz; reflexivity.
  - f_equal. exact (Hinj _ _ E).
  - destruct (Hdig p) as (c & t & Es & Hm & _). rewrite Es in E.
    injection E as -> _. contradiction.
  - discriminate E.
  - destruct (Hdig q) as (c & t & Es & Hm & _). rewrite Es in E.
    injection E as <- _. contradiction.
  - injection E as E. f_equal. exact (Hinj _ _ E).
Qed.

Lemma wideSuffix_inj (w w' : bool) : wideSuffix w = wideSuffix w' -> w = w'.
Proof.
  destruct w, w'; cbn; intro H; try reflexivity; discriminate H.
Qed.

Lemma scaleSuffix_inj (b b' : ScaleBucket) (w w' : bool) :
  scaleSuffix b w = scaleSuffix b' w' -> b = b' /\ w = w'.
Proof.
  destruct b, b', w, w'; cbn; intro H; try (split; reflexivity); discriminate H.
Qed.

(** Two sentences that carry a number in front of the degree sign and run
    on alike tell the number, and what follows them. *)
Lemma numbered_sentence_inj (p q : string) (d d' : Z) (u u' : string) :
  (p ++ JS.toString d ++ String (ascii_of_nat 194) q) ++ " " ++ u
  = (p ++ JS.toString d' ++ String (ascii_of_nat 194) q) ++ " " ++ u' ->
  d = d' /\ u = u'.
Proof.
  intro H. rewrite !append_assoc in H. apply append_inj_l in H.
  cbn [append] in H.
  apply append_delimited in H; try (apply toString_avoids; vm_compute; lia).
  destruct H as [Hd H]. apply append_inj_l in H. injection H as H.
  split; [exact (toString_inj _ _ Hd) | exact H].
Qed.

Lemma tiltSuffix_inj (t t' : Z) (b b' : ScaleBucket) (w w' : bool) :
  tiltSuffix t b w = tiltSuffix t' b' w' -> t = t' /\ b = b' /\ w = w'.
Proof.
  unfold tiltSuffix.
  destruct (Z.eqb_spec t 0) as [Z1|Z1], (Z.eqb_spec t' 0) as [Z2|Z2];
    [|destruct (Z.ltb_spec 0 t') as [L2|L2]
     |destruct (Z.ltb_spec 0 t) as [L1|L1]
     |destruct (Z.ltb_spec 0 t) as [L1|L1], (Z.ltb_spec 0 t') as [L2|L2]];
    intro H.
  - apply scaleSuffix_inj in H. intuition congruence.
  - exfalso. destruct b, w; cbn in H; discriminate H.
  - exfalso. destruct b, w; cbn in H; discriminate H.
  - exfalso. destruct b', w'; cbn in H; discriminate H.
  - exfalso. destruct b', w'; cbn in H; discriminate H.
  - unfold tiltUp in H. apply numbered_sentence_inj in H. destruct H as [Hd H].
    apply scaleSuffix_inj in H. intuition lia.
  - exfalso. unfold tiltUp, tiltDown in H. cbn [append] in H. discriminate H.
  - exfalso. unfold tiltUp, tiltDown in H. cbn [append] in H. discriminate H.
  - unfold tiltDown in H. apply numbered_sentence_inj in H. destruct H as [Hd H].
    apply scaleSuffix_inj in H. intuition lia.
Qed.

(** What follows the rotation directive never reads like one. *)
Lemma tiltSuffix_not_rotation (t : Z) (b : ScaleBucket) (w : bool) (d : Z)
  (q u : string) :
  tiltSuffix t b w <> ("Move the camera " ++ JS.toString d ++ q) ++ u.
Proof.
  unfold tiltSuffix. intro H.
  destruct (t =? 0)%Z; [|destruct (0 <? t)%Z].
  - destruct b, w; cbn in H; try discriminate H.
    all: rewrite !append_assoc in H;
      change closerSlight with ("Move the camera " ++ "slightly closer to the subject.") in H;
      cbn [append] in H;
      destruct (toString_head d) as (c & r & E & Hc); rewrite E in H;
      cbn [append] in H; injection H as H; apply Hc; symmetry; exact H.
  - unfold tiltUp in H. cbn [append] in H. discriminate H.
  - unfold tiltDown in H. cbn [append] in H. discriminate H.
Qed.

Lemma rotationSuffix_inj (r r' t t' : Z) (b b' : ScaleBucket) (w w' : bool) :
  rotationSuffix r t b w = rotationSuffix r' t' b' w' ->
  r = r' /\ t = t' /\ b = b' /\ w = w'.
Proof.
  unfold rotationSuffix.
  destruct (Z.eqb_spec r 0) as [Z1|Z1], (Z.eqb_spec r' 0) as [Z2|Z2];
    [|destruct (Z.ltb_spec 0 r') as [L2|L2]
     |destruct (Z.ltb_spec 0 r) as [L1|L1]
     |destruct (Z.ltb_spec 0 r) as [L1|L1], (Z.ltb_spec 0 r') as [L2|L2]];
    intro H.
  - apply tiltSuffix_inj in H. intuition congruence.
  - exfalso. unfold rotateRight in H.
    exact (tiltSuffix_not_rotation _ _ _ _ _ _ H).
  - exfalso. unfold rotateLeft in H.
    exact (tiltSuffix_not_rotation _ _ _ _ _ _ H).
  - exfalso. unfold rotateRight in H.
    exact (tiltSuffix_not_rotation _ _ _ _ _ _ (eq_sym H)).
  - exfalso. unfold rotateLeft in H.
    exact (tiltSuffix_not_rotation _ _ _ _ _ _ (eq_sym H)).
  - unfold rotateRight in H. apply numbered_sentence_inj in H. destruct H as [Hd H].
    apply tiltSuffix_inj in H. intuition lia.
  - exfalso. unfold rotateRight, rotateLeft in H. rewrite !append_assoc in H.
    apply append_inj_l in H. cbn [append] in H.
    apply append_delimited in H; try (apply toString_avoids; vm_compute; lia).
    destruct H as [_ H]. discriminate H.
  - exfalso. unfold rotateRight, rotateLeft in H. rewrite !append_assoc in H.
    apply append_inj_l in H. cbn [append] in H.
    apply append_delimited in H; try (apply toString_avoids; vm_compute; lia).
    destruct H as [_ H]. discriminate H.
  - unfold rotateLeft in H. apply numbered_sentence_inj in H. destruct H as [Hd H].
    apply tiltSuffix_inj in H. intuition lia.
Qed.

End PromptText.

(** X11. The prompt tells the rotation, the tilt and the wide-angle switch,
    and of the scale only whether it is above 50, between 1 and 50, or not
    above 0: two settings give the same prompt exactly when they agree on
    these. *)
Theorem prompt_tells_settings_up_to_scale_bucket (s s' : AngleSettings) :
  buildAnglePrompt s = buildAnglePrompt s'
  <-> rotation s = rotation s' /\ tilt s = tilt s'
      /\ scaleBucket (scale s) = scaleBucket (scale s')
      /\ wideAngle s = wideAngle s'.
Proof.
  rewrite !buildAnglePrompt_text. unfold promptText. split.
  - intro H. apply append_inj_l in H. apply append_inj_l in H.
    exact (rotationSuffix_inj _ _ _ _ _ _ _ _ H).
  - intros (-> & -> & -> & ->). reflexivity.
Qed.

Lemma prompt_tells_settings_up_to_scale_bucket_witness :
  buildAnglePrompt settingsMixed
  = buildAnglePrompt {| rotation := -30; tilt := 20; scale := 100; wideAngle := true |}
  /\ buildAnglePrompt settingsMixed
     <> buildAnglePrompt {| rotation := -30; tilt := 20; scale := 50; wideAngle := true |}.
Proof.
  split.
  - apply (prompt_tells_settings_up_to_scale_bucket settingsMixed). repeat split.
  - intro H. apply (prompt_tells_settings_up_to_scale_bucket settingsMixed) in H.
    destruct H as (_ & _ & H & _). discriminate H.
Defined.

(* ================================================================== *)
(** ** The shape of the menu state *)
(* ================================================================== *)

Lemma step_keeps_menu_shape (contextMenu : Menu.ContextMenuState) (c : Menu.Call) :
  isHandlerCall c = true ->
  menuFitsType contextMenu = true ->
  menuFitsType (Menu.step contextMenu c) = true.
Proof.
  intros Hc H.
  destruct c as [|e|e|e|dispatcher viewport choice|window nodeId direction|e nodeId|value];
    cbn [Menu.step]; try discriminate Hc.
  - exact H.
  - unfold Menu.handleDoubleClick.
    destruct (Menu.targetId e =? "canvas-background")%string; [reflexivity | exact H].
  - unfold Menu.handleGlobalContextMenu. cbn.
    destruct (Menu.targetId e =? "canvas-background")%string; [reflexivity | exact H].
  - reflexivity.
  - unfold Menu.handleContextMenuSelect.
    destruct (dispatcher choice contextMenu viewport); exact H.
  - reflexivity.
  - reflexivity.
Qed.

(** X12. Whatever handlers of the hook are called, in whatever order, the
    menu state fits its type: [sourceNodeId] is set exactly for the two node
    menus and [connectorSide] exactly for the node-connector menu, also
    after closing, when the fields are those of the menu last opened. *)
Theorem menu_state_fits_its_type (calls : list Menu.Call) :
  forallb isHandlerCall calls = true ->
  menuFitsType (Menu.run calls) = true.
Proof.
  unfold Menu.run.
  assert (G : forall st, menuFitsType st = true ->
              forallb isHandlerCall calls = true ->
              menuFitsType (fold_left Menu.step calls st) = true).
  { induction calls as [|c calls IH]; intros st Hst Hall; [exact Hst|].
    cbn in Hall. apply andb_true_iff in Hall. destruct Hall as [Hc Hall].
    cbn [fold_left]. apply IH; [|exact Hall].
    apply step_keeps_menu_shape; assumption. }
  intro H. apply G; [reflexivity | exact H].
Qed.

Lemma menu_state_fits_its_type_witness :
  forallb isHandlerCall
    [Menu.CallOpenConnectorMenu {| Menu.innerWidth := 1280; Menu.innerHeight := 720 |}
       "node-1" Menu.right;
     Menu.CallGlobalContextMenu backgroundClick; Menu.CallClose] = true
  /\ menuFitsType
       (Menu.run
          [Menu.CallOpenConnectorMenu {| Menu.innerWidth := 1280; Menu.innerHeight := 720 |}
             "node-1" Menu.right;
           Menu.CallGlobalContextMenu backgroundClick; Menu.CallClose]) = true.
Proof.
  split; [reflexivity|].
  apply menu_state_fits_its_type. reflexivity.
Defined.

(* ================================================================== *)
(** ** Properties of the face detection hook *)
(* ================================================================== *)

Section FaceLoader.

Import Face.

Lemma in_setIsModelLoaded (i : nat) (v : bool) (l : list Instance) (inst : Instance) :
  In inst (setIsModelLoaded i v l) -> In inst l \/ isModelLoaded inst = v.
Proof.
  unfold setIsModelLoaded. destruct (nth_error l i) as [old|] eqn:E; [|auto].
  intro H. apply in_app_or in H. destruct H as [H|[H|H]].
  - left. rewrite <- (firstn_skipn i l). apply in_or_app. left. exact H.
  - right. subst inst. reflexivity.
  - left. rewrite <- (firstn_skipn (S i) l). apply in_or_app. right. exact H.
Qed.

Lemma length_setIsModelLoaded (i : nat) (v : bool) (l : list Instance) :
  List.length (setIsModelLoaded i v l) = List.length l.
Proof.
  unfold setIsModelLoaded. destruct (nth_error l i) as [old|] eqn:E; [|reflexivity].
  assert (Hi : (i < List.length l)%nat) by (apply nth_error_Some; congruence).
  rewrite length_app, length_firstn. cbn [List.length]. rewrite length_skipn. lia.
Qed.

Lemma nth_setIsModelLoaded_other (i j : nat) (v : bool) (l : list Instance) :
  i <> j -> nth_error (setIsModelLoaded j v l) i = nth_error l i.
Proof.
  intro Hij. unfold setIsModelLoaded.
  destruct (nth_error l j) as [old|] eqn:E; [|reflexivity].
  assert (Hj : (j < List.length l)%nat) by (apply nth_error_Some; congruence).
  destruct (Nat.lt_ge_cases i j) as [L|G].
  - rewrite nth_error_app1 by (rewrite length_firstn; lia).
    rewrite nth_error_firstn. destruct (Nat.ltb_spec i j); [reflexivity | lia].
  - rewrite nth_error_app2 by (rewrite length_firstn; lia).
    rewrite length_firstn, Nat.min_l by lia.
    destruct (i - j)%nat as [|d] eqn:D; [lia|]. cbn [nth_error].
    rewrite nth_error_skipn. f_equal. lia.
Qed.

Lemma pending_single (w : World) (k i : nat) :
  (List.length (pendingLoads w) <= 1)%nat ->
  nth_error (pendingLoads w) k = Some i ->
  pendingLoads w = [i] /\ k = 0%nat.
Proof.
  intros Hl E. destruct (pendingLoads w) as [|a [|b l]]; cbn in Hl.
  - destruct k; discriminate E.
  - destruct k as [|k]; [injection E as ->; auto | destruct k; discriminate E].
  - lia.
Qed.

Lemma step_consistent (w : World) (e : Event) :
  consistent w -> consistent (step w e).
Proof.
  intros (Hlen & Hload & Hexcl & Hinst).
  assert (Hw : consistent w) by (repeat split; auto; apply Hload).
  destruct e as [|i|k|k]; cbn [step].
  - split; [exact Hlen|]. split; [exact Hload|]. split; [exact Hexcl|].
    cbn [render instances modelsLoaded]. intros inst H.
    apply in_app_or in H. destruct H as [H|[<-|[]]]; [exact (Hinst _ H) | auto].
  - destruct (i <? List.length (instances w))%nat; [|exact Hw].
    unfold loadModels.
    destruct (modelsLoaded w) eqn:EL; cbn [orb].
    + unfold consistent. cbn [pendingLoads modelsLoading modelsLoaded instances].
      split; [exact Hlen|]. split; [exact Hload|].
      split; [intros _; apply Hexcl; reflexivity | intros; reflexivity].
    + destruct (modelsLoading w) eqn:EG; [exact Hw|].
      assert (Hp : pendingLoads w = []).
      { destruct (pendingLoads w) as [|a l] eqn:P; [reflexivity|].
        assert (K : false = true) by (apply Hload; discriminate).
        discriminate K. }
      unfold consistent.
      cbn [pendingLoads modelsLoading modelsLoaded instances]. rewrite Hp.
      split; [cbn; lia|]. split; [split; [discriminate | reflexivity]|].
      split; [discriminate|].
      exact Hinst.
  - destruct (nth_error (pendingLoads w) k) as [i|] eqn:E; [|exact Hw].
    destruct (pending_single w k i Hlen E) as [Hp ->].
    unfold consistent, loadModelsResolved, withoutPending.
    cbn [pendingLoads modelsLoading modelsLoaded instances]. rewrite Hp.
    split; [cbn; lia|]. split; [split; [discriminate | intro K; contradiction]|].
    split; reflexivity.
  - destruct (nth_error (pendingLoads w) k) as [i|] eqn:E; [|exact Hw].
    destruct (pending_single w k i Hlen E) as [Hp ->].
    unfold consistent, loadModelsRejected, withoutPending.
    cbn [pendingLoads modelsLoading modelsLoaded instances]. rewrite Hp.
    split; [cbn; lia|]. split; [split; [discriminate | intro K; contradiction]|].
    split; [reflexivity | exact Hinst].
Qed.

Lemma run_consistent (events : list Event) (w : World) :
  consistent w -> consistent (run events w).
Proof.
  unfold run. revert w. induction events as [|e events IH]; intros w H; [exact H|].
  cbn [fold_left]. apply IH. apply step_consistent. exact H.
Qed.

Lemma initial_consistent : consistent initialWorld.
Proof.
  unfold consistent, initialWorld; cbn.
  split; [lia|]. split; [split; [discriminate | intro K; contradiction]|].
  split; [discriminate | intros inst []].
Qed.

End FaceLoader.

(** X13. However many components use the hook and however their mount
    effects and the loads interleave, at most one load of the models is in
    flight at a time; [modelsLoading] is up exactly while one is;
    [modelsLoaded] and [modelsLoading] are never both up; and no component
    reports the models loaded before they are. *)
Theorem face_loader_consistent (events : list Face.Event) :
  let w := Face.run events Face.initialWorld in
  (List.length (Face.pendingLoads w) <= 1)%nat
  /\ (Face.modelsLoading w = true <-> Face.pendingLoads w <> [])
  /\ (Face.modelsLoaded w = true -> Face.modelsLoading w = false)
  /\ (forall inst, In inst (Face.instances w) ->
        Face.isModelLoaded inst = true -> Face.modelsLoaded w = true).
Proof.
  exact (run_consistent events Face.initialWorld initial_consistent).
Qed.

Section FaceLifecycle.

Import Face.

Lemma loaded_step (w : World) (e : Event) :
  consistent w -> modelsLoaded w = true ->
  modelsLoaded (step w e) = true /\ loadsStarted (step w e) = loadsStarted w.
Proof.
  intros (Hlen & Hload & Hexcl & _) HL.
  assert (Hp : pendingLoads w = []).
  { destruct (pendingLoads w) as [|a l] eqn:P; [reflexivity|].
    assert (K : modelsLoading w = true) by (apply Hload; discriminate).
    rewrite (Hexcl HL) in K. discriminate K. }
  destruct e as [|i|k|k]; cbn [step].
  - auto.
  - destruct (i <? List.length (instances w))%nat; [|auto].
    unfold loadModels. rewrite HL. cbn. auto.
  - rewrite Hp. destruct k; auto.
  - rewrite Hp. destruct k; auto.
Qed.

Lemma loaded_run (events : list Event) (w : World) :
  consistent w -> modelsLoaded w = true ->
  modelsLoaded (run events w) = true /\ loadsStarted (run events w) = loadsStarted w.
Proof.
  unfold run. revert w. induction events as [|e events IH]; intros w Hc HL; [auto|].
  cbn [fold_left]. destruct (loaded_step w e Hc HL) as [H1 H2].
  destruct (IH (step w e) (step_consistent w e Hc) H1) as [K1 K2].
  split; [exact K1 | congruence].
Qed.

Lemma failed_retry (w : World) (i : nat) :
  consistent w -> modelsLoading w = true ->
  (i < List.length (instances w))%nat ->
  modelsLoaded (run [LoadRejected 0; MountEffect i] w) = false
  /\ modelsLoading (run [LoadRejected 0; MountEffect i] w) = true
  /\ pendingLoads (run [LoadRejected 0; MountEffect i] w) = [i]
  /\ loadsStarted (run [LoadRejected 0; MountEffect i] w) = S (loadsStarted w).
Proof.
  intros (Hlen & Hload & Hexcl & _) HG Hi.
  assert (HL : modelsLoaded w = false).
  { destruct (modelsLoaded w) eqn:E; [|reflexivity].
    rewrite (Hexcl eq_refl) in HG. discriminate HG. }
  assert (Hne : pendingLoads w <> []) by (apply Hload; exact HG).
  destruct (pendingLoads w) as [|j [|b l]] eqn:P;
    [contradiction | | cbn in Hlen; lia].
  apply Nat.ltb_lt in Hi.
  unfold run. cbn [fold_left step]. rewrite P. cbn [nth_error].
  change (instances (loadModelsRejected j (withoutPending 0 w))) with (instances w).
  rewrite Hi. unfold loadModels.
  change (modelsLoaded (loadModelsRejected j (withoutPending 0 w)))
    with (modelsLoaded w).
  change (modelsLoading (loadModelsRejected j (withoutPending 0 w))) with false.
  rewrite HL. cbn [orb modelsLoaded modelsLoading pendingLoads loadsStarted].
  unfold loadModelsRejected, withoutPending. cbn [pendingLoads loadsStarted].
  rewrite P. auto.
Qed.

Lemma step_frame (w : World) (i : nat) (e : Event) :
  (i < List.length (instances w))%nat ->
  ~ In i (pendingLoads w) ->
  e <> MountEffect i ->
  reportsLoaded (step w e) i = reportsLoaded w i
  /\ (i < List.length (instances (step w e)))%nat
  /\ ~ In i (pendingLoads (step w e)).
Proof.
  intros Hi Hp He. unfold reportsLoaded.
  destruct e as [|j|k|k]; cbn [step].
  - cbn [render instances pendingLoads]. rewrite nth_error_app1 by exact Hi.
    rewrite length_app. cbn. split; [reflexivity|]. split; [lia | exact Hp].
  - assert (Hij : i <> j) by (intro E; apply He; rewrite E; reflexivity).
    destruct (j <? List.length (instances w))%nat; [|auto].
    unfold loadModels.
    destruct (modelsLoaded w); cbn [orb].
    + cbn [instances pendingLoads].
      rewrite nth_setIsModelLoaded_other by exact Hij.
      rewrite length_setIsModelLoaded. auto.
    + destruct (modelsLoading w); [auto|].
      cbn [instances pendingLoads]. split; [reflexivity|]. split; [exact Hi|].
      intro K. apply in_app_or in K. destruct K as [K|[K|[]]]; [auto | lia].
  - destruct (nth_error (pendingLoads w) k) as [j|] eqn:E; [|auto].
    assert (Hij : i <> j) by (intro K; subst j; apply Hp; exact (nth_error_In _ _ E)).
    unfold loadModelsResolved, withoutPending. cbn [instances pendingLoads].
    rewrite nth_setIsModelLoaded_other by exact Hij.
    rewrite length_setIsModelLoaded. split; [reflexivity|]. split; [exact Hi|].
    intro K. apply Hp. apply in_app_or in K. destruct K as [K|K].
    + rewrite <- (firstn_skipn k (pendingLoads w)). apply in_or_app. left. exact K.
    + rewrite <- (firstn_skipn (S k) (pendingLoads w)). apply in_or_app. right. exact K.
  - destruct (nth_error (pendingLoads w) k) as [j|] eqn:E; [|auto].
    unfold loadModelsRejected, withoutPending. cbn [instances pendingLoads].
    split; [reflexivity|]. split; [exact Hi|].
    intro K. apply Hp. apply in_app_or in K. destruct K as [K|K].
    + rewrite <- (firstn_skipn k (pendingLoads w)). apply in_or_app. left. exact K.
    + rewrite <- (firstn_skipn (S k) (pendingLoads w)). apply in_or_app. right. exact K.
Qed.

Lemma run_frame (events : list Event) (w : World) (i : nat) :
  (i < List.length (instances w))%nat ->
  ~ In i (pendingLoads w) ->
  Forall (fun e => e <> MountEffect i) events ->
  reportsLoaded (run events w) i = reportsLoaded w i.
Proof.
  unfold run. revert w. induction events as [|e events IH]; intros w Hi Hp Hall.
  - reflexivity.
  - inversion Hall as [|? ? He Hrest]; subst. cbn [fold_left].
    destruct (step_frame w i e Hi Hp He) as (E & Hi' & Hp').
    rewrite (IH _ Hi' Hp' Hrest). exact E.
Qed.

Lemma loadingWorld_reachable : faceReachable loadingWorld.
Proof. eexists. reflexivity. Qed.

End FaceLifecycle.

(** X14. Once the models are loaded they stay loaded and are never loaded
    again: from a reachable state with [modelsLoaded] up, no sequence of
    renderings, mount effects and load results lowers the flag or starts
    another load.  A load that fails, on the other hand, is not final: the
    next mount effect starts a new one. *)
Theorem face_models_load_once (w : Face.World) :
  faceReachable w ->
  (Face.modelsLoaded w = true ->
   forall events,
     Face.modelsLoaded (Face.run events w) = true
     /\ Face.loadsStarted (Face.run events w) = Face.loadsStarted w)
  /\ (Face.modelsLoading w = true ->
      forall i, (i < List.length (Face.instances w))%nat ->
        let w' := Face.run [Face.LoadRejected 0; Face.MountEffect i] w in
        Face.modelsLoaded w' = false
        /\ Face.modelsLoading w' = true
        /\ Face.pendingLoads w' = [i]
        /\ Face.loadsStarted w' = S (Face.loadsStarted w)).
Proof.
  intros [evs ->].
  pose proof (run_consistent evs Face.initialWorld initial_consistent) as Hc.
  set (w := Face.run evs Face.initialWorld) in *.
  split.
  - intros HL events. exact (loaded_run events w Hc HL).
  - intros HG i Hi. exact (failed_retry w i Hc HG Hi).
Qed.

Lemma face_models_load_once_witness :
  faceReachable loadingWorld
  /\ Face.modelsLoading loadingWorld = true
  /\ Face.loadsStarted
       (Face.run [Face.LoadRejected 0; Face.MountEffect 1] loadingWorld) = 2%nat
  /\ Face.modelsLoaded
       (Face.run [Face.MountEffect 1; Face.LoadRejected 0; Face.Render]
          (Face.run [Face.LoadResolved 0] loadingWorld)) = true.
Proof.
  split; [exact loadingWorld_reachable|]. split; [reflexivity|].
  split.
  - destruct (face_models_load_once loadingWorld loadingWorld_reachable) as [_ H].
    destruct (H eq_refl 1%nat) as (_ & _ & _ & E); [cbn; lia | exact E].
  - assert (R : faceReachable (Face.run [Face.LoadResolved 0] loadingWorld))
      by (exists [Face.Render; Face.Render; Face.MountEffect 0; Face.LoadResolved 0];
          reflexivity).
    destruct (face_models_load_once _ R) as [H _].
    exact (proj1 (H eq_refl _)).
Defined.

(** X15. A component whose mount effect runs while another component's load
    is in flight is never told the outcome: its effect returns at once, and
    whatever happens afterwards (the load succeeding included), its
    [isModelLoaded] stays what it was until its own effect runs again. *)
Theorem face_late_mount_is_not_told (w : Face.World) (i : nat)
  (events : list Face.Event) :
  (i < List.length (Face.instances w))%nat ->
  Face.modelsLoaded w = false ->
  Face.modelsLoading w = true ->
  ~ In i (Face.pendingLoads w) ->
  Forall (fun e => e <> Face.MountEffect i) events ->
  reportsLoaded (Face.run (Face.MountEffect i :: events) w) i = reportsLoaded w i.
Proof.
  intros Hi HL HG Hp Hall.
  assert (E : Face.step w (Face.MountEffect i) = w).
  { cbn [Face.step]. assert (Hb := Hi). apply Nat.ltb_lt in Hb. rewrite Hb.
    unfold Face.loadModels. rewrite HG, HL. reflexivity. }
  unfold Face.run. cbn [fold_left]. rewrite E.
  exact (run_frame events w i Hi Hp Hall).
Qed.

Lemma face_late_mount_is_not_told_witness :
  (1 < List.length (Face.instances loadingWorld))%nat
  /\ Face.modelsLoaded loadingWorld = false
  /\ Face.modelsLoading loadingWorld = true
  /\ ~ In 1%nat (Face.pendingLoads loadingWorld)
  /\ Face.modelsLoaded
       (Face.run [Face.MountEffect 1; Face.LoadResolved 0; Face.Render] loadingWorld)
     = true
  /\ reportsLoaded
       (Face.run [Face.MountEffect 1; Face.LoadResolved 0; Face.Render] loadingWorld) 1
     = Some false.
Proof.
  assert (H1 : (1 < List.length (Face.instances loadingWorld))%nat) by (cbn; lia).
  assert (H2 : ~ In 1%nat (Face.pendingLoads loadingWorld))
    by (cbn; intros [K|[]]; discriminate K).
  split; [exact H1|]. split; [reflexivity|]. split; [reflexivity|].
  split; [exact H2|]. split; [reflexivity|].
  rewrite (face_late_mount_is_not_told loadingWorld 1
             [Face.LoadResolved 0; Face.Render] H1 eq_refl eq_refl H2).
  - reflexivity.
  - repeat constructor; discriminate.
Defined.

Lemma face_loader_consistent_witness :
  Face.pendingLoads
    (Face.run [Face.Render; Face.MountEffect 0; Face.Render; Face.MountEffect 1;
               Face.MountEffect 0] Face.initialWorld) = [0%nat]
  /\ (List.length
        (Face.pendingLoads
           (Face.run [Face.Render; Face.MountEffect 0; Face.Render; Face.MountEffect 1;
                      Face.MountEffect 0] Face.initialWorld)) <= 1)%nat.
Proof.
  split; [reflexivity|].
  exact (proj1 (face_loader_consistent
                  [Face.Render; Face.MountEffect 0; Face.Render; Face.MountEffect 1;
                   Face.MountEffect 0])).
Defined.

Lemma detect_idle_flag_down (events : list DetectEvent) (s : DetectState) :
  (inFlight s = 0%nat -> loadingFlag s = false) ->
  inFlight (fold_left detectStep events s) = 0%nat ->
  loadingFlag (fold_left detectStep events s) = false.
Proof.
  revert s. induction events as [|e events IH]; intros s Hs; [exact Hs|].
  cbn [fold_left]. apply IH.
  destruct e as [loaded|]; cbn [detectStep].
  - destruct loaded; cbn [negb]; [cbn; discriminate | exact Hs].
  - destruct (inFlight s) as [|n] eqn:E; [rewrite E; exact Hs | reflexivity].
Qed.

(** X17. The loading flag of a component cannot stick: after any sequence
    of [detectFaces] calls starting and ending, if no call is in flight the
    flag is down.  It is no counter, though: the end of any call lowers it,
    also while other calls on the component are still in flight; and a call
    made while the models are not loaded never raises it. *)
Theorem detect_loading_flag (events : list DetectEvent) :
  (inFlight (detectRun events) = 0%nat -> loadingFlag (detectRun events) = false)
  /\ (forall n, inFlight (detectRun events) = S n ->
        loadingFlag (detectRun (events ++ [DetectEnd])) = false
        /\ inFlight (detectRun (events ++ [DetectEnd])) = n)
  /\ detectRun (events ++ [DetectStart false]) = detectRun events.
Proof.
  unfold detectRun. split; [|split].
  - apply detect_idle_flag_down. reflexivity.
  - intros n H. rewrite fold_left_app. cbn [fold_left detectStep]. rewrite H.
    split; reflexivity.
  - rewrite fold_left_app. reflexivity.
Qed.

Lemma detect_loading_flag_witness :
  inFlight (detectRun [DetectStart true; DetectStart true]) = 2%nat
  /\ loadingFlag (detectRun ([DetectStart true; DetectStart true] ++ [DetectEnd])) = false
  /\ inFlight (detectRun ([DetectStart true; DetectStart true] ++ [DetectEnd])) = 1%nat.
Proof.
  assert (H : inFlight (detectRun [DetectStart true; DetectStart true]) = 2%nat)
    by reflexivity.
  destruct (detect_loading_flag [DetectStart true; DetectStart true]) as (_ & K & _).
  destruct (K 1%nat H) as [K1 K2].
  split; [exact H|]. split; [exact K1 | exact K2].
Defined.

(* ================================================================== *)
(** ** The post-to-X modal *)
(* ================================================================== *)

Lemma trimStart_suffix (t : Text.text) :
  exists front, t = (front ++ Text.trimStart t)%list.
Proof.
  induction t as [|c t IH]; simpl.
  - exists []. reflexivity.
  - destruct (Text.isWhiteSpace c).
    + destruct IH as [front IH]. exists (c :: front). simpl. congruence.
    + exists []. reflexivity.
Qed.

Lemma trimStart_head (t : Text.text) (c : Text.CodeUnit) (rest : Text.text) :
  Text.trimStart t = c :: rest -> Text.isWhiteSpace c = false.
Proof.
  induction t as [|d t IH]; simpl; [discriminate|].
  destruct (Text.isWhiteSpace d) eqn:E; [exact IH|].
  intros H. injection H as -> _. exact E.
Qed.

Lemma trimEnd_prefix (t : Text.text) :
  exists back, t = (Text.trimEnd t ++ back)%list.
Proof.
  unfold Text.trimEnd.
  destruct (trimStart_suffix (rev t)) as [front H].
  exists (rev front).
  rewrite <- rev_app_distr, <- H, rev_involutive. reflexivity.
Qed.

Lemma trim_first (t : Text.text) (c : Text.CodeUnit) (rest : Text.text) :
  Text.trim t = c :: rest -> Text.isWhiteSpace c = false.
Proof.
  unfold Text.trim. intros H.
  destruct (trimEnd_prefix (Text.trimStart t)) as [back E].
  rewrite H in E. simpl in E.
  exact (trimStart_head _ _ _ E).
Qed.

Lemma trim_last (t : Text.text) (c : Text.CodeUnit) (front : Text.text) :
  Text.trim t = (front ++ [c])%list -> Text.isWhiteSpace c = false.
Proof.
  unfold Text.trim, Text.trimEnd. intros H.
  apply (f_equal (@rev _)) in H.
  rewrite rev_involutive, rev_app_distr in H. simpl in H.
  exact (trimStart_head _ _ _ H).
Qed.

Lemma trim_length (t : Text.text) : (Text.length (Text.trim t) <= Text.length t)%Z.
Proof.
  unfold Text.length, Text.trim.
  destruct (trimEnd_prefix (Text.trimStart t)) as [back E].
  destruct (trimStart_suffix t) as [front F].
  apply (f_equal (@List.length _)) in E, F.
  rewrite length_app in E, F. lia.
Qed.

Lemma truthy_true (t : Text.text) : Text.truthy t = true <-> t <> [].
Proof. destruct t; simpl; split; congruence. Qed.

Lemma present_true (o : option string) :
  Twitter.present o = true <-> exists s, o = Some s /\ s <> "".
Proof.
  destruct o as [s|]; simpl.
  - destruct (String.eqb_spec s ""); simpl; split.
    + discriminate.
    + intros [s' [E N]]. injection E as <-. contradiction.
    + intros _. exists s. split; [reflexivity | assumption].
    + reflexivity.
  - split; [discriminate | intros [s [E _]]; discriminate].
Qed.

Lemma isOverLimit_false (s : Twitter.State) :
  Twitter.isOverLimit s = false <-> (Text.length (Twitter.tweetText s) <= 280)%Z.
Proof.
  unfold Twitter.isOverLimit, Twitter.charsRemaining, Twitter.MAX_CHARS.
  destruct (Z.ltb_spec (280 - Text.length (Twitter.tweetText s)) 0); split; intros; try lia;
    try discriminate; reflexivity.
Qed.

(** What [handlePost] does when all its guards pass. *)
Lemma handlePost_sends (props : Twitter.Props) (skipMedia : bool) (w : Twitter.World) :
  Twitter.present (Twitter.sessionId (Twitter.state w)) = true ->
  Twitter.isOverLimit (Twitter.state w) = false ->
  skipMedia || Twitter.present (Twitter.mediaUrl props) = true ->
  Text.truthy (Text.trim (Twitter.tweetText (Twitter.state w))) = true ->
  exists sid,
    Twitter.sessionId (Twitter.state w) = Some sid /\
    Twitter.handlePost props skipMedia w
    = {| Twitter.state :=
           {| Twitter.tweetText := Twitter.tweetText (Twitter.state w);
              Twitter.status := Twitter.posting; Twitter.errorText := None;
              Twitter.tweetUrl := Twitter.tweetUrl (Twitter.state w);
              Twitter.user := Twitter.user (Twitter.state w);
              Twitter.sessionId := Twitter.sessionId (Twitter.state w) |};
         Twitter.localStorage := Twitter.localStorage w;
         Twitter.posts :=
           (Twitter.posts w
            ++ [ {| Twitter.session := sid;
                    Twitter.text := Text.trim (Twitter.tweetText (Twitter.state w));
                    Twitter.media :=
                      if skipMedia then None
                      else option_map (fun url => (url, Twitter.mediaType props))
                                      (Twitter.mediaUrl props) |} ])%list;
         Twitter.statusChecks := Twitter.statusChecks w |}.
Proof.
  intros HS HL HM HT.
  destruct (Twitter.sessionId (Twitter.state w)) as [sid|] eqn:ES; [|discriminate HS].
  exists sid. split; [reflexivity|].
  unfold Twitter.handlePost. cbv zeta.
  rewrite ES, HS, HL, HT. cbn [negb orb].
  destruct skipMedia; cbn [negb andb orb] in *.
  - reflexivity.
  - rewrite HM. cbn [negb].
    destruct (Twitter.mediaUrl props); [reflexivity | discriminate HM].
Qed.

(** What [handlePost] does when one of its guards fails. *)
Lemma handlePost_refuses (props : Twitter.Props) (skipMedia : bool) (w : Twitter.World) :
  Twitter.present (Twitter.sessionId (Twitter.state w))
  && negb (Twitter.isOverLimit (Twitter.state w))
  && (skipMedia || Twitter.present (Twitter.mediaUrl props))
  && Text.truthy (Text.trim (Twitter.tweetText (Twitter.state w))) = false ->
  let w' := Twitter.handlePost props skipMedia w in
  Twitter.posts w' = Twitter.posts w /\
  Twitter.localStorage w' = Twitter.localStorage w /\
  Twitter.statusChecks w' = Twitter.statusChecks w /\
  Twitter.status (Twitter.state w') = Twitter.status (Twitter.state w) /\
  Twitter.tweetText (Twitter.state w') = Twitter.tweetText (Twitter.state w) /\
  Twitter.tweetUrl (Twitter.state w') = Twitter.tweetUrl (Twitter.state w) /\
  Twitter.user (Twitter.state w') = Twitter.user (Twitter.state w) /\
  Twitter.sessionId (Twitter.state w') = Twitter.sessionId (Twitter.state w).
Proof.
  intros H. cbv zeta. unfold Twitter.handlePost. cbv zeta.
  destruct (Twitter.present (Twitter.sessionId (Twitter.state w))); cbn [negb orb andb] in *;
    [|repeat split].
  destruct (Twitter.isOverLimit (Twitter.state w)); cbn [negb orb andb] in *;
    [repeat split|].
  destruct skipMedia; cbn [negb orb andb] in *.
  - rewrite H. cbn. repeat split.
  - destruct (Twitter.present (Twitter.mediaUrl props)); cbn [negb orb andb] in *;
      [|repeat split].
    rewrite H. cbn. repeat split.
Qed.

(** X18. [handlePost] sends a request exactly when a session is present,
    the text as typed has at most 280 code units, there is media unless it
    is skipped, and the text is not blank.  The request then carries the
    session of the state and the trimmed text, which is not empty, has at
    most 280 code units and neither begins nor ends with white space, and
    the media exactly when it is not skipped; the status becomes
    [posting] and the error is cleared.  In every other case nothing is
    sent and nothing but the error message changes. *)
Theorem handlePost_sends_what_the_guards_allow
    (props : Twitter.Props) (skipMedia : bool) (w : Twitter.World) :
  let s := Twitter.state w in
  let w' := Twitter.handlePost props skipMedia w in
  let allowed :=
    (exists sid, Twitter.sessionId s = Some sid /\ sid <> "") /\
    (Text.length (Twitter.tweetText s) <= 280)%Z /\
    (skipMedia = true \/ exists url, Twitter.mediaUrl props = Some url /\ url <> "") /\
    Text.trim (Twitter.tweetText s) <> [] in
  (allowed ->
   exists r,
     Twitter.posts w' = (Twitter.posts w ++ [r])%list /\
     Twitter.sessionId s = Some (Twitter.session r) /\
     Twitter.text r = Text.trim (Twitter.tweetText s) /\
     Twitter.text r <> [] /\
     (Text.length (Twitter.text r) <= 280)%Z /\
     (forall c rest, Twitter.text r = c :: rest -> Text.isWhiteSpace c = false) /\
     (forall c front, Twitter.text r = (front ++ [c])%list -> Text.isWhiteSpace c = false) /\
     Twitter.media r
     = (if skipMedia then None
        else option_map (fun url => (url, Twitter.mediaType props)) (Twitter.mediaUrl props)) /\
     (skipMedia = false -> Twitter.media r <> None) /\
     Twitter.status (Twitter.state w') = Twitter.posting /\
     Twitter.errorText (Twitter.state w') = None /\
     Twitter.tweetText (Twitter.state w') = Twitter.tweetText s) /\
  (~ allowed ->
   Twitter.posts w' = Twitter.posts w /\
   Twitter.localStorage w' = Twitter.localStorage w /\
   Twitter.status (Twitter.state w') = Twitter.status s /\
   Twitter.tweetText (Twitter.state w') = Twitter.tweetText s /\
   Twitter.tweetUrl (Twitter.state w') = Twitter.tweetUrl s /\
   Twitter.user (Twitter.state w') = Twitter.user s /\
   Twitter.sessionId (Twitter.state w') = Twitter.sessionId s).
Proof.
  cbv zeta. split.
  - intros (HS & HL & HM & HT).
    apply present_true in HS. apply isOverLimit_false in HL.
    apply truthy_true in HT.
    assert (HM' : skipMedia || Twitter.present (Twitter.mediaUrl props) = true).
    { destruct HM as [-> | HM]; [reflexivity|].
      apply present_true in HM. rewrite HM. apply orb_true_r. }
    destruct (handlePost_sends props skipMedia w HS HL HM' HT) as (sid & ES & E).
    rewrite E. cbn.
    eexists. split; [reflexivity|]. cbn.
    split; [exact ES|]. split; [reflexivity|].
    split; [apply truthy_true; exact HT|].
    split.
    { apply isOverLimit_false in HL.
      pose proof (trim_length (Twitter.tweetText (Twitter.state w))). lia. }
    split; [intros c rest; apply trim_first|].
    split; [intros c front; apply trim_last|].
    split; [reflexivity|].
    split; [|repeat split].
    intros ->. cbn in HM'. apply present_true in HM'.
    destruct HM' as (url & -> & _). discriminate.
  - intros HN.
    assert (G : Twitter.present (Twitter.sessionId (Twitter.state w))
                && negb (Twitter.isOverLimit (Twitter.state w))
                && (skipMedia || Twitter.present (Twitter.mediaUrl props))
                && Text.truthy (Text.trim (Twitter.tweetText (Twitter.state w))) = false).
    { destruct (_ && _ && _ && _) eqn:G; [|reflexivity].
      exfalso. apply HN.
      apply andb_prop in G. destruct G as [G HT].
      apply andb_prop in G. destruct G as [G HM].
      apply andb_prop in G. destruct G as [HS HL].
      split; [apply present_true; exact HS|].
      split; [apply isOverLimit_false; destruct (Twitter.isOverLimit _);
              [discriminate HL | reflexivity]|].
      split; [|apply truthy_true; exact HT].
      destruct skipMedia; [left; reflexivity|].
      right. apply present_true. exact HM. }
    pose proof (handlePost_refuses props skipMedia w G) as R. cbv zeta in R.
    destruct R as (R1 & R2 & _ & R3 & R4 & R5 & R6 & R7).
    repeat split; assumption.
Qed.

Lemma handlePost_sends_what_the_guards_allow_witness :
  Twitter.posts (Twitter.handlePost exampleProps false exampleModal)
  = [ {| Twitter.session := "abc"; Twitter.text := [104; 105]%N;
         Twitter.media := Some ("/library/cat.png", Twitter.image) |} ]
  /\ exists r,
       Twitter.posts (Twitter.handlePost exampleProps false exampleModal)
       = (Twitter.posts exampleModal ++ [r])%list
       /\ (Text.length (Twitter.text r) <= 280)%Z.
Proof.
  split; [reflexivity|].
  destruct (handlePost_sends_what_the_guards_allow exampleProps false exampleModal)
    as [Sent _].
  destruct Sent as (r & E & _ & _ & _ & L & _).
  - split; [exists "abc"; split; [reflexivity | discriminate]|].
    split; [vm_compute; discriminate|].
    split; [right; exists "/library/cat.png"; split; [reflexivity | discriminate]|].
    vm_compute. discriminate.
  - exists r. split; assumption.
Defined.

Lemma postDisabled_false (props : Twitter.Props) (s : Twitter.State) :
  Twitter.postDisabled props s = false ->
  Twitter.status s <> Twitter.posting /\
  Twitter.isOverLimit s = false /\
  Twitter.present (Twitter.mediaUrl props) = true /\
  Text.truthy (Text.trim (Twitter.tweetText s)) = true.
Proof.
  unfold Twitter.postDisabled. intros H.
  apply orb_false_elim in H. destruct H as [H HT].
  apply orb_false_elim in H. destruct H as [H HM].
  apply orb_false_elim in H. destruct H as [HP HL].
  repeat split.
  - intros E. rewrite E in HP. discriminate.
  - exact HL.
  - destruct (Twitter.present _); [reflexivity | discriminate].
  - destruct (Text.truthy _); [reflexivity | discriminate].
Qed.

Lemma textOnlyDisabled_false (s : Twitter.State) :
  Twitter.textOnlyDisabled s = false ->
  Twitter.status s <> Twitter.posting /\
  Twitter.isOverLimit s = false /\
  Text.truthy (Text.trim (Twitter.tweetText s)) = true.
Proof.
  unfold Twitter.textOnlyDisabled. intros H.
  apply orb_false_elim in H. destruct H as [H HT].
  apply orb_false_elim in H. destruct H as [HP HL].
  repeat split.
  - intros E. rewrite E in HP. discriminate.
  - exact HL.
  - destruct (Text.truthy _); [reflexivity | discriminate].
Qed.

(** X19. The two post buttons and the guards of [handlePost] agree, but for
    the session and the status.  With a session, a click on an enabled Post
    button sends a request with the media and one on an enabled Text Only
    button sends one without.  A button disabled while no post is in flight
    would send nothing if clicked.  Without a session, a click on an enabled
    button changes nothing at all, not even the error message.  The handler
    never reads the status: called twice with nothing in between, it sends
    its request twice. *)
Theorem post_buttons_agree_with_guards (props : Twitter.Props) (w : Twitter.World) :
  let s := Twitter.state w in
  (Twitter.postDisabled props s = false ->
   Twitter.present (Twitter.sessionId s) = true ->
   exists r, Twitter.posts (Twitter.handlePost props false w) = (Twitter.posts w ++ [r])%list
             /\ Twitter.media r <> None) /\
  (Twitter.textOnlyDisabled s = false ->
   Twitter.present (Twitter.sessionId s) = true ->
   exists r, Twitter.posts (Twitter.handlePost props true w) = (Twitter.posts w ++ [r])%list
             /\ Twitter.media r = None) /\
  (Twitter.postDisabled props s = true -> Twitter.status s <> Twitter.posting ->
   Twitter.posts (Twitter.handlePost props false w) = Twitter.posts w) /\
  (Twitter.textOnlyDisabled s = true -> Twitter.status s <> Twitter.posting ->
   Twitter.posts (Twitter.handlePost props true w) = Twitter.posts w) /\
  (Twitter.present (Twitter.sessionId s) = false ->
   forall skipMedia, Twitter.handlePost props skipMedia w = w) /\
  (forall skipMedia r,
     Twitter.posts (Twitter.handlePost props skipMedia w) = (Twitter.posts w ++ [r])%list ->
     Twitter.posts (Twitter.handlePost props skipMedia (Twitter.handlePost props skipMedia w))
     = (Twitter.posts w ++ [r; r])%list).
Proof.
  cbv zeta. repeat apply conj.
  - intros D HS. apply postDisabled_false in D. destruct D as (_ & HL & HM & HT).
    destruct (handlePost_sends props false w HS HL) as (sid & _ & E); [exact HM | exact HT |].
    rewrite E. cbn. eexists. split; [reflexivity|]. cbn.
    apply present_true in HM. destruct HM as (url & -> & _). discriminate.
  - intros D HS. apply textOnlyDisabled_false in D. destruct D as (_ & HL & HT).
    destruct (handlePost_sends props true w HS HL) as (sid & _ & E); [reflexivity | exact HT |].
    rewrite E. cbn. eexists. split; reflexivity.
  - intros D NP. apply (handlePost_refuses props false w).
    unfold Twitter.postDisabled in D.
    destruct (Twitter.status (Twitter.state w)); try contradiction;
      cbn [orb negb andb] in *;
      destruct (Twitter.isOverLimit _), (Twitter.present (Twitter.mediaUrl props)),
        (Text.truthy _), (Twitter.present (Twitter.sessionId _));
      cbn in *; congruence.
  - intros D NP. apply (handlePost_refuses props true w).
    unfold Twitter.textOnlyDisabled in D.
    destruct (Twitter.status (Twitter.state w)); try contradiction;
      cbn [orb negb andb] in *;
      destruct (Twitter.isOverLimit _), (Text.truthy _),
        (Twitter.present (Twitter.sessionId _));
      cbn in *; congruence.
  - intros HS skipMedia. unfold Twitter.handlePost. cbv zeta. rewrite HS. reflexivity.
  - intros skipMedia r E.
    destruct (Twitter.present (Twitter.sessionId (Twitter.state w))
              && negb (Twitter.isOverLimit (Twitter.state w))
              && (skipMedia || Twitter.present (Twitter.mediaUrl props))
              && Text.truthy (Text.trim (Twitter.tweetText (Twitter.state w)))) eqn:G.
    + apply andb_prop in G. destruct G as [G HT].
      apply andb_prop in G. destruct G as [G HM].
      apply andb_prop in G. destruct G as [HS HL].
      apply negb_true_iff in HL.
      destruct (handlePost_sends props skipMedia w HS HL HM HT) as (sid & ES & E1).
      rewrite E1 in E. cbn in E. apply app_inv_head in E. injection E as <-.
      set (w1 := Twitter.handlePost props skipMedia w).
      assert (S1 : Twitter.state w1
                   = {| Twitter.tweetText := Twitter.tweetText (Twitter.state w);
                        Twitter.status := Twitter.posting; Twitter.errorText := None;
                        Twitter.tweetUrl := Twitter.tweetUrl (Twitter.state w);
                        Twitter.user := Twitter.user (Twitter.state w);
                        Twitter.sessionId := Twitter.sessionId (Twitter.state w) |})
        by (unfold w1; rewrite E1; reflexivity).
      assert (P1 : Twitter.posts w1
                   = (Twitter.posts w
                      ++ [ {| Twitter.session := sid;
                              Twitter.text := Text.trim (Twitter.tweetText (Twitter.state w));
                              Twitter.media :=
                                if skipMedia then None
                                else option_map (fun url => (url, Twitter.mediaType props))
                                                (Twitter.mediaUrl props) |} ])%list)
        by (unfold w1; rewrite E1; reflexivity).
      destruct (handlePost_sends props skipMedia w1) as (sid' & ES' & E2).
      * rewrite S1. exact HS.
      * rewrite S1. exact HL.
      * exact HM.
      * rewrite S1. exact HT.
      * rewrite E2. cbn. rewrite P1, S1. cbn.
        rewrite S1 in ES'. cbn in ES'. rewrite ES in ES'. injection ES' as <-.
        rewrite <- app_assoc. reflexivity.
    + exfalso.
      destruct (handlePost_refuses props skipMedia w G) as (R & _).
      rewrite R in E. apply (f_equal (@List.length _)) in E.
      rewrite length_app in E. simpl in E. lia.
Qed.

Lemma post_buttons_agree_with_guards_witness :
  Twitter.postDisabled exampleProps (Twitter.state exampleModal) = false
  /\ exists r,
       Twitter.posts (Twitter.handlePost exampleProps false exampleModal)
       = (Twitter.posts exampleModal ++ [r])%list
       /\ Twitter.media r <> None.
Proof.
  split; [reflexivity|].
  destruct (post_buttons_agree_with_guards exampleProps exampleModal) as [Post _].
  apply Post; reflexivity.
Defined.

(** X20. Closing the modal does not take back a post in flight.  Whatever
    the state was, once the modal has been reset by its closing and the
    answer to the post then arrives, the status is [success] or [error]
    again, with the link of the tweet or a message that is not empty, and
    the effect of the next opening leaves all of that in place, so that the
    reopened modal shows the old outcome over an empty text.  The escape
    key asks to close whatever the status is; a click on the overlay does
    not while a post is in flight. *)
Theorem post_answer_outlives_closing (w : Twitter.World) (answer : Twitter.PostAnswer) :
  let w1 := Twitter.handlePostAnswered answer (Twitter.closeEffect w) in
  let w2 := Twitter.openEffect w1 in
  Twitter.status (Twitter.state (Twitter.closeEffect w)) = Twitter.idle /\
  Twitter.posts (Twitter.closeEffect w) = Twitter.posts w /\
  ((Twitter.status (Twitter.state w1) = Twitter.success /\
    exists e url, answer = Twitter.PostResponded true e url
                  /\ Twitter.tweetUrl (Twitter.state w1) = url)
   \/
   (Twitter.status (Twitter.state w1) = Twitter.error /\
    exists message, Twitter.errorText (Twitter.state w1) = Some message /\ message <> "")) /\
  Twitter.tweetText (Twitter.state w2) = [] /\
  Twitter.status (Twitter.state w2) = Twitter.status (Twitter.state w1) /\
  Twitter.tweetUrl (Twitter.state w2) = Twitter.tweetUrl (Twitter.state w1) /\
  Twitter.errorText (Twitter.state w2) = Twitter.errorText (Twitter.state w1) /\
  Twitter.keyDownCloses "Escape" = true /\
  (forall targetIsOverlay s,
     Twitter.overlayClickCloses targetIsOverlay s = true ->
     Twitter.status s <> Twitter.posting).
Proof.
  cbv zeta.
  assert (OE : forall v, JS.orElse v "Failed to post tweet" <> "").
  { intros [m|]; simpl; [|discriminate].
    destruct (String.eqb_spec m ""); [discriminate | assumption]. }
  split; [reflexivity|]. split; [reflexivity|].
  split.
  { destruct answer as [m | [|] e url]; cbn.
    - right. split; [reflexivity|]. eexists. split; [reflexivity | exact (OE (Some m))].
    - left. split; [reflexivity|]. exists e, url. split; reflexivity.
    - right. split; [reflexivity|]. eexists.
      split; [reflexivity | exact (OE (Some (JS.orElse e "Failed to post tweet")))]. }
  assert (O : forall v, Twitter.tweetText (Twitter.state (Twitter.openEffect v))
                        = Twitter.tweetText (Twitter.state v)
                        /\ Twitter.status (Twitter.state (Twitter.openEffect v))
                           = Twitter.status (Twitter.state v)
                        /\ Twitter.tweetUrl (Twitter.state (Twitter.openEffect v))
                           = Twitter.tweetUrl (Twitter.state v)
                        /\ Twitter.errorText (Twitter.state (Twitter.openEffect v))
                           = Twitter.errorText (Twitter.state v)).
  { intros v. unfold Twitter.openEffect.
    destruct (Storage.getItem _ _) as [stored|]; [|repeat split].
    destruct (negb _); repeat split. }
  destruct (O (Twitter.handlePostAnswered answer (Twitter.closeEffect w)))
    as (O1 & O2 & O3 & O4).
  split.
  { rewrite O1. destruct answer as [m | [|] e url]; reflexivity. }
  split; [exact O2|]. split; [exact O3|]. split; [exact O4|].
  split; [reflexivity|].
  intros t s H E. unfold Twitter.overlayClickCloses in H. rewrite E in H.
  destruct t; discriminate.
Qed.

Lemma post_answer_outlives_closing_witness :
  Twitter.overlayClickCloses true (Twitter.state exampleModal) = true
  /\ Twitter.status (Twitter.state exampleModal) <> Twitter.posting.
Proof.
  split; [reflexivity|].
  destruct (post_answer_outlives_closing exampleModal (Twitter.PostThrew ""))
    as (_ & _ & _ & _ & _ & _ & _ & _ & Overlay).
  apply (Overlay true). reflexivity.
Defined.

Lemma getItem_setItem (key value : string) (s : Storage.t) :
  Storage.getItem key (Storage.setItem key value s) = Some value.
Proof.
  unfold Storage.getItem, Storage.setItem. simpl.
  rewrite String.eqb_refl. reflexivity.
Qed.

Lemma getItem_removeItem (key : string) (s : Storage.t) :
  Storage.getItem key (Storage.removeItem key s) = None.
Proof.
  unfold Storage.getItem, Storage.removeItem.
  induction s as [|[k v] s IH]; simpl; [reflexivity|].
  destruct (String.eqb_spec k key) as [E|N]; simpl; [exact IH|].
  destruct (String.eqb_spec k key); [contradiction | exact IH].
Qed.

Lemma step_storage (props : Twitter.Props) (e : Twitter.Event) (w : Twitter.World) :
  sessionHeld w -> sessionHeld (Twitter.step props e w).
Proof.
  unfold sessionHeld. intros H.
  destruct e as [ | | [s u|m|] | [|u|] | t | | a | | k | a | ];
    cbn -[Storage.getItem Storage.setItem Storage.removeItem Twitter.openEffect
          Twitter.handlePost].
  - unfold Twitter.openEffect.
    destruct (Storage.getItem _ _) as [stored|] eqn:G; [|rewrite G; exact H].
    destruct (negb _); cbn; [right; congruence | rewrite G; exact H].
  - exact H.
  - right. rewrite getItem_setItem. reflexivity.
  - exact H.
  - exact H.
  - exact H.
  - exact H.
  - left. reflexivity.
  - exact H.
  - exact H.
  - destruct a as [m | ok e p]; cbn; [exact H|].
    destruct ok; cbn; [|exact H]. destruct p; cbn; exact H.
  - left. reflexivity.
  - unfold Twitter.handlePost. cbv zeta.
    destruct (_ || _); [exact H|].
    destruct (_ && _); [exact H|].
    destruct (negb _); cbn; exact H.
  - destruct a as [m | ok e url]; cbn; [exact H|].
    destruct ok; cbn; exact H.
  - exact H.
Qed.

Lemma run_storage (props : Twitter.Props) (events : list Twitter.Event) (w : Twitter.World) :
  sessionHeld w -> sessionHeld (Twitter.run props events w).
Proof.
  revert w. induction events as [|e events IH]; intros w H; [exact H|].
  apply IH, step_storage, H.
Qed.

(** X21. The session of the state, when there is one, is the one in
    [localStorage]: this holds when the component is mounted, whatever is
    stored, and no event of the modal breaks it.  So every request the
    modal sends goes out under the stored session, which is not empty. *)
Theorem posts_go_out_under_the_stored_session
    (props : Twitter.Props) (events : list Twitter.Event) (w : Twitter.World)
    (skipMedia : bool) (r : Twitter.PostRequest) :
  (forall stored, sessionHeld (Twitter.initialWorld stored)) /\
  (sessionHeld w ->
   let w1 := Twitter.run props events w in
   sessionHeld w1 /\
   (Twitter.posts (Twitter.handlePost props skipMedia w1) = (Twitter.posts w1 ++ [r])%list ->
    Storage.getItem Twitter.TWITTER_SESSION_KEY (Twitter.localStorage w1)
    = Some (Twitter.session r)
    /\ Twitter.session r <> "")).
Proof.
  split; [intros stored; left; reflexivity|].
  intros H. cbv zeta.
  pose proof (run_storage props events w H) as H1.
  split; [exact H1|].
  set (w1 := Twitter.run props events w) in *. intros E.
  destruct (Twitter.present (Twitter.sessionId (Twitter.state w1))
            && negb (Twitter.isOverLimit (Twitter.state w1))
            && (skipMedia || Twitter.present (Twitter.mediaUrl props))
            && Text.truthy (Text.trim (Twitter.tweetText (Twitter.state w1)))) eqn:G.
  - apply andb_prop in G. destruct G as [G HT].
    apply andb_prop in G. destruct G as [G HM].
    apply andb_prop in G. destruct G as [HS HL].
    apply negb_true_iff in HL.
    destruct (handlePost_sends props skipMedia w1 HS HL HM HT) as (sid & ES & E1).
    rewrite E1 in E. cbn in E. apply app_inv_head in E. injection E as <-. cbn.
    apply present_true in HS. destruct HS as (sid' & ES' & NE).
    rewrite ES in ES'. injection ES' as <-.
    split; [|exact NE].
    destruct H1 as [H1|H1]; [congruence|]. rewrite <- H1. exact ES.
  - exfalso.
    destruct (handlePost_refuses props skipMedia w1 G) as (R & _).
    rewrite R in E. apply (f_equal (@List.length _)) in E.
    rewrite length_app in E. simpl in E. lia.
Qed.

Lemma posts_go_out_under_the_stored_session_witness :
  sessionHeld exampleModal
  /\ Storage.getItem Twitter.TWITTER_SESSION_KEY
       (Twitter.localStorage
          (Twitter.run exampleProps
             [Twitter.LogoutSettled;
              Twitter.Messaged (Twitter.AuthSuccess "xyz" exampleUser);
              Twitter.Closed; Twitter.Opened; Twitter.Typed helloText] exampleModal))
     = Some "xyz".
Proof.
  assert (H : sessionHeld exampleModal) by (right; reflexivity).
  split; [exact H|].
  destruct (posts_go_out_under_the_stored_session exampleProps
              [Twitter.LogoutSettled;
               Twitter.Messaged (Twitter.AuthSuccess "xyz" exampleUser);
               Twitter.Closed; Twitter.Opened; Twitter.Typed helloText] exampleModal
              true
              {| Twitter.session := "xyz"; Twitter.text := [104; 105]%N;
                 Twitter.media := None |}) as [_ Held].
  destruct (Held H) as [_ Sent].
  apply Sent. reflexivity.
Defined.

Lemma step_signedOut (props : Twitter.Props) (e : Twitter.Event) (w : Twitter.World) :
  isNoLogin e = true -> signedOut w ->
  signedOut (Twitter.step props e w)
  /\ Twitter.posts (Twitter.step props e w) = Twitter.posts w.
Proof.
  unfold signedOut. intros N [HS HG].
  destruct e as [ | | [s u|m|] | [|u|] | t | | a | | k | a | ];
    cbn -[Storage.getItem Storage.setItem Storage.removeItem Twitter.openEffect
          Twitter.handlePost];
    try discriminate N; try (split; [split; assumption | reflexivity]).
  - unfold Twitter.openEffect. rewrite HG. split; [split; assumption | reflexivity].
  - split; [split; [reflexivity | apply getItem_removeItem] | reflexivity].
  - destruct a as [m | ok e p]; cbn; [split; [split; assumption | reflexivity]|].
    destruct ok; cbn; [|split; [split; assumption | reflexivity]].
    destruct p; cbn; split; try split; try assumption; reflexivity.
  - split; [split; [reflexivity | apply getItem_removeItem] | reflexivity].
  - unfold Twitter.handlePost. cbv zeta. rewrite HS. cbn.
    split; [split; assumption | reflexivity].
  - destruct a as [m | ok e url]; cbn; [split; [split; assumption | reflexivity]|].
    destruct ok; cbn; split; try split; try assumption; reflexivity.
Qed.

Lemma run_signedOut (props : Twitter.Props) (events : list Twitter.Event) (w : Twitter.World) :
  forallb isNoLogin events = true -> signedOut w ->
  signedOut (Twitter.run props events w)
  /\ Twitter.posts (Twitter.run props events w) = Twitter.posts w.
Proof.
  revert w. induction events as [|e events IH]; intros w N H; [split; [exact H | reflexivity]|].
  simpl in N. apply andb_prop in N. destruct N as [Ne N].
  destruct (step_signedOut props e w Ne H) as [H1 P1].
  destruct (IH (Twitter.step props e w) N H1) as [H2 P2].
  split; [exact H2|]. cbn. unfold Twitter.run in P2. rewrite P2. exact P1.
Qed.

(** X22. Signing out is final until the next login.  After [handleLogout]
    has run, or after the server has answered that the session is expired,
    no session is left in the state or in [localStorage], and whatever
    happens next, as long as no message of a successful login arrives, none
    comes back and no request is sent, however often Post is clicked and
    whatever is typed. *)
Theorem signed_out_sends_nothing
    (props : Twitter.Props) (events : list Twitter.Event) (w : Twitter.World) :
  forallb isNoLogin events = true ->
  let out := Twitter.handleLogoutSettled w in
  let expired := Twitter.checkAuthStatusAnswered Twitter.StatusExpired w in
  signedOut out /\ signedOut expired /\
  signedOut (Twitter.run props events out) /\
  Twitter.posts (Twitter.run props events out) = Twitter.posts w /\
  signedOut (Twitter.run props events expired) /\
  Twitter.posts (Twitter.run props events expired) = Twitter.posts w.
Proof.
  intros N. cbv zeta.
  assert (O : signedOut (Twitter.handleLogoutSettled w))
    by (split; [reflexivity | apply getItem_removeItem]).
  assert (X : signedOut (Twitter.checkAuthStatusAnswered Twitter.StatusExpired w))
    by (split; [reflexivity | apply getItem_removeItem]).
  destruct (run_signedOut props events _ N O) as [O1 O2].
  destruct (run_signedOut props events _ N X) as [X1 X2].
  repeat split; try assumption; try apply O; try apply X; try apply O1; try apply X1.
Qed.

Lemma signed_out_sends_nothing_witness :
  Twitter.posts
    (Twitter.run exampleProps
       [Twitter.Closed; Twitter.Opened; Twitter.Typed helloText;
        Twitter.StatusAnswered (Twitter.StatusAuthenticated exampleUser);
        Twitter.PostClicked false; Twitter.PostClicked true]
       (Twitter.handleLogoutSettled exampleModal))
  = Twitter.posts exampleModal.
Proof.
  destruct (signed_out_sends_nothing exampleProps
              [Twitter.Closed; Twitter.Opened; Twitter.Typed helloText;
               Twitter.StatusAnswered (Twitter.StatusAuthenticated exampleUser);
               Twitter.PostClicked false; Twitter.PostClicked true]
              exampleModal) as (_ & _ & _ & P & _).
  - reflexivity.
  - exact P.
Defined.

(** X23. The answer to a status request is applied whatever session it was
    asked for.  An answer that the session is expired, arriving after a
    newer login, signs that login out: session, user and stored session are
    gone.  An answer that the session is good, arriving after a sign-out,
    brings the user back without a session: the compose view and its
    buttons are shown again, but [handlePost] then changes nothing. *)
Theorem late_status_answers_are_applied
    (w : Twitter.World) (newSessionId : string) (u : Twitter.TwitterUser) :
  let login := Twitter.handleMessage (Twitter.AuthSuccess newSessionId u) w in
  let wiped := Twitter.checkAuthStatusAnswered Twitter.StatusExpired login in
  let back :=
    Twitter.checkAuthStatusAnswered (Twitter.StatusAuthenticated u)
      (Twitter.handleLogoutSettled w) in
  Twitter.sessionId (Twitter.state login) = Some newSessionId /\
  Twitter.user (Twitter.state login) = Some u /\
  Storage.getItem Twitter.TWITTER_SESSION_KEY (Twitter.localStorage login)
  = Some newSessionId /\
  Twitter.sessionId (Twitter.state wiped) = None /\
  Twitter.user (Twitter.state wiped) = None /\
  Storage.getItem Twitter.TWITTER_SESSION_KEY (Twitter.localStorage wiped) = None /\
  Twitter.user (Twitter.state back) = Some u /\
  Twitter.sessionId (Twitter.state back) = None /\
  Storage.getItem Twitter.TWITTER_SESSION_KEY (Twitter.localStorage back) = None /\
  (forall props skipMedia, Twitter.handlePost props skipMedia back = back).
Proof.
  cbv zeta. repeat apply conj; try reflexivity;
    first [apply getItem_setItem | apply getItem_removeItem].
Qed.

Lemma prefix_append (p s : string) : String.prefix p (p ++ s) = true.
Proof.
  induction p as [|c p IH]; simpl.
  - destruct s; reflexivity.
  - destruct (Ascii.ascii_dec c c) as [_|N]; [exact IH | contradiction].
Qed.

(** X24. The address the preview is loaded from always begins with
    [http]: an address that does so already is used as it is, anything
    else is put behind the address of the local server, an empty address
    giving the bare server address and a missing one the server address
    followed by the word null. *)
Theorem fullMediaUrl_is_absolute (props : Twitter.Props) :
  JS.startsWith (Twitter.fullMediaUrl props) "http" = true /\
  (forall url, Twitter.mediaUrl props = Some url ->
     (JS.startsWith url "http" = true -> Twitter.fullMediaUrl props = url) /\
     (JS.startsWith url "http" = false ->
      Twitter.fullMediaUrl props = "http://localhost:3001" ++ url)) /\
  (Twitter.mediaUrl props = Some "" ->
   Twitter.fullMediaUrl props = "http://localhost:3001") /\
  (Twitter.mediaUrl props = None ->
   Twitter.fullMediaUrl props = "http://localhost:3001null").
Proof.
  unfold Twitter.fullMediaUrl, JS.startsWith.
  repeat apply conj.
  - destruct (Twitter.mediaUrl props) as [url|]; [|reflexivity].
    destruct (String.prefix "http" url) eqn:P; [exact P|].
    exact (prefix_append "http" ("://localhost:3001" ++ url)).
  - intros url ->. split; intros ->; reflexivity.
  - intros ->. reflexivity.
  - intros ->. reflexivity.
Qed.

Lemma fullMediaUrl_is_absolute_witness :
  Twitter.fullMediaUrl exampleProps = "http://localhost:3001/library/cat.png".
Proof.
  destruct (fullMediaUrl_is_absolute exampleProps) as (_ & Url & _).
  destruct (Url "/library/cat.png" eq_refl) as [_ Relative].
  apply Relative. reflexivity.
Defined.

(* ================================================================== *)
(** ** The angle panel *)
(* ================================================================== *)




